(** * A shallow embedding of the buildkit solver core

    The development follows the layout of the repository:

    - [Progress]  util/progress/progress.go  (lazy pub/sub bus)
    - [Cache]     cache/refs.go              (reference-counted records)
    - [Solver]    solver/solver.go, solver/jobs.go (vertex evaluator, status walk)

    Go pointers are locations ([nat]) into explicit stores, Go maps are
    [gmap]s, Go sets ([map[K]struct{}]) are [gset]s, Go [int]s are [Z].
    External collaborators (snapshotter, lease manager, content store, worker,
    source plugins) are interfaces over an abstract world. *)

From stdpp Require Import base option list gmap sets strings.
From Stdlib Require Import ZArith Lia.

Open Scope Z_scope.
Open Scope string_scope.
Open Scope list_scope.

(** Go [error] values; [None] is [nil]. *)
Inductive error := Errorf (msg : string) | Wrapf (cause : error) (msg : string).

(** A call either returns or panics (nil dereference, failed type assertion,
    index out of range). *)
Inductive outcome (A : Type) := Returned (a : A) | Panicked.
Arguments Returned {A} a.
Arguments Panicked {A}.

(* ===================================================================== *)
(** * util/progress/progress.go *)
(* ===================================================================== *)
Module Progress.

(** [time.Time] as a number of ticks after the zero time; [IsZero] is [= 0]. *)
Definition Time := Z.
Definition IsZero (t : Time) : bool := (t =? 0)%Z.

(** [type Progress struct]. [Done] is spelled [PDone] because the writer's
    method is called [Done] too. *)
Record Progress := mkProgress {
  ID : string;
  Message : string;
  Action : string;
  Current : Z;
  Total : Z;
  Timestamp : Time;
  PDone : bool;
}.

(** The zero value [Progress{}]. *)
Definition Progress_zero : Progress := mkProgress "" "" "" 0 0 0 false.

(** A [*Progress]: the address of the allocation and the (never mutated)
    pointee. Pointer comparison compares addresses. *)
Record ProgressPtr := mkPtr { addr : nat; deref : Progress }.

Definition ptr_eqb (a b : option ProgressPtr) : bool :=
  match a, b with
  | None, None => true
  | Some x, Some y => Nat.eqb (addr x) (addr y)
  | _, _ => false
  end.

(** [type progressWriter struct]; the [reader] field is the one reader of the
    pipe the writer belongs to, see [Bus]. [lastP] is the [atomic.Value]:
    [None] until the first [Store]. *)
Record progressWriter := mkWriter {
  id : string;
  lastP : option ProgressPtr;
  done : bool;
}.

(** [type streamHandle struct]: [pw] is a pointer into the writer store. *)
Record streamHandle := mkHandle {
  sh_pw : nat;
  sh_lastP : option ProgressPtr;
}.

(** [type progressReader struct]: [ctx_done] says whether [pr.ctx] has been
    cancelled, [broadcasts] counts the calls of [cond.Broadcast]. *)
Record progressReader := mkReader {
  ctx_done : bool;
  handles : list streamHandle;
  broadcasts : nat;
}.

(** What [pipe()] sets up: one reader, the store of the writers that point to
    it, and the allocation counters for writers and for [Progress] values. *)
Record Bus := mkBus {
  pr : progressReader;
  pws : gmap nat progressWriter;
  next_pw : nat;
  next_addr : nat;
}.

(** [func (sh *streamHandle) next() ( *Progress, bool)], given the writer the
    handle points to. *)
Definition next (sh : streamHandle) (pw : progressWriter)
  : streamHandle * option ProgressPtr :=
  match lastP pw with
  | Some last =>
      if negb (ptr_eqb (Some last) (sh_lastP sh))
      then (mkHandle (sh_pw sh) (Some last), Some last)
      else (sh, None)
  | None => (sh, None)
  end.

(** What one pass of the loop of [Read] does. *)
Inductive ReadResult :=
| ReadEvent (p : ProgressPtr)   (* return p, nil *)
| ReadEOF                       (* return nil, nil *)
| ReadErr                       (* return nil, ctx.Err() *)
| ReadWait.                     (* pr.cond.Wait(), then the loop again *)

(** The [for _, sh := range pr.handles] loop of [Read]: the handles already
    visited are in [seen], [open] is the flag of the source. A handle whose
    writer is not in the store cannot exist in Go; it is skipped. *)
Fixpoint read_handles (ws : gmap nat progressWriter) (seen rest : list streamHandle)
  (open : bool) : list streamHandle * option ProgressPtr * bool :=
  match rest with
  | [] => (seen, None, open)
  | sh :: rest' =>
      match ws !! sh_pw sh with
      | None => read_handles ws (seen ++ [sh]) rest' open
      | Some pw =>
          match next sh pw with
          | (sh', Some p) => (seen ++ sh' :: rest', Some p, open)
          | (sh', None) =>
              let open' :=
                match sh_lastP sh' with
                | None => true
                | Some l => if negb (PDone (deref l)) then true else open
                end in
              read_handles ws (seen ++ [sh']) rest' open'
          end
      end
  end.

(** [func (pr *progressReader) Read(ctx) ( *Progress, error)], one pass of its
    loop; [caller_done] says whether the caller's [ctx] is cancelled. *)
Definition Read (b : Bus) (caller_done : bool) : Bus * ReadResult :=
  if caller_done then (b, ReadErr)
  else
    match read_handles (pws b) [] (handles (pr b)) false with
    | (hs, Some p, _) =>
        (mkBus (mkReader (ctx_done (pr b)) hs (broadcasts (pr b)))
               (pws b) (next_pw b) (next_addr b), ReadEvent p)
    | (hs, None, open) =>
        let b' := mkBus (mkReader (ctx_done (pr b)) hs (broadcasts (pr b)))
                        (pws b) (next_pw b) (next_addr b) in
        if ctx_done (pr b) then
          if negb open then (b', ReadEOF) else (b', ReadWait)
        else (b', ReadWait)
    end.

(** [func (pr *progressReader) append(pw *progressWriter)]. *)
Definition append (r : progressReader) (pw : nat) : progressReader :=
  if ctx_done r then r
  else mkReader (ctx_done r) (handles r ++ [mkHandle pw None]) (broadcasts r).

(** [func pipe()]: the reader, the root writer (at location 0) and, as
    [cancel], the function that cancels the reader's context. *)
Definition pipe : Bus :=
  mkBus (mkReader false [] 0) {[ 0%nat := mkWriter "" None false ]} 1 0.

Definition cancel (b : Bus) : Bus :=
  mkBus (mkReader true (handles (pr b)) (S (broadcasts (pr b))))
        (pws b) (next_pw b) (next_addr b).

(** [func newWriter(pw *progressWriter, name string) *progressWriter]. *)
Definition newWriter (b : Bus) (parent : nat) (name : string) : outcome (Bus * nat) :=
  match pws b !! parent with
  | None => Panicked
  | Some ppw =>
      let name' := if decide (id ppw = "") then name else id ppw +:+ "." +:+ name in
      let w := next_pw b in
      Returned
        (mkBus (append (pr b) w) (<[w := mkWriter name' None false]> (pws b))
               (S w) (next_addr b), w)
  end.

(** [pw.reader.cond.Broadcast()]. *)
Definition broadcast (r : progressReader) : progressReader :=
  mkReader (ctx_done r) (handles r) (S (broadcasts r)).

(** [func (pw *progressWriter) Write(p Progress) error] on the writer at
    location [w]; [now] is the value [time.Now()] returns during the call. The
    stored copy [&p] is a fresh allocation. *)
Definition Write (b : Bus) (w : nat) (p : Progress) (now : Time)
  : outcome (Bus * option error) :=
  match pws b !! w with
  | None => Panicked
  | Some pw =>
      if done pw then
        Returned (b, Some (Errorf ("writing to closed progresswriter " +:+ id pw)))
      else
        let p1 := mkProgress (id pw) (Message p) (Action p) (Current p) (Total p)
                    (if IsZero (Timestamp p) then now else Timestamp p) (PDone p) in
        let pw1 := mkWriter (id pw) (Some (mkPtr (next_addr b) p1))
                     (if PDone p1 then true else done pw) in
        Returned (mkBus (broadcast (pr b)) (<[w := pw1]> (pws b)) (next_pw b)
                        (S (next_addr b)), None)
  end.

(** [func (pw *progressWriter) Done() error]. The unchecked type assertion
    [pw.lastP.Load().( *Progress)] panics on the nil interface that an empty
    [atomic.Value] loads. *)
Definition Done (b : Bus) (w : nat) (now : Time) : outcome (Bus * option error) :=
  match pws b !! w with
  | None => Panicked
  | Some pw =>
      match lastP pw with
      | None => Panicked
      | Some last =>
          let p := deref last in
          if PDone p then Returned (b, None)
          else
            let p' := mkProgress (ID p) (Message p) (Action p) (Current p) (Total p)
                        (Timestamp p) true in
            Write b w p' now
      end
  end.

(** The calls a client of the bus can make, and what the reader and the
    writers did in a run of them: which writer stored which allocation, and
    which allocation a [Read] handed out. *)
Inductive Call :=
| CWrite (w : nat) (p : Progress) (now : Time)
| CDone (w : nat) (now : Time)
| CNewWriter (parent : nat) (name : string)
| CRead (caller_done : bool)
| CCancel.

Inductive Obs :=
| Stored (w : nat) (a : nat)
| Observed (a : nat).

Definition stored_by (b b' : Bus) (w : nat) : list Obs :=
  if Nat.eqb (next_addr b') (next_addr b) then [] else [Stored w (next_addr b)].

Definition call (b : Bus) (c : Call) : outcome (Bus * list Obs) :=
  match c with
  | CWrite w p now =>
      match Write b w p now with
      | Returned (b', _) => Returned (b', stored_by b b' w)
      | Panicked => Panicked
      end
  | CDone w now =>
      match Done b w now with
      | Returned (b', _) => Returned (b', stored_by b b' w)
      | Panicked => Panicked
      end
  | CNewWriter parent name =>
      match newWriter b parent name with
      | Returned (b', _) => Returned (b', [])
      | Panicked => Panicked
      end
  | CRead cd =>
      match Read b cd with
      | (b', ReadEvent p) => Returned (b', [Observed (addr p)])
      | (b', _) => Returned (b', [])
      end
  | CCancel => Returned (cancel b, [])
  end.

(** A run of calls; a panic ends it. *)
Fixpoint calls (b : Bus) (cs : list Call) : Bus * list Obs :=
  match cs with
  | [] => (b, [])
  | c :: cs' =>
      match call b c with
      | Returned (b1, o1) =>
          let '(b2, o2) := calls b1 cs' in (b2, o1 ++ o2)
      | Panicked => (b, [])
      end
  end.

(** What holds of every writer that [newWriter], [Write] and [Done] produce:
    the flag [done] is the flag of the last event, which carries the id of
    the writer. *)
Definition writer_inv (pw : progressWriter) : Prop :=
  match lastP pw with
  | Some last => PDone (deref last) = done pw ∧ ID (deref last) = id pw
  | None => done pw = false
  end.

(** What holds of every bus that [pipe] and the calls produce: handles point
    to allocated writers and stored events to allocated addresses. *)
Definition stored_below (n : nat) (pw : progressWriter) : Prop :=
  from_option (λ last, (addr last < n)%nat) True (lastP pw).

#[global] Instance stored_below_dec n pw : Decision (stored_below n pw).
Proof. unfold stored_below. destruct (lastP pw); simpl; apply _. Defined.

Definition bus_inv (b : Bus) : Prop :=
  Forall (λ sh, (sh_pw sh < next_pw b)%nat) (handles (pr b)) ∧
  map_Forall (λ _ pw, stored_below (next_addr b) pw) (pws b).

(** The addresses a run has seen the writer [w] store, and the addresses it
    has seen the reader hand out. *)
Definition stored_addrs (w : nat) (obs : list Obs) : list nat :=
  omap (λ o, match o with
             | Stored w' a => if decide (w' = w) then Some a else None
             | Observed _ => None
             end) obs.

Definition observed_addrs (obs : list Obs) : list nat :=
  omap (λ o, match o with Observed a => Some a | Stored _ _ => None end) obs.

(** The writer [w] is cut off from the reader of [b]: the reader is closed,
    no handle points to [w], and no allocation that [w] has stored (those in
    [Sw]) is one that the reader has handed out (those in [O]) or that
    another writer holds. *)
Definition cut_off (w : nat) (Sw O : list nat) (b : Bus) : Prop :=
  ctx_done (pr b) = true ∧
  (w ∉ sh_pw <$> handles (pr b)) ∧
  (∀ a, a ∈ Sw → (a < next_addr b)%nat) ∧
  (∀ a, a ∈ O → (a < next_addr b)%nat ∧ a ∉ Sw) ∧
  (∀ w' pw' last, w' ≠ w → pws b !! w' = Some pw' → lastP pw' = Some last →
                  (addr last < next_addr b)%nat ∧ addr last ∉ Sw).

(** The bus just after [newWriter] on the root writer of a fresh [pipe]: the
    new writer, at location 1, has not published anything. *)
Definition fresh_bus : Bus :=
  match newWriter pipe 0 "vertex" with
  | Returned (b, _) => b
  | Panicked => pipe
  end.

(** A bus with one writer that has published one event, and the same bus
    after its context was cancelled. *)
Definition example_bus : Bus :=
  match newWriter pipe 0 "vertex" with
  | Returned (b, w) =>
      match Write b w (mkProgress "" "pulling" "" 1 2 0 false) 7 with
      | Returned (b', _) => b'
      | Panicked => pipe
      end
  | Panicked => pipe
  end.

Definition example_closed_bus : Bus := cancel example_bus.

(** ** Runs of the bus

    What holds of the writers of a bus: [writer_inv] of each of them. *)
Definition writers_inv (b : Bus) : Prop := map_Forall (λ _ pw, writer_inv pw) (pws b).

(** The test [sh.lastP == nil || !sh.lastP.Done] of [Read]. *)
Definition handle_open (sh : streamHandle) : bool :=
  match sh_lastP sh with
  | None => true
  | Some l => negb (PDone (deref l))
  end.

(** What a run keeps for the deliveries [O] made so far: a handle per
    writer, stored events at addresses that only their writer holds, and the
    handle of a writer whose last event has been delivered is at that event. *)
Definition deliv_inv (O : list nat) (b : Bus) : Prop :=
  NoDup O ∧
  NoDup (sh_pw <$> handles (pr b)) ∧
  bus_inv b ∧
  (∀ a, a ∈ O → (a < next_addr b)%nat) ∧
  (∀ w1 w2 pw1 pw2 l1 l2, pws b !! w1 = Some pw1 → pws b !! w2 = Some pw2 →
      lastP pw1 = Some l1 → lastP pw2 = Some l2 → addr l1 = addr l2 → w1 = w2) ∧
  (∀ sh pw l, sh ∈ handles (pr b) → pws b !! sh_pw sh = Some pw → lastP pw = Some l →
      addr l ∈ O → ∃ l', sh_lastP sh = Some l' ∧ addr l' = addr l).

(** The reader has handed out the last event of the writer of [sh], and
    that event is a [Done] event. *)
Definition drained (ws : gmap nat progressWriter) (sh : streamHandle) : Prop :=
  ∃ pw l, ws !! sh_pw sh = Some pw ∧ sh_lastP sh = Some l ∧
          PDone (deref l) = true ∧
          ∀ l', lastP pw = Some l' → addr l' = addr l.

(** The allocation [a] is no writer's last event any more. *)
Definition stale (a : nat) (b : Bus) : Prop :=
  (a < next_addr b)%nat ∧
  ∀ w pw l, pws b !! w = Some pw → lastP pw = Some l → addr l ≠ a.

(** A run for the examples: a writer is registered, writes twice and is
    closed, with a [Read] after each step; then the reader is cancelled and
    read again. *)
Definition example_run : list Call :=
  [CNewWriter 0 "vertex"; CWrite 1 (mkProgress "" "pulling" "" 1 2 0 false) 7;
   CRead false; CWrite 1 (mkProgress "" "pulling" "" 2 2 0 false) 8; CRead false;
   CDone 1 9; CRead false; CRead false; CCancel; CRead false].

End Progress.

(* ===================================================================== *)
(** * State passing with panics and fuel *)
(* ===================================================================== *)

(** The result of running a stateful computation: a value and the new state, a
    panic, or [OutOfFuel] when the recursion bound of the model was too small
    (the source recurses along pointers, which is not structural). *)
Inductive res (S A : Type) :=
| Ok (a : A) (s : S)
| Panic
| OutOfFuel.
Arguments Ok {S A} a s.
Arguments Panic {S A}.
Arguments OutOfFuel {S A}.

Definition M (S A : Type) : Type := S → res S A.

Definition ret {S A} (a : A) : M S A := λ s, Ok a s.

Definition bind {S A B} (c : M S A) (k : A → M S B) : M S B :=
  λ s, match c s with
       | Ok a s' => k a s'
       | Panic => Panic
       | OutOfFuel => OutOfFuel
       end.

Definition get {S} : M S S := λ s, Ok s s.
Definition modify {S} (f : S → S) : M S unit := λ s, Ok tt (f s).
Definition panic {S A} : M S A := λ _, Panic.

(** Dereference of a pointer: a location that is not allocated has no
    counterpart in Go and is treated like a nil dereference. *)
Definition deref_or_panic {S A} (o : option A) : M S A :=
  match o with Some a => ret a | None => panic end.

Declare Scope go_scope.
Delimit Scope go_scope with go.
Notation "x <- c ;; k" := (bind c (λ x, k))
  (at level 100, c at next level, right associativity) : go_scope.
Notation "c ;; k" := (bind c (λ _, k))
  (at level 100, right associativity) : go_scope.

(* ===================================================================== *)
(** * cache/refs.go *)
(* ===================================================================== *)
Module Cache.

(** [digest.Digest] is a string type. *)
Definition Digest := string.
Definition Time := Z.

Inductive cachePolicy := cachePolicyDefault | cachePolicyRetain.

#[global] Instance cachePolicy_eq_dec : EqDecision cachePolicy.
Proof. solve_decision. Defined.

(** Modelled from the spec: the queued writes of [metadata.StorageItem]
    (cache/metadata.go and cache/metadata/ are not part of the sources); one
    constructor per [queueX]/[setX] helper that refs.go calls. *)
Inductive mdUpdate :=
| UDiffID (v : string)
| UBlob (v : string)
| UChainID (v : string)
| UBlobChainID (v : string)
| USize (v : Z)
| UCachePolicy (v : cachePolicy)
| UClearEqualMutable.

(** Modelled from the spec: [metadata.StorageItem], the per-record metadata
    (section 6: parent, size, chain ids, cache policy, last-used timestamp),
    with the writes queued until [Commit]. *)
Record StorageItem := mkMd {
  md_ID : string;
  md_snapshotID : string;
  md_size : Z;
  md_chainID : string;
  md_blobChainID : string;
  md_diffID : string;
  md_blob : string;
  md_blobOnly : bool;
  md_cachePolicy : cachePolicy;
  md_lastUsedAt : option Time;
  md_equalMutable : string;
  md_queue : list mdUpdate;
}.

(** [type cacheRecord struct]. [refs] holds the handles ([ref] interface
    values); [parent], [equalMutable] and [equalImmutable] are typed pointers
    into the two handle stores. *)
Inductive ref := IRef (l : nat) | MRef (l : nat).

#[global] Instance ref_eq_dec : EqDecision ref.
Proof. solve_decision. Defined.

#[global] Instance ref_countable : Countable ref.
Proof.
  refine (inj_countable' (λ r, match r with IRef l => inl l | MRef l => inr l end)
            (λ s, match s with inl l => IRef l | inr l => MRef l end) _).
  by intros [].
Defined.

Record cacheRecord := mkRecord {
  mutable : bool;
  refs : gset ref;
  parent : option nat;          (* *immutableRef *)
  md : StorageItem;
  dead : bool;
  view : string;
  viewMount : option string;    (* snapshot.Mountable, nil when None *)
  equalMutable : option nat;    (* *mutableRef *)
  equalImmutable : option nat;  (* *immutableRef *)
}.

(** [type immutableRef struct] and [type mutableRef struct]: the embedded
    [*cacheRecord] and the flag. *)
Record immutableRef := mkIRef { i_cacheRecord : nat; i_triggerLastUsed : bool }.
Record mutableRef := mkMRef { m_cacheRecord : nat; m_triggerLastUsed : bool }.

(** [type RefInfo struct]. *)
Record RefInfo := mkRefInfo {
  SnapshotID : string;
  ChainID : Digest;
  BlobChainID : Digest;
  DiffID : Digest;
  Blob : Digest;
  Extracted : bool;
}.

(** The calls into the collaborators of the cache manager. *)
Inductive ExtCall :=
| ContentStore_Info (blob : Digest)
| Snapshotter_Commit (name key : string)
| Snapshotter_Remove (key : string)
| LeaseManager_Create (id : string) (gcflat : Time)
| LeaseManager_AddResource (lease : string) (resID resType : string)
| LeaseManager_Delete (lease : string)
| Metadata_Commit (id : string)
| Metadata_Clear (id : string).

(** A goroutine started with [go]: it runs some time later. *)
Inductive Task := GoRemove (cr : nat) (removeSnapshot : bool).

(** The cache manager and everything its records reach: the store of
    [*cacheRecord], the stores of the handles, [cm.records], the calls made to
    the collaborators so far, the clock and the goroutines started. *)
Record State := mkState {
  recs : gmap nat cacheRecord;
  irefs : gmap nat immutableRef;
  mrefs : gmap nat mutableRef;
  next_ref : nat;
  records : gmap string nat;
  trace : list ExtCall;
  clock : Time;
  spawned : list Task;
}.

Definition set_recs (f : gmap nat cacheRecord → gmap nat cacheRecord) (s : State) : State :=
  mkState (f (recs s)) (irefs s) (mrefs s) (next_ref s) (records s) (trace s) (clock s) (spawned s).
Definition set_irefs (f : gmap nat immutableRef → gmap nat immutableRef) (s : State) : State :=
  mkState (recs s) (f (irefs s)) (mrefs s) (next_ref s) (records s) (trace s) (clock s) (spawned s).
Definition set_mrefs (f : gmap nat mutableRef → gmap nat mutableRef) (s : State) : State :=
  mkState (recs s) (irefs s) (f (mrefs s)) (next_ref s) (records s) (trace s) (clock s) (spawned s).
Definition set_next_ref (n : nat) (s : State) : State :=
  mkState (recs s) (irefs s) (mrefs s) n (records s) (trace s) (clock s) (spawned s).
Definition set_records (f : gmap string nat → gmap string nat) (s : State) : State :=
  mkState (recs s) (irefs s) (mrefs s) (next_ref s) (f (records s)) (trace s) (clock s) (spawned s).
Definition set_trace (f : list ExtCall → list ExtCall) (s : State) : State :=
  mkState (recs s) (irefs s) (mrefs s) (next_ref s) (records s) (f (trace s)) (clock s) (spawned s).
Definition set_clock (t : Time) (s : State) : State :=
  mkState (recs s) (irefs s) (mrefs s) (next_ref s) (records s) (trace s) t (spawned s).
Definition set_spawned (f : list Task → list Task) (s : State) : State :=
  mkState (recs s) (irefs s) (mrefs s) (next_ref s) (records s) (trace s) (clock s) (f (spawned s)).

(** Field updates of a record. *)
Definition with_refs (f : gset ref → gset ref) (cr : cacheRecord) : cacheRecord :=
  mkRecord (mutable cr) (f (refs cr)) (parent cr) (md cr) (dead cr) (view cr)
           (viewMount cr) (equalMutable cr) (equalImmutable cr).
Definition with_md (f : StorageItem → StorageItem) (cr : cacheRecord) : cacheRecord :=
  mkRecord (mutable cr) (refs cr) (parent cr) (f (md cr)) (dead cr) (view cr)
           (viewMount cr) (equalMutable cr) (equalImmutable cr).
Definition with_dead (d : bool) (cr : cacheRecord) : cacheRecord :=
  mkRecord (mutable cr) (refs cr) (parent cr) (md cr) d (view cr)
           (viewMount cr) (equalMutable cr) (equalImmutable cr).
Definition with_view (v : string) (vm : option string) (cr : cacheRecord) : cacheRecord :=
  mkRecord (mutable cr) (refs cr) (parent cr) (md cr) (dead cr) v vm
           (equalMutable cr) (equalImmutable cr).
Definition with_equalMutable (m : option nat) (cr : cacheRecord) : cacheRecord :=
  mkRecord (mutable cr) (refs cr) (parent cr) (md cr) (dead cr) (view cr)
           (viewMount cr) m (equalImmutable cr).


Section Methods.

(** The collaborators: [ext history c] is what the call [c] returns (nil or
    an error) after the calls in [history]; [snapshotterName] is
    [Snapshotter.Name()]; [digest_FromString] is go-digest's canonical hash
    ([digest.FromString], SHA-256). *)
Context (ext : list ExtCall → ExtCall → option error).
Context (snapshotterName : string).
Context (digest_FromString : string → Digest).

Local Open Scope go_scope.

Definition get_rec (cr : nat) : M State cacheRecord :=
  s <- get ;; deref_or_panic (recs s !! cr).
Definition put_rec (cr : nat) (v : cacheRecord) : M State unit :=
  modify (set_recs <[cr := v]>).
Definition upd_rec (cr : nat) (f : cacheRecord → cacheRecord) : M State unit :=
  r <- get_rec cr ;; put_rec cr (f r).
Definition get_iref (l : nat) : M State immutableRef :=
  s <- get ;; deref_or_panic (irefs s !! l).
Definition get_mref (l : nat) : M State mutableRef :=
  s <- get ;; deref_or_panic (mrefs s !! l).

(** A call to a collaborator: recorded, and answered by [ext]. *)
Definition ext_call (c : ExtCall) : M State (option error) :=
  λ s, Ok (ext (trace s) c) (set_trace (λ t, t ++ [c]) s).

(** [time.Now()]: the clock is read and moves on. *)
Definition time_Now : M State Time :=
  λ s, Ok (clock s) (set_clock (clock s + 1) s).

(** Modelled from the spec: the metadata getters of cache/metadata.go. *)
Definition getChainID (si : StorageItem) : string := md_chainID si.
Definition getBlobChainID (si : StorageItem) : string := md_blobChainID si.
Definition getDiffID (si : StorageItem) : string := md_diffID si.
Definition getBlob (si : StorageItem) : string := md_blob si.
Definition getSnapshotID (si : StorageItem) : string := md_snapshotID si.
Definition getBlobOnly (si : StorageItem) : bool := md_blobOnly si.
Definition getCachePolicy (si : StorageItem) : cachePolicy := md_cachePolicy si.

(** Modelled from the spec: [si.Queue], used by [queueDiffID], [queueBlob],
    [queueChainID], [queueBlobChainID], [clearEqualMutable] and
    [CachePolicyRetain] of cache/metadata.go. *)
Definition queue (u : mdUpdate) (si : StorageItem) : StorageItem :=
  mkMd (md_ID si) (md_snapshotID si) (md_size si) (md_chainID si) (md_blobChainID si)
       (md_diffID si) (md_blob si) (md_blobOnly si) (md_cachePolicy si)
       (md_lastUsedAt si) (md_equalMutable si) (md_queue si ++ [u]).

Definition apply_update (si : StorageItem) (u : mdUpdate) : StorageItem :=
  match u with
  | UDiffID v =>
      mkMd (md_ID si) (md_snapshotID si) (md_size si) (md_chainID si) (md_blobChainID si)
           v (md_blob si) (md_blobOnly si) (md_cachePolicy si)
           (md_lastUsedAt si) (md_equalMutable si) (md_queue si)
  | UBlob v =>
      mkMd (md_ID si) (md_snapshotID si) (md_size si) (md_chainID si) (md_blobChainID si)
           (md_diffID si) v (md_blobOnly si) (md_cachePolicy si)
           (md_lastUsedAt si) (md_equalMutable si) (md_queue si)
  | UChainID v =>
      mkMd (md_ID si) (md_snapshotID si) (md_size si) v (md_blobChainID si)
           (md_diffID si) (md_blob si) (md_blobOnly si) (md_cachePolicy si)
           (md_lastUsedAt si) (md_equalMutable si) (md_queue si)
  | UBlobChainID v =>
      mkMd (md_ID si) (md_snapshotID si) (md_size si) (md_chainID si) v
           (md_diffID si) (md_blob si) (md_blobOnly si) (md_cachePolicy si)
           (md_lastUsedAt si) (md_equalMutable si) (md_queue si)
  | USize v =>
      mkMd (md_ID si) (md_snapshotID si) v (md_chainID si) (md_blobChainID si)
           (md_diffID si) (md_blob si) (md_blobOnly si) (md_cachePolicy si)
           (md_lastUsedAt si) (md_equalMutable si) (md_queue si)
  | UCachePolicy v =>
      mkMd (md_ID si) (md_snapshotID si) (md_size si) (md_chainID si) (md_blobChainID si)
           (md_diffID si) (md_blob si) (md_blobOnly si) v
           (md_lastUsedAt si) (md_equalMutable si) (md_queue si)
  | UClearEqualMutable =>
      mkMd (md_ID si) (md_snapshotID si) (md_size si) (md_chainID si) (md_blobChainID si)
           (md_diffID si) (md_blob si) (md_blobOnly si) (md_cachePolicy si)
           (md_lastUsedAt si) "" (md_queue si)
  end.

(** Modelled from the spec: what a successful [si.Commit()] leaves in the
    item: the queue is empty and the queued writes are applied in order. *)
Definition committed (si : StorageItem) : StorageItem :=
  fold_left apply_update (md_queue si)
    (mkMd (md_ID si) (md_snapshotID si) (md_size si) (md_chainID si) (md_blobChainID si)
          (md_diffID si) (md_blob si) (md_blobOnly si) (md_cachePolicy si)
          (md_lastUsedAt si) (md_equalMutable si) []).

(** Modelled from the spec: [cr.md.Commit()], a write to the keyed store that
    can fail; when it fails the item is left as it was. *)
Definition md_Commit (cr : nat) : M State (option error) :=
  r <- get_rec cr ;;
  e <- ext_call (Metadata_Commit (md_ID (md r))) ;;
  match e with
  | Some err => ret (Some err)
  | None => put_rec cr (with_md committed r) ;; ret None
  end.

(** Modelled from the spec: [updateLastUsed(si)] of cache/metadata.go stamps
    the last-used timestamp of the item with the current time. *)
Definition stamp (t : Time) (si : StorageItem) : StorageItem :=
  mkMd (md_ID si) (md_snapshotID si) (md_size si) (md_chainID si) (md_blobChainID si)
       (md_diffID si) (md_blob si) (md_blobOnly si) (md_cachePolicy si)
       (Some t) (md_equalMutable si) (md_queue si).

Definition updateLastUsed (cr : nat) : M State unit :=
  now <- time_Now ;; upd_rec cr (with_md (stamp now)).

(** [imagespaceidentity.ChainID] of the image-spec library: the last element
    of [ChainIDs], which folds [FromString(a + " " + b)] from the left. *)
Fixpoint ChainIDs_last (acc : Digest) (rest : list Digest) : Digest :=
  match rest with
  | [] => acc
  | d :: rest' => ChainIDs_last (digest_FromString (acc +:+ " " +:+ d)) rest'
  end.

Definition identity_ChainID (dgsts : list Digest) : Digest :=
  match dgsts with
  | [] => ""
  | d :: rest => ChainIDs_last d rest
  end.

(** [func (cr *cacheRecord) ref(triggerLastUsed bool) *immutableRef]. *)
Definition cacheRecord_ref (cr : nat) (triggerLastUsed : bool) : M State nat :=
  s <- get ;;
  let l := next_ref s in
  modify (set_next_ref (S l)) ;;
  modify (set_irefs <[l := mkIRef cr triggerLastUsed]>) ;;
  upd_rec cr (with_refs (λ rs, {[IRef l]} ∪ rs)) ;;
  ret l.

(** [func (cr *cacheRecord) mref(triggerLastUsed bool) *mutableRef]. *)
Definition cacheRecord_mref (cr : nat) (triggerLastUsed : bool) : M State nat :=
  s <- get ;;
  let l := next_ref s in
  modify (set_next_ref (S l)) ;;
  modify (set_mrefs <[l := mkMRef cr triggerLastUsed]>) ;;
  upd_rec cr (with_refs (λ rs, {[MRef l]} ∪ rs)) ;;
  ret l.

(** [func (cr *cacheRecord) parentRef(hidden bool) *immutableRef]. *)
Definition cacheRecord_parentRef (cr : nat) (hidden : bool) : M State (option nat) :=
  r <- get_rec cr ;;
  match parent r with
  | None => ret None
  | Some p =>
      ph <- get_iref p ;;
      l <- cacheRecord_ref (i_cacheRecord ph) hidden ;;
      ret (Some l)
  end.

(** [func (cr *cacheRecord) Parent() ImmutableRef]. *)
Definition cacheRecord_Parent (cr : nat) : M State (option nat) :=
  cacheRecord_parentRef cr true.

(** [func (cr *cacheRecord) ID() string]. *)
Definition cacheRecord_ID (r : cacheRecord) : string := md_ID (md r).

(** [func (sr *immutableRef) Clone() ImmutableRef]. *)
Definition Clone (sr : nat) : M State nat :=
  h <- get_iref sr ;;
  cacheRecord_ref (i_cacheRecord h) false.

(** [func (sr *immutableRef) Info() RefInfo]. *)
Definition Info_of (r : cacheRecord) : RefInfo :=
  mkRefInfo (getSnapshotID (md r)) (getChainID (md r)) (getBlobChainID (md r))
            (getDiffID (md r)) (getBlob (md r)) (negb (getBlobOnly (md r))).

Definition Info (sr : nat) : M State RefInfo :=
  h <- get_iref sr ;;
  r <- get_rec (i_cacheRecord h) ;;
  ret (Info_of r).

(** [func (cr *cacheRecord) finalize(ctx, commit bool) error]. The goroutine
    that removes the mutable is recorded in [spawned]. *)
Definition finalize (cr : nat) (commit : bool) : M State (option error) :=
  r <- get_rec cr ;;
  match equalMutable r with
  | None => ret None
  | Some mutable_ =>
      mh <- get_mref mutable_ ;;
      mr <- get_rec (m_cacheRecord mh) ;;
      if negb commit then
        if decide (getCachePolicy (md mr) = cachePolicyRetain) then
          upd_rec (m_cacheRecord mh) (with_md (queue (UCachePolicy cachePolicyRetain))) ;;
          md_Commit (m_cacheRecord mh)
        else ret None
      else
        e <- ext_call (Snapshotter_Commit (cacheRecord_ID r) (cacheRecord_ID mr)) ;;
        match e with
        | Some err => ret (Some (Wrapf err ("failed to commit " +:+ cacheRecord_ID mr)))
        | None =>
            upd_rec (m_cacheRecord mh) (with_dead true) ;;
            modify (set_spawned (λ ts, ts ++ [GoRemove (m_cacheRecord mh) true])) ;;
            now <- time_Now ;;
            e <- ext_call (LeaseManager_Create (cacheRecord_ID r) now) ;;
            match e with
            | Some err => ret (Some (Wrapf err "failed to create lease"))
            | None =>
                e <- ext_call (LeaseManager_AddResource (cacheRecord_ID r) (cacheRecord_ID r)
                                 ("snapshots/" +:+ snapshotterName)) ;;
                match e with
                | Some err =>
                    ret (Some (Wrapf err ("failed to add snapshot " +:+ cacheRecord_ID r
                                          +:+ " to lease")))
                | None =>
                    upd_rec cr (with_equalMutable None) ;;
                    upd_rec cr (with_md (queue UClearEqualMutable)) ;;
                    md_Commit cr
                end
            end
        end
  end.

(** [func (sr *immutableRef) Finalize(ctx, b bool) error]. *)
Definition Finalize (sr : nat) (b : bool) : M State (option error) :=
  h <- get_iref sr ;;
  finalize (i_cacheRecord h) b.

(** [func (sr *immutableRef) SetBlob(ctx, diffID, blob digest.Digest) error]. *)
Definition SetBlob (sr : nat) (diffID blob : Digest) : M State (option error) :=
  h <- get_iref sr ;;
  let cr := i_cacheRecord h in
  e <- ext_call (ContentStore_Info blob) ;;
  match e with
  | Some err => ret (Some err)
  | None =>
      r <- get_rec cr ;;
      if negb (String.eqb (getChainID (md r)) "") then ret None
      else
        e <- finalize cr true ;;
        match e with
        | Some err => ret (Some err)
        | None =>
            r <- get_rec cr ;;
            pres <-
              match parent r with
              | None => ret (inr ("", ""))
              | Some p =>
                  pInfo <- Info p ;;
                  if String.eqb (ChainID pInfo) "" || String.eqb (BlobChainID pInfo) ""
                  then ret (inl (Errorf
                         "failed to set blob for reference with non-addressable parent"))
                  else ret (inr (ChainID pInfo, BlobChainID pInfo))
              end ;;
            match pres with
            | inl err => ret (Some err)
            | inr (parentChainID, parentBlobChainID) =>
                e <- ext_call (LeaseManager_AddResource (cacheRecord_ID r) blob "content") ;;
                match e with
                | Some err => ret (Some err)
                | None =>
                    upd_rec cr (with_md (queue (UDiffID diffID))) ;;
                    upd_rec cr (with_md (queue (UBlob blob))) ;;
                    let chainID0 := diffID in
                    let blobChainID0 := identity_ChainID [blob; diffID] in
                    let chainID :=
                      if negb (String.eqb parentChainID "")
                      then identity_ChainID [parentChainID; chainID0] else chainID0 in
                    let blobChainID :=
                      if negb (String.eqb parentChainID "")
                      then identity_ChainID [parentBlobChainID; blobChainID0]
                      else blobChainID0 in
                    upd_rec cr (with_md (queue (UChainID chainID))) ;;
                    upd_rec cr (with_md (queue (UBlobChainID blobChainID))) ;;
                    md_Commit cr
                end
            end
        end
  end.

(** [r.updateLastUsed()] for a handle of the [refs] set of a record. (Every
    handle of a [refs] set is allocated; for a location that is not, the
    answer is [false].) *)
Definition ref_updateLastUsed (s : State) (r : ref) : bool :=
  match r with
  | IRef l => default false (i_triggerLastUsed <$> irefs s !! l)
  | MRef l => default false (m_triggerLastUsed <$> mrefs s !! l)
  end.

(** [func (sr *immutableRef) updateLastUsedNow() bool]. *)
Definition updateLastUsedNow (sr : nat) : M State bool :=
  h <- get_iref sr ;;
  if negb (i_triggerLastUsed h) then ret false
  else
    r <- get_rec (i_cacheRecord h) ;;
    s <- get ;;
    ret (bool_decide (set_Forall (λ x, ref_updateLastUsed s x = false) (refs r))).

(** [immutableRef.release], [mutableRef.release] and [cacheRecord.remove]
    call each other along the parent and equal-mutable pointers. *)
Fixpoint immutableRef_release (fuel : nat) (sr : nat) {struct fuel}
  : M State (option error) :=
  match fuel with
  | O => λ _, OutOfFuel
  | S fuel' =>
      h <- get_iref sr ;;
      let cr := i_cacheRecord h in
      upd_rec cr (with_refs (λ rs, rs ∖ {[IRef sr]})) ;;
      now_ <- updateLastUsedNow sr ;;
      (if now_ : bool then
         updateLastUsed cr ;;
         r <- get_rec cr ;;
         match equalMutable r with
         | Some m =>
             mh <- get_mref m ;;
             modify (set_mrefs <[m := mkMRef (m_cacheRecord mh) true]>)
         | None => ret tt
         end
       else ret tt) ;;
      r <- get_rec cr ;;
      if decide (size (refs r) = 0%nat) then
        e <- match viewMount r with
             | Some _ =>
                 e <- ext_call (Snapshotter_Remove (view r)) ;;
                 match e with
                 | Some err =>
                     ret (Some (Wrapf err ("failed to remove view " +:+ view r)))
                 | None => upd_rec cr (with_view "" None) ;; ret None
                 end
             | None => ret None
             end ;;
        match e with
        | Some err => ret (Some err)
        | None =>
            r <- get_rec cr ;;
            match equalMutable r with
            | Some m => mutableRef_release fuel' m ;; ret None
            | None => ret None
            end
        end
      else ret None
  end

with mutableRef_release (fuel : nat) (sr : nat) {struct fuel}
  : M State (option error) :=
  match fuel with
  | O => λ _, OutOfFuel
  | S fuel' =>
      h <- get_mref sr ;;
      let cr := m_cacheRecord h in
      upd_rec cr (with_refs (λ rs, rs ∖ {[MRef sr]})) ;;
      r <- get_rec cr ;;
      let touch : M State unit :=
        h <- get_mref sr ;;
        if m_triggerLastUsed h then
          updateLastUsed cr ;;
          modify (set_mrefs <[sr := mkMRef (m_cacheRecord h) false]>)
        else ret tt in
      if decide (getCachePolicy (md r) ≠ cachePolicyRetain) then
        e <- match equalImmutable r with
             | Some ei =>
                 eh <- get_iref ei ;;
                 er <- get_rec (i_cacheRecord eh) ;;
                 if decide (getCachePolicy (md er) = cachePolicyRetain) then
                   touch ;; ret (inl None)
                 else
                   e <- cacheRecord_remove fuel' (i_cacheRecord eh) false ;;
                   match e with
                   | Some err => ret (inl (Some err))
                   | None => ret (inr tt)
                   end
             | None => ret (inr tt)
             end ;;
        match e with
        | inl result => ret result
        | inr _ =>
            e <- match parent r with
                 | Some p => immutableRef_release fuel' p
                 | None => ret None
                 end ;;
            match e with
            | Some err => ret (Some err)
            | None => cacheRecord_remove fuel' cr true
            end
        end
      else
        touch ;; ret None
  end

with cacheRecord_remove (fuel : nat) (cr : nat) (removeSnapshot : bool) {struct fuel}
  : M State (option error) :=
  match fuel with
  | O => λ _, OutOfFuel
  | S fuel' =>
      r <- get_rec cr ;;
      modify (set_records (delete (cacheRecord_ID r))) ;;
      e <- match parent r with
           | Some p => immutableRef_release fuel' p
           | None => ret None
           end ;;
      match e with
      | Some err => ret (Some err)
      | None =>
          e <- (if removeSnapshot then
                  e <- ext_call (LeaseManager_Delete (cacheRecord_ID r)) ;;
                  match e with
                  | Some err =>
                      ret (Some (Wrapf err ("failed to remove " +:+ cacheRecord_ID r)))
                  | None => ret None
                  end
                else ret None) ;;
          match e with
          | Some err => ret (Some err)
          | None => ext_call (Metadata_Clear (cacheRecord_ID r))
          end
      end
  end.

(** [func (sr *immutableRef) Release(ctx) error] and
    [func (sr *mutableRef) Release(ctx) error]: [release] under the manager
    lock and the record lock. *)
Definition immutableRef_Release (fuel : nat) (sr : nat) : M State (option error) :=
  immutableRef_release fuel sr.
Definition mutableRef_Release (fuel : nat) (sr : nat) : M State (option error) :=
  mutableRef_release fuel sr.

End Methods.

(** [frame cr s s']: from [s] to [s'] the immutable handles are the same,
    the same records are allocated, with the same parents, and the metadata
    of every record other than [cr] is the same. *)
Definition frame (cr : nat) (s s' : State) : Prop :=
  irefs s' = irefs s ∧
  ∀ l, option_Forall2
         (λ r r', parent r' = parent r ∧ md_ID (md r') = md_ID (md r) ∧
                  (l ≠ cr → md r' = md r))
         (recs s !! l) (recs s' !! l).

(** The parent of the record [r], as [SetBlob] reads it: the handle and the
    record behind it. *)
Definition parent_record (s : State) (r : cacheRecord) (pr : cacheRecord) : Prop :=
  ∃ p ph, parent r = Some p ∧ irefs s !! p = Some ph ∧
          recs s !! i_cacheRecord ph = Some pr.

(** A record that has a ChainID has a parent (if it has one) with a ChainID
    and a BlobChainID: [SetBlob], the only writer of chain ids, sets them on
    no other record. *)
Definition chain_inv_at (s : State) (r : cacheRecord) : Prop :=
  md_chainID (md r) ≠ "" →
  ∀ pr, parent_record s r pr →
        md_chainID (md pr) ≠ "" ∧ md_blobChainID (md pr) ≠ "".

(** ** Well-formed stores

    [opt_holds P o]: [P] holds of the pointer [o] unless it is nil. *)
Definition opt_holds {A} (P : A → Prop) (o : option A) : Prop :=
  match o with Some a => P a | None => True end.

#[global] Instance opt_holds_dec {A} (P : A → Prop) `{∀ a, Decision (P a)} o :
  Decision (opt_holds P o).
Proof. destruct o; simpl; apply _. Defined.

(** The immutable handle [p] (the mutable handle [m]) is allocated, and the
    record behind it has a rank below [k]. *)
Definition iref_below (s : State) (rk : nat → nat) (k : nat) (p : nat) : Prop :=
  match irefs s !! p with
  | Some ph => (rk (i_cacheRecord ph) < k)%nat
  | None => False
  end.

Definition mref_below (s : State) (rk : nat → nat) (k : nat) (m : nat) : Prop :=
  match mrefs s !! m with
  | Some mh => (rk (m_cacheRecord mh) < k)%nat
  | None => False
  end.

(** The immutable handle [e] and its record are allocated, and the parent of
    that record has a rank below [k]. *)
Definition sibling_below (s : State) (rk : nat → nat) (k : nat) (e : nat) : Prop :=
  match irefs s !! e with
  | Some eh =>
      match recs s !! i_cacheRecord eh with
      | Some er => opt_holds (iref_below s rk k) (parent er)
      | None => False
      end
  | None => False
  end.

#[global] Instance iref_below_dec s rk k p : Decision (iref_below s rk k p).
Proof. unfold iref_below. destruct (irefs s !! p); apply _. Defined.

#[global] Instance mref_below_dec s rk k m : Decision (mref_below s rk k m).
Proof. unfold mref_below. destruct (mrefs s !! m); apply _. Defined.

#[global] Instance sibling_below_dec s rk k e : Decision (sibling_below s rk k e).
Proof.
  unfold sibling_below. destruct (irefs s !! e); [|apply _].
  destruct (recs s !! _); apply _.
Defined.

(** A store is ranked when every handle points to an allocated record and
    the pointers of the records go down in rank: a record is above its parent
    and above the mutable it was committed from (its equal-mutable), and a
    mutable is above the parent of its equal-immutable. Stores built by
    [New] and [Commit] are ranked by the order of creation. *)
Definition ranked (s : State) (rk : nat → nat) : Prop :=
  map_Forall (λ _ hd, is_Some (recs s !! i_cacheRecord hd)) (irefs s) ∧
  map_Forall (λ _ mh, is_Some (recs s !! m_cacheRecord mh)) (mrefs s) ∧
  map_Forall (λ l r,
                opt_holds (iref_below s rk (rk l)) (parent r) ∧
                opt_holds (mref_below s rk (rk l)) (equalMutable r) ∧
                opt_holds (sibling_below s rk (rk l)) (equalImmutable r))
             (recs s).

(** [shape s s']: the two stores have the same immutable handles, the same
    mutable handles up to [triggerLastUsed], and the same records up to
    everything but [parent], [equalMutable] and [equalImmutable]. *)
Definition pointers (r : cacheRecord) : option nat * option nat * option nat :=
  (parent r, equalMutable r, equalImmutable r).

Definition shape (s s' : State) : Prop :=
  irefs s' = irefs s ∧
  (∀ m, m_cacheRecord <$> mrefs s' !! m = m_cacheRecord <$> mrefs s !! m) ∧
  (∀ l, pointers <$> recs s' !! l = pointers <$> recs s !! l).

(** [keeps_below rk k s s']: same shape, and the records of rank [k] and
    above have the same metadata. *)
Definition keeps_below (rk : nat → nat) (k : nat) (s s' : State) : Prop :=
  shape s s' ∧
  ∀ l, (k ≤ rk l)%nat → md <$> recs s' !! l = md <$> recs s !! l.

(** [h.updateLastUsedNow()] after [h] was deleted from the [refs] of its
    record [r]: the handle triggers and no handle that is left does. *)
Definition last_trigger (s : State) (h : nat) (hd : immutableRef) (r : cacheRecord)
  : bool :=
  i_triggerLastUsed hd &&
  bool_decide (set_Forall (λ x, ref_updateLastUsed s x = false) (refs r ∖ {[IRef h]})).

(** What the release cascade does with enough fuel: each of the three
    methods returns, keeps the shape of the store, and changes the metadata
    only of records below a bound. *)
Definition release_ok (ext : list ExtCall → ExtCall → option error) (rk : nat → nat)
  (fuel : nat) : Prop :=
  ∀ h s hd r,
    ranked s rk → irefs s !! h = Some hd → recs s !! i_cacheRecord hd = Some r →
    (3 * rk (i_cacheRecord hd) + 3 ≤ fuel)%nat →
    ∃ e s' r',
      immutableRef_release ext fuel h s = Ok e s' ∧
      keeps_below rk (S (rk (i_cacheRecord hd))) s s' ∧
      recs s' !! i_cacheRecord hd = Some r' ∧
      md r' = (if last_trigger s h hd r then stamp (clock s) (md r) else md r).

Definition mrelease_ok (ext : list ExtCall → ExtCall → option error) (rk : nat → nat)
  (fuel : nat) : Prop :=
  ∀ m s mh,
    ranked s rk → mrefs s !! m = Some mh →
    (3 * rk (m_cacheRecord mh) + 2 ≤ fuel)%nat →
    ∃ e s',
      mutableRef_release ext fuel m s = Ok e s' ∧
      keeps_below rk (S (rk (m_cacheRecord mh))) s s'.

Definition remove_ok (ext : list ExtCall → ExtCall → option error) (rk : nat → nat)
  (fuel : nat) : Prop :=
  ∀ cr b k s r,
    ranked s rk → recs s !! cr = Some r →
    (∀ p ph, parent r = Some p → irefs s !! p = Some ph →
             (rk (i_cacheRecord ph) < k)%nat) →
    (3 * k + 1 ≤ fuel)%nat →
    ∃ e s',
      cacheRecord_remove ext fuel cr b s = Ok e s' ∧
      keeps_below rk k s s'.

(** Collaborators that never fail, and a store for the examples: the
    committed record [p] (location 0) with the handles 11 and 12 that its two
    children hold and the handle 13 of a client; the mutable [m1] (location 1,
    handle 20) on top of it; the immutable [i1] (location 2, handle 10)
    committed from [m1], with the retain policy. *)
Definition ext_ok : list ExtCall → ExtCall → option error := λ _ _, None.

Definition example_md (id : string) (policy : cachePolicy) : StorageItem :=
  mkMd id id 0 "" "" "" "" false policy None "" [].

Definition store_with (pmd : StorageItem) : State :=
  mkState
    {[ 0%nat := mkRecord false {[IRef 11; IRef 12; IRef 13]} None
                  pmd false "" None None None;
       1%nat := mkRecord true {[MRef 20]} (Some 11%nat)
                  (example_md "m1" cachePolicyDefault) false "" None None (Some 10%nat);
       2%nat := mkRecord false {[IRef 10]} (Some 12%nat)
                  (example_md "i1" cachePolicyRetain) false "" None (Some 20%nat) None ]}
    {[ 10%nat := mkIRef 2 true; 11%nat := mkIRef 0 false; 12%nat := mkIRef 0 false;
       13%nat := mkIRef 0 true ]}
    {[ 20%nat := mkMRef 1 true ]}
    30
    {[ "p" := 0%nat; "m1" := 1%nat; "i1" := 2%nat ]}
    [] 100 [].

Definition example_store : State := store_with (example_md "p" cachePolicyDefault).

(** The same store once [p] has its blob: [SetBlob("sha256:d0", "sha256:b0")]. *)
Definition addressed_md : StorageItem :=
  mkMd "p" "p" 0 "sha256:d0" "H(sha256:b0 sha256:d0)" "sha256:d0" "sha256:b0"
       false cachePolicyDefault None "" [].

Definition addressed_store : State := store_with addressed_md.

(** A stand-in for the hash in the examples. *)
Definition sym_hash (x : string) : Digest := "H(" +:+ x +:+ ")".

(** ** More about the records *)
Section More.
Local Open Scope go_scope.

(** [func (cr *cacheRecord) isDead() bool]. *)
Definition isDead (cr : nat) : M State bool :=
  r <- get_rec cr ;;
  if dead r then ret true
  else
    ei <- match equalImmutable r with
          | Some e =>
              eh <- get_iref e ;; er <- get_rec (i_cacheRecord eh) ;; ret (dead er)
          | None => ret false
          end ;;
    if ei : bool then ret true
    else
      match equalMutable r with
      | Some m =>
          mh <- get_mref m ;; mr <- get_rec (m_cacheRecord mh) ;; ret (dead mr)
      | None => ret false
      end.
End More.

(** [shrinks s s']: from [s] to [s'] no entry was added to [cm.records]. *)
Definition shrinks (s s' : State) : Prop :=
  ∀ k, records s !! k = None → records s' !! k = None.

(** A computation that adds no entry to [cm.records]. *)
Definition shrink_run {A} (c : M State A) : Prop :=
  ∀ s a s', c s = Ok a s' → shrinks s s'.

(** For the examples: a lease manager that cannot create a lease; a store
    with the committed record [p] (location 0, handle 11) and the mutable
    [m1] (location 1, handle 20) on top of it, not committed yet. *)
Definition lease_fails : list ExtCall → ExtCall → option error :=
  λ _ c, match c with
         | LeaseManager_Create _ _ => Some (Errorf "lease: unavailable")
         | _ => None
         end.

Definition active_store : State :=
  mkState
    {[ 0%nat := mkRecord false {[IRef 11]} None
                  (example_md "p" cachePolicyDefault) false "" None None None;
       1%nat := mkRecord true {[MRef 20]} (Some 11%nat)
                  (example_md "m1" cachePolicyDefault) false "" None None None ]}
    {[ 11%nat := mkIRef 0 false ]}
    {[ 20%nat := mkMRef 1 true ]}
    30
    {[ "p" := 0%nat; "m1" := 1%nat ]}
    [] 100 [].

End Cache.

(* ===================================================================== *)
(** * solver/solver.go and solver/jobs.go *)
(* ===================================================================== *)
Module Solver.

Definition Digest := string.
Definition Time := Z.

(** The messages of the operation language (package solver/pb, generated
    code that is not part of the sources), as solver.go uses them. The nested
    message pointers are taken to be non-nil. *)
Record Input := mkInput { in_Digest : string; in_Index : Z }.
Record SourceOp := mkSourceOp { Identifier : string; Attrs : gmap string string }.
Record Meta := mkMeta { Args : list string; Env : list string; Cwd : string }.
Record Mount := mkMount { m_Input : Z; m_Dest : string; m_Output : Z; m_Readonly : bool }.
Record ExecOp := mkExecOp { e_Meta : Meta; Mounts : list Mount }.

(** The [oneof] of [pb.Op]: a source, an exec, or nothing. *)
Inductive isOp_Op := Op_Source (s : SourceOp) | Op_Exec (e : ExecOp) | Op_nil.
Record Op := mkOp { Inputs : list Input; Op_ : isOp_Op }.

(** [pb.SkipOutput]. *)
Definition SkipOutput : Z := -1.

(** [cache.ImmutableRef] and [cache.MutableRef] values are handles of the
    cache manager, which is a collaborator here; a nil interface is [None]. *)
Definition ImmutableRef := option nat.
Definition MutableRef := option nat.

(** [cache.Mountable]: what a mount of an exec presents. *)
Inductive Mountable := MountRef (r : ImmutableRef) | MountActive (a : nat).

(** [client.Vertex]. *)
Record Vertex := mkVertex {
  v_Digest : Digest;
  v_Name : string;
  Started : option Time;
  Completed : option Time;
}.

(** [type opVertex struct]; [inputs] are pointers into the vertex store. *)
Record opVertex := mkOpVertex {
  op : Op;
  inputs : list nat;
  refs : list ImmutableRef;
  err : option error;
  dgst : Digest;
  vtx : Vertex;
}.

(** The calls into the collaborators, each with what it returned, and the
    progress events published. *)
Inductive Event :=
| EvPull (identifier : string) (r : error + ImmutableRef)
| EvNew (parent : ImmutableRef) (r : error + nat)
| EvExec (meta : Meta) (mounts : gmap string Mountable) (r : option error)
| EvReleaseAndCommit (o : nat) (r : error + ImmutableRef)
| EvFreeze (o : nat) (r : error + ImmutableRef)
| EvRelease (ref : nat) (r : option error)
| EvWrite (id : string) (v : Vertex).

(** [type Opt struct] with the behaviour of the collaborators: each answer
    may depend on the calls made so far. [FromString] is [source.FromString],
    [Pull] is [SourceManager.Pull], [New] is [CacheManager.New], [Exec] is
    [Worker.Exec]; [ReleaseAndCommit], [Freeze] and [ID] are the methods of a
    mutable ref and [Release] the one of an immutable ref. *)
Record Opt := mkOpt {
  FromString : string → error + string;
  Pull : list Event → string → error + ImmutableRef;
  New : list Event → ImmutableRef → error + nat;
  Exec : list Event → Meta → gmap string Mountable → option error;
  ReleaseAndCommit : list Event → nat → error + ImmutableRef;
  Freeze : list Event → nat → error + ImmutableRef;
  Release : list Event → nat → option error;
  ID : nat → string;
}.

(** [type job struct] and what a solve works on: the vertex store, the
    events so far, the clock and [jobList.refs]. *)
Record job := mkJob { j_g : nat }.

Record State := mkState {
  heap : gmap nat opVertex;
  events : list Event;
  clock : Time;
  jobs : gmap string job;
}.

Definition set_heap (f : gmap nat opVertex → gmap nat opVertex) (s : State) : State :=
  mkState (f (heap s)) (events s) (clock s) (jobs s).
Definition set_events (f : list Event → list Event) (s : State) : State :=
  mkState (heap s) (f (events s)) (clock s) (jobs s).
Definition set_clock (t : Time) (s : State) : State :=
  mkState (heap s) (events s) t (jobs s).
Definition set_jobs (f : gmap string job → gmap string job) (s : State) : State :=
  mkState (heap s) (events s) (clock s) (f (jobs s)).

Definition with_refs (rs : list ImmutableRef) (v : opVertex) : opVertex :=
  mkOpVertex (op v) (inputs v) rs (err v) (dgst v) (vtx v).
Definition with_err (e : option error) (v : opVertex) : opVertex :=
  mkOpVertex (op v) (inputs v) (refs v) e (dgst v) (vtx v).
Definition with_vtx (x : Vertex) (v : opVertex) : opVertex :=
  mkOpVertex (op v) (inputs v) (refs v) (err v) (dgst v) x.

(** Go indexing [l[i]] with an [int] index: out of range panics. *)
Definition index {A} (l : list A) (i : Z) : option A :=
  if (i <? 0)%Z then None else l !! Z.to_nat i.

(** [fmt]'s [%v] of a [[]string]. *)
Definition fmt_v (l : list string) : string :=
  "[" +:+ String.concat " " l +:+ "]".

Section Methods.
Context (opt : Opt).
Local Open Scope go_scope.

Definition get_vertex (g : nat) : M State opVertex :=
  s <- get ;; deref_or_panic (heap s !! g).
Definition upd_vertex (g : nat) (f : opVertex → opVertex) : M State unit :=
  v <- get_vertex g ;; modify (set_heap <[g := f v]>).
Definition emit (e : Event) : M State unit :=
  modify (set_events (λ es, es ++ [e])).
Definition history : M State (list Event) :=
  s <- get ;; ret (events s).
Definition time_Now : M State Time :=
  λ s, Ok (clock s) (set_clock (clock s + 1) s).

(** [func (g *opVertex) getInputRefForIndex(i int) cache.ImmutableRef]. *)
Fixpoint find_input (hp : gmap nat opVertex) (vs : list nat) (input : Input)
  : outcome ImmutableRef :=
  match vs with
  | [] => Returned None
  | l :: vs' =>
      match hp !! l with
      | None => Panicked
      | Some v =>
          if String.eqb (dgst v) (in_Digest input) then
            match index (refs v) (in_Index input) with
            | Some r => Returned r
            | None => Panicked
            end
          else find_input hp vs' input
      end
  end.

Definition getInputRefForIndex (hp : gmap nat opVertex) (g : nat) (i : Z)
  : outcome ImmutableRef :=
  match hp !! g with
  | None => Panicked
  | Some v =>
      match index (Inputs (op v)) i with
      | None => Panicked
      | Some input => find_input hp (inputs v) input
      end
  end.

(** A method that only reads the vertex store. *)
Definition read {A} (f : gmap nat opVertex → outcome A) : M State A :=
  s <- get ;;
  match f (heap s) with
  | Returned a => ret a
  | Panicked => panic
  end.

(** [func (g *opVertex) notifyStarted(ctx)]. *)
Definition notifyStarted (g : nat) : M State unit :=
  now <- time_Now ;;
  upd_vertex g (λ v, with_vtx (mkVertex (v_Digest (vtx v)) (v_Name (vtx v))
                                 (Some now) (Completed (vtx v))) v) ;;
  v <- get_vertex g ;;
  emit (EvWrite (dgst v) (vtx v)).

(** [func (g *opVertex) notifyCompleted(ctx)]. *)
Definition notifyCompleted (g : nat) : M State unit :=
  now <- time_Now ;;
  upd_vertex g (λ v, with_vtx (mkVertex (v_Digest (vtx v)) (v_Name (vtx v))
                                 (Started (vtx v)) (Some now)) v) ;;
  v <- get_vertex g ;;
  emit (EvWrite (dgst v) (vtx v)).

(** [func (g *opVertex) runSourceOp(ctx, sm, op) error]. *)
Definition runSourceOp (g : nat) (o : SourceOp) : M State (option error) :=
  match FromString opt (Identifier o) with
  | inl e => ret (Some e)
  | inr id =>
      h <- history ;;
      let r := Pull opt h id in
      emit (EvPull id r) ;;
      match r with
      | inl e => ret (Some e)
      | inr ref =>
          upd_vertex g (with_refs [ref]) ;;
          ret None
      end
  end.

(** The loop over [op.Exec.Mounts] of [runExecOp]: the result is the error
    of the early return, or the [outputs] and the [mounts] built. *)
Fixpoint exec_mounts (g : nat) (ms : list Mount) (outputs : list MutableRef)
  (mounts : gmap string Mountable)
  : M State (error * list MutableRef + list MutableRef * gmap string Mountable) :=
  match ms with
  | [] => ret (inr (outputs, mounts))
  | m :: ms' =>
      ref <- read (λ hp, getInputRefForIndex hp g (m_Input m)) ;;
      if decide (m_Output m ≠ SkipOutput) then
        h <- history ;;
        let r := New opt h ref in
        emit (EvNew ref r) ;;
        match r with
        | inl e => ret (inl (e, outputs))
        | inr active =>
            exec_mounts g ms' (outputs ++ [Some active])
                        (<[m_Dest m := MountActive active]> mounts)
        end
      else
        exec_mounts g ms' outputs (<[m_Dest m := MountRef ref]> mounts)
  end.

(** The loop [for i, o := range outputs] of [runExecOp] that commits; [i] is
    the index of the head of [todo] in [outputs]. *)
Fixpoint exec_commit (g : nat) (i : nat) (todo : list MutableRef)
  (outputs : list MutableRef) : M State (option error * list MutableRef) :=
  match todo with
  | [] => ret (None, outputs)
  | o :: todo' =>
      a <- deref_or_panic o ;;
      h <- history ;;
      let r := ReleaseAndCommit opt h a in
      emit (EvReleaseAndCommit a r) ;;
      match r with
      | inl e => ret (Some (Wrapf e ("error committing " +:+ ID opt a)), outputs)
      | inr ref =>
          upd_vertex g (λ v, with_refs (refs v ++ [ref]) v) ;;
          exec_commit g (S i) todo' (<[i := None]> outputs)
      end
  end.

(** The deferred function of [runExecOp]: the outputs that are left are
    frozen and released. *)
Fixpoint exec_cleanup (outputs : list MutableRef) : M State unit :=
  match outputs with
  | [] => ret tt
  | None :: rest => exec_cleanup rest
  | Some o :: rest =>
      h <- history ;;
      let r := Freeze opt h o in
      emit (EvFreeze o r) ;;
      match r with
      | inr (Some s) =>
          h <- history ;;
          emit (EvRelease s (Release opt h s)) ;;
          exec_cleanup rest
      | inr None => panic
      | inl _ => exec_cleanup rest
      end
  end.

(** [func (g *opVertex) runExecOp(ctx, cm, w, op) error]. The two stream
    writers only wrap the progress writer of the context for the worker. *)
Definition runExecOp (g : nat) (o : ExecOp) : M State (option error) :=
  r <- exec_mounts g (Mounts o) [] ∅ ;;
  match r with
  | inl (e, outputs) => exec_cleanup outputs ;; ret (Some e)
  | inr (outputs, mounts) =>
      let meta := mkMeta (Args (e_Meta o)) (Env (e_Meta o)) (Cwd (e_Meta o)) in
      h <- history ;;
      let r := Exec opt h meta mounts in
      emit (EvExec meta mounts r) ;;
      match r with
      | Some e =>
          exec_cleanup outputs ;;
          ret (Some (Wrapf e ("worker failed running " +:+ fmt_v (Args meta))))
      | None =>
          upd_vertex g (with_refs []) ;;
          c <- exec_commit g 0 outputs outputs ;;
          exec_cleanup (snd c) ;;
          ret (fst c)
      end
  end.

(** The error group of [solve]: every input is solved; the result is the
    first error. The goroutines are run one after the other, in the order of
    [inputs]. *)
Fixpoint solve_inputs (solve : nat → M State (option error)) (ins : list nat)
  : M State (option error) :=
  match ins with
  | [] => ret None
  | i :: ins' =>
      e <- solve i ;;
      e' <- solve_inputs solve ins' ;;
      ret (match e with Some _ => e | None => e' end)
  end.

(** [func (g *opVertex) solve(ctx, opt) (retErr error)]. The mutex is held
    for the whole call; the progress writer [pw] that the call derives from the
    context and closes on return is only used through [notifyStarted] and
    [notifyCompleted]. The deferred functions run in the order
    [notifyCompleted], then the one that records [retErr]. *)
Fixpoint solve (fuel : nat) (g : nat) {struct fuel} : M State (option error) :=
  match fuel with
  | O => λ _, OutOfFuel
  | S fuel' =>
      v <- get_vertex g ;;
      match err v with
      | Some e => ret (Some e)
      | None =>
          if decide (0 < length (refs v))%nat then ret None
          else
            retErr <-
              (e <- (if decide (0 < length (inputs v))%nat
                     then solve_inputs (solve fuel') (inputs v)
                     else ret None) ;;
               match e with
               | Some e => ret (Some e)
               | None =>
                   notifyStarted g ;;
                   r <- match Op_ (op v) with
                        | Op_Source o => runSourceOp g o
                        | Op_Exec o => runExecOp g o
                        | Op_nil => ret (Some (Errorf "invalid op type <nil>"))
                        end ;;
                   notifyCompleted g ;;
                   ret r
               end) ;;
            match retErr with
            | Some e => upd_vertex g (with_err (Some e)) ;; ret (Some e)
            | None => ret None
            end
      end
  end.

(** [func (g *opVertex) release(ctx) (retErr error)]. *)
Fixpoint release_refs (rs : list ImmutableRef) (retErr : option error)
  : M State (option error) :=
  match rs with
  | [] => ret retErr
  | None :: rs' => release_refs rs' retErr
  | Some r :: rs' =>
      h <- history ;;
      let e := Release opt h r in
      emit (EvRelease r e) ;;
      release_refs rs' (match e with Some _ => e | None => retErr end)
  end.

Fixpoint release_inputs (release : nat → M State (option error)) (ins : list nat)
  (retErr : option error) : M State (option error) :=
  match ins with
  | [] => ret retErr
  | i :: ins' =>
      e <- release i ;;
      release_inputs release ins' (match e with Some _ => e | None => retErr end)
  end.

Fixpoint release (fuel : nat) (g : nat) {struct fuel} : M State (option error) :=
  match fuel with
  | O => λ _, OutOfFuel
  | S fuel' =>
      v <- get_vertex g ;;
      retErr <- release_inputs (release fuel') (inputs v) None ;;
      v <- get_vertex g ;;
      release_refs (refs v) retErr
  end.

(** [func (jl *jobList) new(ctx, id, g, pr) ( *job, error)]. The entry is
    deleted by a goroutine once the context is cancelled. *)
Definition jobs_new (id : string) (g : nat) : M State (option error) :=
  s <- get ;;
  match jobs s !! id with
  | Some _ => ret (Some (Errorf ("id " +:+ id +:+ " exists")))
  | None => modify (set_jobs <[id := mkJob g]>) ;; ret None
  end.

(** [func (s *Solver) Solve(ctx, id string, g *opVertex) error]; the second
    component of the result is the vertex that was handed to [solve]. *)
Definition Solve (fuel : nat) (id : string) (g : nat) : M State (option error * nat) :=
  v <- get_vertex g ;;
  g <- match inputs v with
       | i :: _ => ret i
       | [] => ret g
       end ;;
  e <- jobs_new id g ;;
  match e with
  | Some e => ret (Some e, g)
  | None =>
      e <- solve fuel g ;;
      match e with
      | Some e => ret (Some e, g)
      | None => release fuel g ;; ret (None, g)
      end
  end.

(** [func walk(op *opVertex) chan *opVertex]: the state of [send] is the
    [cache] set and what has been sent on the channel. *)
Record Walk := mkWalk { cache : gset Digest; ch : list nat }.

Fixpoint send_inputs (send : nat → M Walk unit) (ins : list nat) : M Walk unit :=
  match ins with
  | [] => ret tt
  | v :: ins' => send v ;; send_inputs send ins'
  end.

Fixpoint send (fuel : nat) (hp : gmap nat opVertex) (o : nat) {struct fuel}
  : M Walk unit :=
  match fuel with
  | O => λ _, OutOfFuel
  | S fuel' =>
      v <- deref_or_panic (hp !! o) ;;
      send_inputs (send fuel' hp) (inputs v) ;;
      w <- get ;;
      if decide (dgst v ∈ cache w) then ret tt
      else modify (λ w, mkWalk ({[dgst v]} ∪ cache w) (ch w ++ [o]))
  end.

Definition walk (fuel : nat) (hp : gmap nat opVertex) (o : nat) : res Walk unit :=
  send fuel hp o (mkWalk ∅ []).

(** [client.SolveStatus]. *)
Record SolveStatus := mkSolveStatus { Vertexes : list Vertex }.

(** The first loop of [func (j *job) pipe(ctx, ch) error]: one status per
    vertex that [walk] sends, for a subscriber that keeps receiving. A status
    holds the pointer [&v.vtx]; it is given here with the value that the
    pointee has in [hp]. *)
Definition pipe_walk (fuel : nat) (hp : gmap nat opVertex) (j : job)
  : res Walk (list SolveStatus) :=
  match walk fuel hp (j_g j) with
  | Ok _ w =>
      Ok (omap (λ l, (λ v, mkSolveStatus [vtx v]) <$> hp !! l) (ch w)) w
  | Panic => Panic
  | OutOfFuel => OutOfFuel
  end.

End Methods.

(** Collaborators for the examples: every call succeeds; a pull and a [New]
    hand out a handle numbered by the calls made so far, a commit of the
    mutable [a] gives the immutable [100 + a], a freeze gives [200 + a]. *)
Definition example_opt : Opt :=
  mkOpt (λ s, inr s)
        (λ h _, inr (Some (length h)))
        (λ h _, inr (length h))
        (λ _ _ _, None)
        (λ _ a, inr (Some (100 + a)%nat))
        (λ _ a, inr (Some (200 + a)%nat))
        (λ _ _, None)
        (λ _, "m").

(** The same, but only the first commit succeeds. *)
Definition is_commit (e : Event) : bool :=
  match e with EvReleaseAndCommit _ _ => true | _ => false end.

Definition failing_commit_opt : Opt :=
  mkOpt (FromString example_opt) (Pull example_opt) (New example_opt) (Exec example_opt)
        (λ h a, if existsb is_commit h then inl (Errorf "boom")
                else inr (Some (100 + a)%nat))
        (Freeze example_opt) (Release example_opt) (ID example_opt).

(** A source vertex, and exec vertices on top of it. *)
Definition source_vertex : opVertex :=
  mkOpVertex (mkOp [] (Op_Source (mkSourceOp "docker-image://x" ∅)))
             [] [] None "sha256:a" (mkVertex "sha256:a" "docker-image://x" None None).

Definition exec_vertex (mounts : list Mount) : opVertex :=
  mkOpVertex (mkOp [mkInput "sha256:a" 0]
                   (Op_Exec (mkExecOp (mkMeta ["make"] [] "/") mounts)))
             [0%nat] [] None "sha256:b" (mkVertex "sha256:b" "make" None None).

Definition example_state (mounts : list Mount) : State :=
  mkState {[ 0%nat := source_vertex; 1%nat := exec_vertex mounts ]} [] 0 ∅.

(** One mount with an output; two mounts with outputs; two mounts whose
    declared output indices decrease along the mount list. *)
Definition one_output : list Mount := [mkMount 0 "/" 0 false].
Definition two_outputs : list Mount :=
  [mkMount 0 "/" 0 false; mkMount 0 "/out" 1 false; mkMount 0 "/ro" SkipOutput true].
Definition swapped_outputs : list Mount :=
  [mkMount 0 "/" 1 false; mkMount 0 "/out" 0 false].

(** The mounts of an exec that declare an output. *)
Definition output_mounts (o : ExecOp) : list Mount :=
  filter (λ m, m_Output m ≠ SkipOutput) (Mounts o).

(** The events of a successful [runExecOp]: a [New] for each pair of [news]
    (the parent handed to [New] and the mutable ref obtained), the worker
    call, and a commit for each mutable ref with its result from [commits]. *)
Definition exec_events (news : list (ImmutableRef * nat)) (meta : Meta)
  (mounts : gmap string Mountable) (commits : list ImmutableRef) : list Event :=
  ((λ pa, EvNew pa.1 (inr pa.2)) <$> news)
  ++ [EvExec meta mounts None]
  ++ zip_with (λ pa r, EvReleaseAndCommit pa.2 (inr r)) news commits.

Definition is_exec (e : Event) : bool :=
  match e with EvExec _ _ _ => true | _ => false end.

(** Projections of the events: the mounts handed to the worker calls that
    succeeded, the mutable refs that [New] handed out, the commits. *)
Definition worker_mounts (es : list Event) : list (gmap string Mountable) :=
  omap (λ e, match e with EvExec _ m None => Some m | _ => None end) es.

Definition new_actives (es : list Event) : list nat :=
  omap (λ e, match e with EvNew _ (inr a) => Some a | _ => None end) es.

Definition commit_calls (es : list Event) : list (nat * (error + ImmutableRef)) :=
  omap (λ e, match e with EvReleaseAndCommit a r => Some (a, r) | _ => None end) es.

(** The source vertex after its pull returned the handle 1, in a store with
    the exec vertex on top of it; and a vertex that failed. *)
Definition solved_source : opVertex := with_refs [Some 1%nat] source_vertex.
Definition failed_source : opVertex := with_err (Some (Errorf "boom")) source_vertex.

Definition solved_state : State :=
  mkState {[ 0%nat := solved_source; 1%nat := exec_vertex two_outputs;
             2%nat := failed_source ]} [] 0 ∅.

(** The store holds a DAG: every input of a vertex is allocated and has a
    smaller rank. *)
Definition dag (hp : gmap nat opVertex) (rk : nat → nat) : Prop :=
  map_Forall (λ g v, Forall (λ u, is_Some (hp !! u) ∧ (rk u < rk g)%nat) (inputs v)) hp.

(** [u] is [g] or can be reached from [g] along [inputs]. *)
Inductive reachable (hp : gmap nat opVertex) : nat → nat → Prop :=
| reach_here g : is_Some (hp !! g) → reachable hp g g
| reach_input g v i u :
    hp !! g = Some v → i ∈ inputs v → reachable hp i u → reachable hp g u.

(** The digests of the vertices of a list, in order. *)
Definition dgsts (hp : gmap nat opVertex) (l : list nat) : list Digest :=
  omap (λ u, dgst <$> hp !! u) l.

(** Post-order by digest: the digests of the inputs of the vertex at
    position [i] are among those of the vertices before position [i]. *)
Definition postorder (hp : gmap nat opVertex) (l : list nat) : Prop :=
  ∀ i u vu x vx,
    l !! i = Some u → hp !! u = Some vu → x ∈ inputs vu → hp !! x = Some vx →
    dgst vx ∈ dgsts hp (take i l).

(** What holds of the state of [send] all along a walk. *)
Definition walk_inv (hp : gmap nat opVertex) (w : Walk) : Prop :=
  (∀ d, d ∈ cache w ↔ d ∈ dgsts hp (ch w)) ∧
  NoDup (dgsts hp (ch w)) ∧
  (∀ u, u ∈ ch w → is_Some (hp !! u)) ∧
  postorder hp (ch w).

(** What one [send] from [g] adds to the walk: only vertices reachable from
    [g], and afterwards every vertex reachable from [g] has been seen. *)
Definition send_post (hp : gmap nat opVertex) (g : nat) (w w' : Walk) : Prop :=
  walk_inv hp w' ∧
  (∃ ext, ch w' = ch w ++ ext ∧ ∀ u, u ∈ ext → reachable hp g u) ∧
  (∀ u vu, reachable hp g u → hp !! u = Some vu → dgst vu ∈ cache w').

(** A diamond: 3 on top of 1 and 2, both on top of the source 0. *)
Definition diamond : gmap nat opVertex :=
  {[ 0%nat := source_vertex;
     1%nat := mkOpVertex (mkOp [mkInput "sha256:a" 0] Op_nil) [0%nat] [] None "sha256:b"
                         (mkVertex "sha256:b" "b" None None);
     2%nat := mkOpVertex (mkOp [mkInput "sha256:a" 0] Op_nil) [0%nat] [] None "sha256:c"
                         (mkVertex "sha256:c" "c" None None);
     3%nat := mkOpVertex (mkOp [mkInput "sha256:b" 0; mkInput "sha256:c" 0] Op_nil)
                         [1%nat; 2%nat] [] None "sha256:d"
                         (mkVertex "sha256:d" "d" None None) ]}.

(** A vertex is terminal once [err] is set or [refs] is non-empty. *)
Definition terminal (v : opVertex) : Prop := is_Some (err v) ∨ refs v ≠ [].

(** [frozen s s']: every vertex that is terminal in [s] is in [s'] with the
    same [err] and the same [refs]. *)
Definition frozen (s s' : State) : Prop :=
  ∀ g v, heap s !! g = Some v → terminal v →
         ∃ v', heap s' !! g = Some v' ∧ err v' = err v ∧ refs v' = refs v.

(** [only_at g s s']: the two stores differ at most at [g]. *)
Definition only_at (g : nat) (s s' : State) : Prop :=
  ∀ l, l ≠ g → heap s' !! l = heap s !! l.

(** ** More about [solve], [release] and [Solve]

    The recorded error of the first input that has one. *)
Fixpoint first_err (hp : gmap nat opVertex) (ins : list nat) : option error :=
  match ins with
  | [] => None
  | i :: ins' =>
      match hp !! i with
      | Some v => match err v with Some e => Some e | None => first_err hp ins' end
      | None => first_err hp ins'
      end
  end.

Definition is_write (e : Event) : bool :=
  match e with EvWrite _ _ => true | _ => false end.

Definition started (t : Time) (x : Vertex) : Vertex :=
  mkVertex (v_Digest x) (v_Name x) (Some t) (Completed x).
Definition completed (t : Time) (x : Vertex) : Vertex :=
  mkVertex (v_Digest x) (v_Name x) (Started x) (Some t).

(** [quiet s s']: from [s] to [s'] the clock has not been read and no
    progress event has been written; the events added are calls to the
    collaborators. *)
Definition quiet (s s' : State) : Prop :=
  clock s' = clock s ∧ jobs s' = jobs s ∧
  ∃ evs, events s' = events s ++ evs ∧ Forall (λ e, is_write e = false) evs.

(** The inputs of [v] have been solved, without error. *)
Definition solved_inputs (s : State) (v : opVertex) : Prop :=
  Forall (λ i, ∃ vi, heap s !! i = Some vi ∧ err vi = None ∧ refs vi ≠ []) (inputs v).

Definition is_release (e : Event) : bool :=
  match e with EvRelease _ _ => true | _ => false end.

(** The error of the last [Release] that failed, [retErr] when none did. *)
Definition last_error (retErr : option error) (es : list Event) : option error :=
  foldl (λ acc e, match e with EvRelease _ (Some x) => Some x | _ => acc end) retErr es.

Definition released (r : nat) (es : list Event) : Prop := ∃ x, EvRelease r x ∈ es.

(** What [release] does from a state over the store [hp]. *)
Definition release_spec (hp : gmap nat opVertex) (f : nat → M State (option error))
    (g : nat) : Prop :=
  ∀ s, heap s = hp →
    ∃ evs,
      f g s = Ok (last_error None evs) (set_events (λ es, es ++ evs) s) ∧
      Forall (λ e, is_release e = true) evs ∧
      ∀ r, released r evs ↔
           ∃ u vu, reachable hp g u ∧ hp !! u = Some vu ∧ Some r ∈ refs vu.

(** For the examples: a source manager that rejects every identifier; an
    exec on top of a source that has failed; an exec whose only mount skips
    the output, on top of a solved source; a job list that holds "build". *)
Definition bad_identifier_opt : Opt :=
  mkOpt (λ _, inl (Errorf "invalid identifier")) (Pull example_opt) (New example_opt)
        (Exec example_opt) (ReleaseAndCommit example_opt) (Freeze example_opt)
        (Release example_opt) (ID example_opt).


Definition readonly_exec_state : State :=
  mkState {[ 0%nat := solved_source;
             1%nat := exec_vertex [mkMount 0 "/" SkipOutput true] ]} [] 0 ∅.

Definition busy_state : State :=
  mkState (heap (example_state one_output)) [] 0 {[ "build" := mkJob 0 ]}.

End Solver.

(* ===================================================================== *)
(** * solver/jobs.go, second part: the loader *)
(* ===================================================================== *)
Module Loader.

Definition Digest := string.

Section Load.

(** [pb.Op] of this version of the solver: all that the loader reads of an
    op is the list [Inputs] of the digests of its inputs. [Unmarshal] is the
    generated protobuf decoder and [FromBytes] is [digest.FromBytes]. *)
Context {Op : Type} (Inputs : Op → list string).
Context (Unmarshal : string → error + Op) (FromBytes : string → Digest).

(** [type opVertex struct] as [Load] builds it: [refs] and [err] are nil;
    [op] is a [*pb.Op], nil when [None]. *)
Record opVertex := mkVertex { op : option Op; inputs : list nat }.

(** The vertices allocated so far and the [cache] map of [Load]. *)
Record State := mkState {
  heap : gmap nat opVertex;
  next : nat;
  cache : gmap Digest nat;
}.

Definition empty : State := mkState ∅ 0 ∅.

Local Open Scope go_scope.

(** [&opVertex{op: op}]. *)
Definition alloc (o : option Op) : M State nat :=
  λ st, Ok (next st) (mkState (<[next st := mkVertex o []]> (heap st)) (S (next st))
                              (cache st)).

(** [vtx.inputs = append(vtx.inputs, sub)]. *)
Definition append_input (vtx sub : nat) : M State unit :=
  st <- get ;;
  v <- deref_or_panic (heap st !! vtx) ;;
  modify (λ st, mkState (<[vtx := mkVertex (op v) (inputs v ++ [sub])]> (heap st))
                        (next st) (cache st)).

(** The loop [for _, in := range op.Inputs] of [loadReqursive]. *)
Fixpoint load_inputs (load : Digest → option Op → M State (error + nat))
    (vtx : nat) (ins : list Digest) (inputs : gmap Digest Op)
  : M State (option error) :=
  match ins with
  | [] => ret None
  | i :: ins' =>
      match inputs !! i with
      | None => ret (Some (Errorf ("failed to find " +:+ i)))
      | Some o =>
          r <- load i (Some o) ;;
          match r with
          | inl e => ret (Some e)
          | inr sub => append_input vtx sub ;; load_inputs load vtx ins' inputs
          end
      end
  end.

(** [func loadReqursive(dgst, op, inputs, cache) ( *opVertex, error)]. *)
Fixpoint loadReqursive (fuel : nat) (inputs : gmap Digest Op) (dgst : Digest)
    (o : option Op) {struct fuel} : M State (error + nat) :=
  match fuel with
  | O => λ _, OutOfFuel
  | S fuel' =>
      st <- get ;;
      match cache st !! dgst with
      | Some v => ret (inr v)
      | None =>
          vtx <- alloc o ;;
          o' <- deref_or_panic o ;;
          r <- load_inputs (loadReqursive fuel' inputs) vtx (Inputs o') inputs ;;
          match r with
          | Some e => ret (inl e)
          | None =>
              modify (λ st, mkState (heap st) (next st) (<[dgst := vtx]> (cache st))) ;;
              ret (inr vtx)
          end
      end
  end.

(** The first loop of [Load]: the map [m] of the ops but the last, the last
    op and its digest. *)
Fixpoint parse (ops : list string) (m : gmap Digest Op) (lastOp : option Op)
    (dgst : Digest) : error + (gmap Digest Op * option Op * Digest) :=
  match ops with
  | [] => inr (m, lastOp, dgst)
  | dt :: rest =>
      match Unmarshal dt with
      | inl e => inl (Wrapf e "failed to parse op")
      | inr o =>
          let d := FromBytes dt in
          parse rest (match rest with [] => m | _ => <[d := o]> m end) (Some o) d
      end
  end.

(** [func Load(ops [][]byte) ( *opVertex, error)]. *)
Definition Load (fuel : nat) (ops : list string) : M State (error + nat) :=
  match parse ops ∅ None "" with
  | inl e => ret (inl e)
  | inr (m, lastOp, dgst) => loadReqursive fuel m dgst lastOp
  end.

End Load.

Arguments mkVertex {Op} op inputs.
Arguments op {Op} o.
Arguments inputs {Op} o.
Arguments heap {Op} s.
Arguments next {Op} s.
Arguments cache {Op} s.
Arguments mkState {Op} heap next cache.
Arguments empty {Op}.


(** The vertex at [l] carries the op [o], and its inputs are the vertices
    that the cache holds for the input digests of [o]. *)
Definition loaded {Op} (Inputs : Op → list string) (st : State) (l : nat) (o : Op) : Prop :=
  ∃ v, heap st !! l = Some v ∧ op v = Some o ∧
       Forall2 (λ (i : Digest) sub, cache st !! i = Some sub) (Inputs o) (inputs v).


Section Invariants.
Context {Op : Type} (Inputs : Op → list string).
Context (m : gmap Digest Op) (d0 : Digest) (o0 : Op) (rk : Digest → nat).

(** The op that the ops define for a digest: an entry of the map, or the
    last op under its digest. *)
Definition defines (d : Digest) (o : Op) : Prop :=
  m !! d = Some o ∨ (d = d0 ∧ o = o0).

(** The inputs of the op are defined, with a smaller rank. *)
Definition below (d : Digest) (o : Op) : Prop :=
  Forall (λ i, is_Some (m !! i) ∧ (rk i < rk d)%nat) (Inputs o).

(** What [loadReqursive] keeps: cached vertices are loaded, and vertices
    are allocated below [next]. *)
Definition load_inv (st : State (Op:=Op)) : Prop :=
  (∀ d l, cache st !! d = Some l →
          (l < next st)%nat ∧ ∃ o, defines d o ∧ loaded Inputs st l o) ∧
  (∀ l v, heap st !! l = Some v → (l < next st)%nat).

(** [ext x st st']: [st'] extends [st]; the vertex at [x] may differ. *)
Definition ext (x : option nat) (st st' : State (Op:=Op)) : Prop :=
  cache st ⊆ cache st' ∧ (next st ≤ next st')%nat ∧
  (∀ l, (l < next st)%nat → Some l ≠ x → heap st' !! l = heap st !! l) ∧
  (∀ d l, cache st' !! d = Some l → cache st !! d = None → (next st ≤ l)%nat).

Definition balanced (st st' : State (Op:=Op)) : Prop :=
  (next st' + size (cache st) = next st + size (cache st'))%nat.

(** What a call of [loadReqursive] on a defined digest of rank below
    [bound] does. *)
Definition call_ok (f : Digest → option Op → M State (error + nat)) (bound : nat) : Prop :=
  ∀ d o st,
    load_inv st → defines d o → below d o → (rk d < bound)%nat →
    ∃ l st',
      f d (Some o) st = Ok (inr l) st' ∧
      load_inv st' ∧ cache st' !! d = Some l ∧ ext None st st' ∧ balanced st st' ∧
      (cache st !! d = None → loaded Inputs st' l o) ∧
      (∀ d', cache st !! d' = None → is_Some (cache st' !! d') → (rk d' ≤ rk d)%nat).

End Invariants.

(** For the examples: an op is the list of its input digests, four byte
    strings decode to an op, and the digest of the bytes [dt] is
    ["d:" +:+ dt]. *)
Definition example_Unmarshal (dt : string) : error + list string :=
  if String.eqb dt "a" then inr []
  else if String.eqb dt "b" then inr ["d:a"]
  else if String.eqb dt "c" then inr ["d:a"; "d:b"]
  else if String.eqb dt "x" then inr ["d:nowhere"]
  else inl (Errorf "proto: cannot parse").

Definition example_FromBytes (dt : string) : Digest := "d:" +:+ dt.

Definition example_rank (d : Digest) : nat :=
  if String.eqb d "d:a" then 0 else if String.eqb d "d:b" then 1 else 2.

End Loader.

(* ===================================================================== *)
(** * cache/refs.go: read-only mounts *)
(* ===================================================================== *)
Module Mounts.

(** [strings.HasPrefix] and [strings.TrimPrefix]. *)
Definition HasPrefix (s p : string) : bool := String.prefix p s.

Definition TrimPrefix (s p : string) : string :=
  if HasPrefix s p
  then String.substring (String.length p) (String.length s - String.length p) s
  else s.

(** The first loop of [readonlyOverlay]: [out] and [upper] after the options
    [opt]. *)
Fixpoint overlay_scan (opt out : list string) (upper : string) : list string * string :=
  match opt with
  | [] => (out, upper)
  | o :: opt' =>
      if HasPrefix o "upperdir=" then overlay_scan opt' out (TrimPrefix o "upperdir=")
      else if negb (HasPrefix o "workdir=") then overlay_scan opt' (out ++ [o]) upper
      else overlay_scan opt' out upper
  end.

(** The second loop: [out[i] = "lowerdir=" + upper + ":" + ...]. *)
Definition overlay_lower (upper : string) (o : string) : string :=
  if HasPrefix o "lowerdir="
  then "lowerdir=" +:+ upper +:+ ":" +:+ TrimPrefix o "lowerdir="
  else o.

(** [func readonlyOverlay(opt []string) []string]. *)
Definition readonlyOverlay (opt : list string) : list string :=
  let '(out, upper) := overlay_scan opt [] "" in
  if negb (String.eqb upper "") then overlay_lower upper <$> out else out.

(** [mount.Mount] of containerd. *)
Record Mount := mkMount { Type_ : string; Source : string; Options : list string }.

(** The loop body of [readOnlyMounter.Mount] on one mount. *)
Definition readonly_mount (m : Mount) : Mount :=
  if String.eqb (Type_ m) "overlay"
  then mkMount (Type_ m) (Source m) (readonlyOverlay (Options m))
  else mkMount (Type_ m) (Source m)
               (filter (λ opt, opt ≠ "rw") (Options m) ++ ["ro"]).

(** [func (m *readOnlyMounter) Mount() ([]mount.Mount, func() error, error)],
    given what the wrapped [Mountable.Mount()] returns: an error, or the
    mounts and the release function [rel]. *)
Definition readOnlyMounter_Mount {R} (inner : error + list Mount * R)
  : error + list Mount * R :=
  match inner with
  | inl e => inl e
  | inr (mounts, rel) => inr (readonly_mount <$> mounts, rel)
  end.

(** An option that [readonlyOverlay] does not drop. *)
Definition kept (o : string) : bool :=
  negb (HasPrefix o "upperdir=") && negb (HasPrefix o "workdir=").

End Mounts.

(* ===================================================================== *)
(** * source/manager.go *)
(* ===================================================================== *)
Module Sources.

(** [source.Identifier]: all that the manager reads of it is [ID()]. *)
Record Identifier := mkIdentifier { id_ID : string; id_Ref : string }.

(** [type Source interface]: [ID()] and what [Pull] returns. *)
Record Source := mkSource {
  src_ID : string;
  src_Pull : Identifier → error + option nat;
}.

(** [type Manager struct]: the [sources] map. *)
Definition Manager := gmap string Source.

(** [func NewManager() ( *Manager, error)]. *)
Definition NewManager : Manager := ∅.

(** [func (sm *Manager) Register(src Source)]. *)
Definition Register (sm : Manager) (src : Source) : Manager :=
  <[src_ID src := src]> sm.

(** [func (sm *Manager) Pull(ctx, id Identifier) (cache.ImmutableRef, error)]. *)
Definition Pull (sm : Manager) (id : Identifier) : error + option nat :=
  match sm !! id_ID id with
  | None => inl (Errorf ("no handler fro " +:+ id_ID id))
  | Some src => src_Pull src id
  end.

(** The source registered last under the id [k]. *)
Fixpoint last_registered (k : string) (srcs : list Source) : option Source :=
  match srcs with
  | [] => None
  | src :: srcs' =>
      match last_registered k srcs' with
      | Some s => Some s
      | None => if String.eqb (src_ID src) k then Some src else None
      end
  end.

End Sources.

(* ===================================================================== *)
(** * client/llb/llb.go: [appendResult] *)
(* ===================================================================== *)
Module Llb.

Definition Digest := string.

Section Append.
(** [digest.FromBytes]; a [proto.Marshaler] is given by what [Marshal]
    returns. *)
Context (FromBytes : string → Digest).

(** [func appendResult(p, list, cache) (dgst, out, err)]: the result and the
    [cache] set after the call. *)
Definition appendResult (marshal : error + string) (lst : list string)
    (cache : gset Digest)
  : (error + Digest * list string) * gset Digest :=
  match marshal with
  | inl e => (inl e, cache)
  | inr dt =>
      let dgst := FromBytes dt in
      if decide (dgst ∈ cache) then (inr (dgst, lst), cache)
      else (inr (dgst, lst ++ [dt]), {[dgst]} ∪ cache)
  end.

(** What [marshalTo] keeps of its two accumulators: the cache holds the
    digests of the list, which holds no two ops of the same digest. *)
Definition marshal_inv (lst : list string) (cache : gset Digest) : Prop :=
  (∀ d, d ∈ cache ↔ d ∈ FromBytes <$> lst) ∧ NoDup (FromBytes <$> lst).

End Append.
End Llb.

(* ===================================================================== *)
(** * Facts about state passing *)
(* ===================================================================== *)

Lemma bind_Ok {S A B} (c : M S A) (k : A → M S B) s b s' :
  bind c k s = Ok b s' → ∃ a s1, c s = Ok a s1 ∧ k a s1 = Ok b s'.
Proof. unfold bind. destruct (c s) as [a s1| |]; [eauto|done|done]. Qed.

Lemma ret_Ok {S A} (a b : A) (s s' : S) : ret a s = Ok b s' → b = a ∧ s' = s.
Proof. by intros [= <- <-]. Qed.

Lemma get_Ok {S} (a s s' : S) : get s = Ok a s' → a = s ∧ s' = s.
Proof. by intros [= <- <-]. Qed.

Lemma modify_Ok {S} (f : S → S) u (s s' : S) : modify f s = Ok u s' → s' = f s.
Proof. by intros [= <-]. Qed.

Lemma deref_or_panic_Ok {S A} (o : option A) a (s s' : S) :
  deref_or_panic o s = Ok a s' → o = Some a ∧ s' = s.
Proof. destruct o; [|done]. by intros [= <- <-]. Qed.

(** [inv_bind H] splits a hypothesis [bind c k s = Ok b s'] into the run of
    [c] and the run of the continuation (left in [H]). *)
Ltac inv_bind H :=
  let a := fresh "a" in
  let s1 := fresh "s" in
  let H1 := fresh "H" in
  apply bind_Ok in H as (a & s1 & H1 & H).

Tactic Notation "inv_bind" hyp(H) "as" ident(a) ident(s1) ident(H1) :=
  apply bind_Ok in H as (a & s1 & H1 & H).

Ltac inv_ret H :=
  first
    [ apply ret_Ok in H as [-> ->]
    | apply ret_Ok in H as [? ->]
    | apply ret_Ok in H as [? ?]; subst ].

(* ===================================================================== *)
(** * Facts about the progress bus *)
(* ===================================================================== *)
Section ProgressFacts.
Import Progress.

Lemma writer_inv_newWriter b parent name b' w :
  newWriter b parent name = Returned (b', w) →
  ∃ pw, pws b' !! w = Some pw ∧ writer_inv pw.
Proof.
  unfold newWriter. destruct (pws b !! parent) as [ppw|]; [|done].
  intros [= <- <-]. eexists. split; [apply lookup_insert_eq|]. reflexivity.
Qed.

Lemma writer_inv_Write b w p now b' e pw' :
  Write b w p now = Returned (b', e) →
  (∀ pw, pws b !! w = Some pw → writer_inv pw) →
  pws b' !! w = Some pw' → writer_inv pw'.
Proof.
  unfold Write. destruct (pws b !! w) as [pw|] eqn:Hw; [|done].
  destruct (done pw) eqn:Hd.
  - intros [= <- <-] Hinv Hw'. apply Hinv. congruence.
  - intros [= <- <-] _. simpl. rewrite lookup_insert_eq. intros [= <-].
    unfold writer_inv. simpl. split; [|done]. by destruct (PDone p).
Qed.

Lemma writer_inv_Done b w now b' e pw' :
  Done b w now = Returned (b', e) →
  (∀ pw, pws b !! w = Some pw → writer_inv pw) →
  pws b' !! w = Some pw' → writer_inv pw'.
Proof.
  unfold Done. destruct (pws b !! w) as [pw|] eqn:Hw; [|done].
  destruct (lastP pw) as [last|]; [|done].
  destruct (PDone (deref last)).
  - intros [= <- <-] Hinv Hw'. apply Hinv. congruence.
  - intros HW Hinv. eapply writer_inv_Write; eauto.
    intros pw0 Hpw0. apply Hinv. congruence.
Qed.

(** C8. What [Done] does on a writer, by whether the writer has published an
    event. If it has, [Done] returns nil, the writer's [done] flag is set and
    its last event is the previous one with [Done = true] (stored anew, with
    a broadcast, unless it was done already); every later [Write] on the
    writer returns an error and leaves the bus as it is. If it has not, the
    [atomic.Value] loads the nil interface and the unchecked assertion
    [.( *Progress)] panics, before the [done] flag is set and before anything
    is published: the [else] branch of [Done] is never reached, and the
    [Write] of an empty event with [Done = true] that it was to make, which
    would have closed the writer, is not made. *)
Theorem Done_is_terminal_or_panics (b : Bus) (w : nat) (pw : progressWriter)
    (now : Time) :
  pws b !! w = Some pw →
  writer_inv pw →
  match lastP pw with
  | Some last =>
      ∃ b' pw' last',
        Done b w now = Returned (b', None) ∧
        pws b' !! w = Some pw' ∧
        done pw' = true ∧
        lastP pw' = Some last' ∧
        PDone (deref last') = true ∧
        ID (deref last') = ID (deref last) ∧
        Message (deref last') = Message (deref last) ∧
        Action (deref last') = Action (deref last) ∧
        Current (deref last') = Current (deref last) ∧
        Total (deref last') = Total (deref last) ∧
        (IsZero (Timestamp (deref last)) = false →
           Timestamp (deref last') = Timestamp (deref last)) ∧
        (PDone (deref last) = false →
           addr last' = next_addr b ∧ broadcasts (pr b') = S (broadcasts (pr b))) ∧
        (∀ q now', ∃ e, Write b' w q now' = Returned (b', Some e))
  | None =>
      Done b w now = Panicked ∧ done pw = false ∧
      ∃ b' pw', Write b w (mkProgress "" "" "" 0 0 0 true) now = Returned (b', None) ∧
                pws b' !! w = Some pw' ∧ done pw' = true
  end.
Proof.
  intros Hw Hinv. unfold writer_inv in Hinv.
  destruct (lastP pw) as [last|] eqn:Hlast.
  - destruct Hinv as [Hdone Hid]. unfold Done. rewrite Hw, Hlast.
    destruct (PDone (deref last)) eqn:Hpd.
    + exists b, pw, last.
      assert (HW : ∀ q now', ∃ e, Write b w q now' = Returned (b, Some e)).
      { intros q now'. unfold Write. rewrite Hw, <- Hdone. eauto. }
      by repeat (split; [done|]).
    + unfold Write at 1. rewrite Hw, <- Hdone. simpl.
      eexists _, _, _. split; [reflexivity|]. simpl.
      rewrite lookup_insert_eq. split; [reflexivity|]. simpl.
      do 8 (split; [done|]).
      split; [by intros ->|]. split; [done|].
      intros q now'. unfold Write. simpl. rewrite lookup_insert_eq. simpl. eauto.
  - split; [|split; [done|]].
    + unfold Done. by rewrite Hw, Hlast.
    + unfold Write. rewrite Hw, Hinv. eexists _, _. split; [reflexivity|].
      simpl. by rewrite lookup_insert_eq.
Qed.

End ProgressFacts.

Section ProgressCutOff.
Import Progress.

Lemma next_spec sh pw sh' r :
  next sh pw = (sh', r) →
  sh_pw sh' = sh_pw sh ∧ (∀ p, r = Some p → lastP pw = Some p).
Proof.
  unfold next. destruct (lastP pw) as [last|].
  - destruct (negb _); intros [= <- <-]; split; try done; by intros p [= <-].
  - intros [= <- <-]. done.
Qed.

Lemma read_handles_spec ws rest : ∀ seen open hs r open',
  read_handles ws seen rest open = (hs, r, open') →
  sh_pw <$> hs = sh_pw <$> (seen ++ rest) ∧
  (∀ p, r = Some p →
        ∃ sh pw, sh ∈ rest ∧ ws !! sh_pw sh = Some pw ∧ lastP pw = Some p).
Proof.
  induction rest as [|sh rest IH]; intros seen open hs r open'; simpl.
  - intros [= <- <- <-]. rewrite app_nil_r. split; [done|]. by intros p.
  - destruct (ws !! sh_pw sh) as [pw|] eqn:Hpw.
    + destruct (next sh pw) as [sh' [p|]] eqn:Hn.
      * intros [= <- <- <-]. apply next_spec in Hn as [Hsame Hp].
        split.
        { rewrite !fmap_app, !fmap_cons. by rewrite Hsame. }
        intros p0 [= <-]. exists sh, pw. split; [left|]. split; [done|]. by apply Hp.
      * intros H. apply IH in H as [Hm Hr]. apply next_spec in Hn as [Hsame _].
        split.
        { rewrite Hm, <- app_assoc. simpl.
          rewrite !fmap_app, !fmap_cons. by rewrite Hsame. }
        intros p Hp. destruct (Hr p Hp) as (sh0 & pw0 & Hin & H1 & H2).
        exists sh0, pw0. split; [by right|done].
    + intros H. apply IH in H as [Hm Hr]. split.
      { rewrite Hm, <- app_assoc. done. }
      intros p Hp. destruct (Hr p Hp) as (sh0 & pw0 & Hin & H1 & H2).
      exists sh0, pw0. split; [by right|done].
Qed.

Lemma cut_off_Write w Sw O b w0 p now b' e :
  cut_off w Sw O b →
  Write b w0 p now = Returned (b', e) →
  cut_off w (Sw ++ stored_addrs w (stored_by b b' w0))
            (O ++ observed_addrs (stored_by b b' w0)) b'.
Proof.
  intros (Hc & Hh & HS & HO & HW). unfold Write.
  destruct (pws b !! w0) as [pw|] eqn:Hw0; [|done].
  destruct (done pw).
  - intros [= <- <-]. unfold stored_by. rewrite Nat.eqb_refl. simpl.
    rewrite !app_nil_r. done.
  - intros [= <- <-]. unfold stored_by. cbn [next_addr].
    assert (Hneq : (S (next_addr b) =? next_addr b)%nat = false)
      by (apply Nat.eqb_neq; lia).
    rewrite Hneq. cbn [stored_addrs observed_addrs omap list_omap].
    rewrite app_nil_r. unfold cut_off. cbn [pr pws next_addr broadcast ctx_done handles].
    split; [done|]. split; [done|].
    destruct (decide (w0 = w)) as [->|Hne].
    + split; [|split].
      * intros a [Ha|Ha%list_elem_of_singleton]%elem_of_app; [apply HS in Ha|]; lia.
      * intros a Ha. destruct (HO a Ha) as [Hlt Hn]. split; [lia|].
        intros [?|?%list_elem_of_singleton]%elem_of_app; [done|lia].
      * intros w' pw' last Hw' Hl Hlast. rewrite lookup_insert_ne in Hl by done.
        destruct (HW w' pw' last Hw' Hl Hlast) as [Hlt Hn]. split; [lia|].
        intros [?|?%list_elem_of_singleton]%elem_of_app; [done|lia].
    + rewrite app_nil_r. split; [|split].
      * intros a Ha. apply HS in Ha. lia.
      * intros a Ha. destruct (HO a Ha) as [Hlt Hn]. split; [lia|done].
      * intros w' pw' last Hw' Hl Hlast.
        destruct (decide (w' = w0)) as [->|Hne'].
        -- rewrite lookup_insert_eq in Hl. injection Hl as <-. simpl in Hlast.
           injection Hlast as <-. simpl. split; [lia|].
           intros Ha. apply HS in Ha. lia.
        -- rewrite lookup_insert_ne in Hl by done.
           destruct (HW w' pw' last Hw' Hl Hlast) as [Hlt Hn]. split; [lia|done].
Qed.

Lemma cut_off_call w Sw O b c b' o :
  cut_off w Sw O b →
  call b c = Returned (b', o) →
  cut_off w (Sw ++ stored_addrs w o) (O ++ observed_addrs o) b'.
Proof.
  intros Hcut. destruct c as [w0 p now|w0 now|parent name|cd|]; simpl.
  - destruct (Write b w0 p now) as [[b1 e]|] eqn:HW; [|done].
    intros [= <- <-]. by eapply cut_off_Write.
  - destruct (Done b w0 now) as [[b1 e]|] eqn:HD; [|done].
    intros [= <- <-]. unfold Done in HD.
    destruct (pws b !! w0) as [pw|] eqn:Hw0; [|done].
    destruct (lastP pw) as [last|]; [|done].
    destruct (PDone (deref last)).
    + injection HD as <- <-. unfold stored_by. rewrite Nat.eqb_refl. simpl.
      by rewrite !app_nil_r.
    + by eapply cut_off_Write.
  - destruct (newWriter b parent name) as [[b1 w1]|] eqn:HN; [|done].
    intros [= <- <-]. simpl. rewrite !app_nil_r.
    unfold newWriter in HN. destruct (pws b !! parent) as [ppw|]; [|done].
    injection HN as <- <-. destruct Hcut as (Hc & Hh & HS & HO & HW).
    unfold cut_off, append. simpl. rewrite Hc.
    split; [done|]. split; [done|]. split; [done|]. split; [done|].
    intros w' pw' last Hw' Hl Hlast.
    destruct (decide (w' = next_pw b)) as [->|Hne].
    + rewrite lookup_insert_eq in Hl. by injection Hl as <-.
    + rewrite lookup_insert_ne in Hl by done. by eapply HW.
  - destruct Hcut as (Hc & Hh & HS & HO & HW).
    unfold Read. destruct cd.
    { intros [= <- <-]. simpl. by rewrite !app_nil_r. }
    destruct (read_handles (pws b) [] (handles (pr b)) false) as [[hs r] open] eqn:HR.
    apply read_handles_spec in HR as [Hm Hr].
    destruct r as [p|].
    + intros [= <- <-]. simpl. rewrite app_nil_r.
      destruct (Hr p eq_refl) as (sh & pw & Hin & Hpw & Hlast).
      assert (Hne : sh_pw sh ≠ w).
      { intros <-. apply Hh. apply list_elem_of_fmap. eauto. }
      destruct (HW _ _ _ Hne Hpw Hlast) as [Hlt Hn].
      unfold cut_off. simpl. rewrite Hm. simpl.
      split; [done|]. split; [done|]. split; [done|]. split; [|done].
      intros a [Ha|Ha%list_elem_of_singleton]%elem_of_app; [by apply HO|by subst].
    + assert (Hcut' : cut_off w Sw O
                (mkBus (mkReader (ctx_done (pr b)) hs (broadcasts (pr b)))
                       (pws b) (next_pw b) (next_addr b))).
      { unfold cut_off. simpl. rewrite Hm. done. }
      rewrite Hc in Hcut' |- *.
      destruct (negb open); simpl; intros [= <- <-]; simpl; by rewrite !app_nil_r.
  - intros [= <- <-]. simpl. rewrite !app_nil_r.
    destruct Hcut as (Hc & Hh & HS & HO & HW). done.
Qed.

Lemma cut_off_calls w cs : ∀ Sw O b b' obs,
  cut_off w Sw O b →
  calls b cs = (b', obs) →
  cut_off w (Sw ++ stored_addrs w obs) (O ++ observed_addrs obs) b'.
Proof.
  induction cs as [|c cs IH]; intros Sw O b b' obs Hcut; simpl.
  - intros [= <- <-]. simpl. by rewrite !app_nil_r.
  - destruct (call b c) as [[b1 o1]|] eqn:Hc.
    + destruct (calls b1 cs) as [b2 o2] eqn:Hcs. intros [= <- <-].
      unfold stored_addrs, observed_addrs. rewrite !omap_app.
      rewrite !app_assoc. eapply IH; [|done]. by eapply cut_off_call.
    + intros [= <- <-]. simpl. by rewrite !app_nil_r.
Qed.

Lemma bus_inv_pipe : bus_inv pipe.
Proof.
  split; [constructor|]. unfold pipe. simpl.
  apply map_Forall_singleton. done.
Qed.

(** [bus_inv] holds all along a run of calls. *)
Lemma stored_below_mono n m pw : (n ≤ m)%nat → stored_below n pw → stored_below m pw.
Proof. unfold stored_below. destruct (lastP pw); simpl; [lia|done]. Qed.

Lemma bus_inv_Write b w p now b' e :
  bus_inv b → Write b w p now = Returned (b', e) → bus_inv b'.
Proof.
  intros [Hh Ha]. unfold Write. destruct (pws b !! w) as [pw|]; [|done].
  destruct (done pw); intros [= <- <-]; [done|].
  split; [done|]. cbn [pws next_addr].
  apply map_Forall_insert_2; [unfold stored_below; simpl; lia|].
  eapply map_Forall_impl; [exact Ha|]. intros ? pw0. simpl.
  apply stored_below_mono. lia.
Qed.

Lemma bus_inv_call b c b' o :
  bus_inv b → call b c = Returned (b', o) → bus_inv b'.
Proof.
  intros Hinv. destruct c as [w0 p now|w0 now|parent name|cd|]; simpl.
  - destruct (Write b w0 p now) as [[b1 e]|] eqn:HW; [|done].
    intros [= <- <-]. by eapply bus_inv_Write.
  - destruct (Done b w0 now) as [[b1 e]|] eqn:HD; [|done].
    intros [= <- <-]. unfold Done in HD.
    destruct (pws b !! w0) as [pw|]; [|done].
    destruct (lastP pw) as [last|]; [|done].
    destruct (PDone (deref last)); [by injection HD as <- <-|].
    by eapply bus_inv_Write.
  - destruct (newWriter b parent name) as [[b1 w1]|] eqn:HN; [|done].
    intros [= <- <-]. unfold newWriter in HN.
    destruct (pws b !! parent) as [ppw|]; [|done]. injection HN as <- <-.
    destruct Hinv as [Hh Ha]. split; cbn [pr pws next_pw next_addr].
    + assert (Hh' : Forall (λ sh, (sh_pw sh < S (next_pw b))%nat) (handles (pr b))).
      { eapply Forall_impl; [exact Hh|]. simpl. lia. }
      unfold append. destruct (ctx_done (pr b)); [done|]. simpl.
      apply Forall_app. split; [done|]. constructor; [simpl; lia|constructor].
    + by apply map_Forall_insert_2.
  - destruct Hinv as [Hh Ha]. unfold Read. destruct cd; [by intros [= <- <-]|].
    destruct (read_handles (pws b) [] (handles (pr b)) false) as [[hs r] open] eqn:HR.
    apply read_handles_spec in HR as [Hm _]. simpl in Hm.
    assert (Hhs : Forall (λ sh, (sh_pw sh < next_pw b)%nat) hs).
    { apply (Forall_fmap sh_pw (λ n, (n < next_pw b)%nat)). rewrite Hm.
      by apply (Forall_fmap sh_pw (λ n, (n < next_pw b)%nat)). }
    destruct r as [p|].
    + by intros [= <- <-].
    + destruct (ctx_done (pr b)); [destruct (negb open)|]; by intros [= <- <-].
  - by intros [= <- <-].
Qed.

Lemma bus_inv_calls cs : ∀ b b' obs,
  bus_inv b → calls b cs = (b', obs) → bus_inv b'.
Proof.
  induction cs as [|c cs IH]; intros b b' obs Hinv; simpl.
  - by intros [= <- <-].
  - destruct (call b c) as [[b1 o1]|] eqn:Hc.
    + destruct (calls b1 cs) as [b2 o2] eqn:Hcs. intros [= <- <-].
      eapply IH; [|done]. by eapply bus_inv_call.
    + by intros [= <- <-].
Qed.

(** C10. On a reader whose context is cancelled, [append] changes nothing:
    the handle list stays as it is. A writer registered then (by
    [newWriter], which calls [append]) has no handle in the list after any
    run of calls on the bus, and no event it stores in such a run is handed
    out by a [Read] of that run. *)
Theorem append_on_closed_reader (b : Bus) :
  ctx_done (pr b) = true →
  bus_inv b →
  (∀ w, append (pr b) w = pr b) ∧
  (∀ parent name b1 w,
      newWriter b parent name = Returned (b1, w) →
      handles (pr b1) = handles (pr b) ∧
      ∀ cs b2 obs,
        calls b1 cs = (b2, obs) →
        (w ∉ sh_pw <$> handles (pr b2)) ∧
        ∀ a, Stored w a ∈ obs → Observed a ∉ obs).
Proof.
  intros Hc [Hh Ha]. split.
  { intros w. unfold append. by rewrite Hc. }
  rewrite Forall_forall in Hh.
  intros parent name b1 w HN. unfold newWriter in HN.
  destruct (pws b !! parent) as [ppw|]; [|done]. injection HN as <- <-.
  unfold append. rewrite Hc. simpl. split; [done|].
  intros cs b2 obs Hcs.
  eapply (cut_off_calls (next_pw b) cs [] []) in Hcs.
  - destruct Hcs as (_ & Hh2 & _ & HO & _). split; [done|].
    intros a Hs Ho. simpl in HO.
    destruct (HO a) as [_ Hn].
    + unfold observed_addrs. apply list_elem_of_omap. exists (Observed a). done.
    + apply Hn. unfold stored_addrs. apply list_elem_of_omap.
      exists (Stored (next_pw b) a). split; [done|]. by rewrite decide_True.
  - unfold cut_off. simpl. split; [done|]. split.
    { intros (sh & Heq & Hin)%list_elem_of_fmap. apply Hh in Hin. lia. }
    split; [by intros a Hin%elem_of_nil|].
    split; [by intros a Hin%elem_of_nil|].
    intros w' pw' last Hne Hl Hlast. rewrite lookup_insert_ne in Hl by done.
    split; [|by intros Hin%elem_of_nil].
    apply Ha in Hl. unfold stored_below in Hl. by rewrite Hlast in Hl.
Qed.

End ProgressCutOff.

Section ProgressWitnesses.
Import Progress.

(** On the writer that [newWriter] returns on a fresh pipe, [Done] before
    any [Write] panics; on the writer of [example_bus], which has published
    one event, [Done] closes it. *)
Lemma Done_is_terminal_or_panics_witness :
  (newWriter pipe 0 "vertex" = Returned (fresh_bus, 1%nat) ∧
   Done fresh_bus 1 9 = Panicked) ∧
  (∃ b' pw', Done example_bus 1 9 = Returned (b', None) ∧
             pws b' !! 1%nat = Some pw' ∧ done pw' = true ∧
             ∃ e, Write b' 1 Progress_zero 10 = Returned (b', Some e)).
Proof.
  split.
  - split; [reflexivity|].
    apply (Done_is_terminal_or_panics fresh_bus 1 (mkWriter "vertex" None false) 9).
    + vm_compute. reflexivity.
    + reflexivity.
  - destruct (Done_is_terminal_or_panics example_bus 1
                (mkWriter "vertex"
                   (Some (mkPtr 0 (mkProgress "vertex" "pulling" "" 1 2 7 false))) false) 9)
      as (b' & pw' & last' & HD & Hpw & Hdone & H).
    + vm_compute. reflexivity.
    + split; reflexivity.
    + exists b', pw'. split; [exact HD|]. split; [exact Hpw|]. split; [exact Hdone|].
      apply H.
Defined.

Lemma append_on_closed_reader_witness :
  append (pr example_closed_bus) 5 = pr example_closed_bus.
Proof.
  apply (append_on_closed_reader example_closed_bus).
  - reflexivity.
  - split; compute_done.
Defined.

End ProgressWitnesses.

(* ===================================================================== *)
(** * Facts about the vertex evaluator *)
(* ===================================================================== *)
Section SolverFacts.
Import Solver.
Context (opt : Opt).

Lemma get_vertex_Ok g s v s' :
  get_vertex g s = Ok v s' → heap s !! g = Some v ∧ s' = s.
Proof.
  unfold get_vertex. intros H. inv_bind H as s0 s1 H0. apply get_Ok in H0 as [-> ->].
  by apply deref_or_panic_Ok in H.
Qed.

Lemma get_vertex_lookup g s v : heap s !! g = Some v → get_vertex g s = Ok v s.
Proof. intros H. unfold get_vertex, bind, get. by rewrite H. Qed.

Lemma upd_vertex_Ok g f s u s' :
  upd_vertex g f s = Ok u s' →
  ∃ v, heap s !! g = Some v ∧ s' = set_heap <[g := f v]> s.
Proof.
  unfold upd_vertex. intros H. inv_bind H as v s1 H0.
  apply get_vertex_Ok in H0 as [Hv ->]. apply modify_Ok in H. eauto.
Qed.

Lemma emit_Ok e s u s' : emit e s = Ok u s' → s' = set_events (λ es, es ++ [e]) s.
Proof. apply modify_Ok. Qed.

Lemma history_Ok s h s' : history s = Ok h s' → h = events s ∧ s' = s.
Proof.
  unfold history. intros H. inv_bind H as s0 s1 H0. apply get_Ok in H0 as [-> ->].
  by apply ret_Ok in H as [-> ->].
Qed.

Lemma time_Now_Ok s t s' :
  time_Now s = Ok t s' → t = clock s ∧ s' = set_clock (clock s + 1) s.
Proof. by intros [= <- <-]. Qed.

Lemma read_Ok {A} (f : gmap nat opVertex → outcome A) s a s' :
  read f s = Ok a s' → f (heap s) = Returned a ∧ s' = s.
Proof.
  unfold read. intros H. inv_bind H as s0 s1 H0. apply get_Ok in H0 as [-> ->].
  destruct (f (heap s)); [|done]. by apply ret_Ok in H as [-> ->].
Qed.

Lemma only_at_refl g s : only_at g s s.
Proof. by intros l _. Qed.

Lemma only_at_trans g s1 s2 s3 : only_at g s1 s2 → only_at g s2 s3 → only_at g s1 s3.
Proof. intros H1 H2 l Hl. by rewrite H2, H1. Qed.

Lemma only_at_heap_eq g s s' : heap s' = heap s → only_at g s s'.
Proof. intros H l _. by rewrite H. Qed.

Lemma only_at_upd g f s u s' : upd_vertex g f s = Ok u s' → only_at g s s'.
Proof.
  intros (v & Hv & ->)%upd_vertex_Ok l Hl. simpl. by rewrite lookup_insert_ne.
Qed.

Lemma frozen_refl s : frozen s s.
Proof. intros g v Hv _. eauto. Qed.

Lemma terminal_same v v' : err v' = err v → refs v' = refs v → terminal v → terminal v'.
Proof. unfold terminal. intros -> ->. done. Qed.

Lemma frozen_trans s1 s2 s3 : frozen s1 s2 → frozen s2 s3 → frozen s1 s3.
Proof.
  intros H1 H2 g v Hv Ht. destruct (H1 g v Hv Ht) as (v' & Hv' & He & Hr).
  destruct (H2 g v' Hv') as (v'' & Hv'' & He' & Hr').
  { by eapply terminal_same. }
  exists v''. split; [done|]. split; congruence.
Qed.

(** A store that changes only at a vertex that is not terminal leaves the
    terminal vertices as they are. *)
Lemma frozen_only_at g s s' v :
  heap s !! g = Some v → ¬ terminal v → only_at g s s' → frozen s s'.
Proof.
  intros Hv Hnt Ho l w Hw Ht. destruct (decide (l = g)) as [->|Hne].
  - congruence.
  - exists w. by rewrite Ho.
Qed.

Lemma notifyStarted_only_at g s u s' : notifyStarted g s = Ok u s' → only_at g s s'.
Proof.
  unfold notifyStarted. intros H. inv_bind H as now s1 H0.
  apply time_Now_Ok in H0 as [-> ->].
  inv_bind H as u1 s2 H0. apply only_at_upd in H0. inv_bind H as v s3 H1.
  apply get_vertex_Ok in H1 as [_ ->]. apply emit_Ok in H as ->.
  intros l Hl. simpl. by rewrite H0.
Qed.

Lemma notifyCompleted_only_at g s u s' : notifyCompleted g s = Ok u s' → only_at g s s'.
Proof.
  unfold notifyCompleted. intros H. inv_bind H as now s1 H0.
  apply time_Now_Ok in H0 as [-> ->].
  inv_bind H as u1 s2 H0. apply only_at_upd in H0. inv_bind H as v s3 H1.
  apply get_vertex_Ok in H1 as [_ ->]. apply emit_Ok in H as ->.
  intros l Hl. simpl. by rewrite H0.
Qed.

Lemma runSourceOp_only_at g o s r s' : runSourceOp opt g o s = Ok r s' → only_at g s s'.
Proof.
  unfold runSourceOp. destruct (FromString opt (Identifier o)) as [e|id].
  { intros H. apply ret_Ok in H as [_ ->]. apply only_at_refl. }
  intros H. inv_bind H as h s1 H0. apply history_Ok in H0 as [-> ->].
  inv_bind H as u s2 H0. apply emit_Ok in H0 as ->.
  destruct (Pull opt _ id) as [e|ref].
  - apply ret_Ok in H as [_ ->]. by apply only_at_heap_eq.
  - inv_bind H as u1 s3 H0. apply only_at_upd in H0. apply ret_Ok in H as [_ ->].
    intros l Hl. by rewrite H0.
Qed.

Lemma exec_mounts_heap g ms : ∀ outputs mounts s r s',
  exec_mounts opt g ms outputs mounts s = Ok r s' → heap s' = heap s.
Proof.
  induction ms as [|m ms IH]; intros outputs mounts s r s'; simpl.
  - by intros [_ ->]%ret_Ok.
  - intros H. inv_bind H as ref s1 H0. apply read_Ok in H0 as [_ ->].
    destruct (decide (m_Output m ≠ SkipOutput)).
    + inv_bind H as h s2 H0. apply history_Ok in H0 as [-> ->].
      inv_bind H as u s3 H0. apply emit_Ok in H0 as ->.
      destruct (New opt _ ref) as [e|active].
      * by apply ret_Ok in H as [_ ->].
      * by apply IH in H.
    + by apply IH in H.
Qed.

Lemma exec_cleanup_heap outputs : ∀ s u s',
  exec_cleanup opt outputs s = Ok u s' → heap s' = heap s.
Proof.
  induction outputs as [|[o|] outputs IH]; intros s u s'; simpl.
  - by intros [_ ->]%ret_Ok.
  - intros H. inv_bind H as h s1 H0. apply history_Ok in H0 as [-> ->].
    inv_bind H as u1 s2 H0. apply emit_Ok in H0 as ->.
    destruct (Freeze opt _ o) as [e|[r|]].
    + by apply IH in H.
    + inv_bind H as h s3 H0. apply history_Ok in H0 as [-> ->].
      inv_bind H as u2 s4 H0. apply emit_Ok in H0 as ->. by apply IH in H.
    + done.
  - apply IH.
Qed.

Lemma exec_commit_only_at g todo : ∀ i outputs s r s',
  exec_commit opt g i todo outputs s = Ok r s' → only_at g s s'.
Proof.
  induction todo as [|o todo IH]; intros i outputs s r s'; simpl.
  - intros [_ ->]%ret_Ok. apply only_at_refl.
  - intros H. inv_bind H as a s1 H0. apply deref_or_panic_Ok in H0 as [-> ->].
    inv_bind H as h s2 H0. apply history_Ok in H0 as [-> ->].
    inv_bind H as u s3 H0. apply emit_Ok in H0 as ->.
    destruct (ReleaseAndCommit opt _ a) as [e|ref].
    + apply ret_Ok in H as [_ ->]. by apply only_at_heap_eq.
    + inv_bind H as u1 s4 H0. apply only_at_upd in H0. apply IH in H.
      eapply only_at_trans; [|exact H]. intros l Hl. by rewrite H0.
Qed.

Lemma runExecOp_only_at g o s r s' : runExecOp opt g o s = Ok r s' → only_at g s s'.
Proof.
  unfold runExecOp. intros H. inv_bind H as rm s1 Hm. apply exec_mounts_heap in Hm.
  destruct rm as [[e outputs]|[outputs mounts]].
  - inv_bind H as u s2 Hc. apply exec_cleanup_heap in Hc. apply ret_Ok in H as [_ ->].
    apply only_at_heap_eq. congruence.
  - inv_bind H as h s2 Hh. apply history_Ok in Hh as [-> ->].
    inv_bind H as u s3 He. apply emit_Ok in He as ->.
    destruct (Exec opt _ _ _) as [e|].
    + inv_bind H as u1 s4 Hc. apply exec_cleanup_heap in Hc.
      apply ret_Ok in H as [_ ->]. apply only_at_heap_eq. simpl in Hc. congruence.
    + inv_bind H as u1 s4 Hu. apply only_at_upd in Hu.
      inv_bind H as c s5 Hco. apply exec_commit_only_at in Hco.
      inv_bind H as u2 s6 Hc. apply exec_cleanup_heap in Hc.
      apply ret_Ok in H as [_ ->].
      intros l Hl. rewrite Hc, Hco, Hu by done. simpl. by rewrite Hm.
Qed.

Lemma solve_inputs_frozen (f : nat → M State (option error)) ins :
  (∀ i s r s', f i s = Ok r s' → frozen s s') →
  ∀ s r s', solve_inputs f ins s = Ok r s' → frozen s s'.
Proof.
  intros Hf. induction ins as [|i ins IH]; intros s r s'; simpl.
  - intros [_ ->]%ret_Ok. apply frozen_refl.
  - intros H. inv_bind H as e s1 H0. apply Hf in H0.
    inv_bind H as e' s2 H1. apply IH in H1.
    apply ret_Ok in H as [_ ->]. by eapply frozen_trans.
Qed.

Lemma frozen_then_only_at g s s1 s2 v :
  heap s !! g = Some v → ¬ terminal v → frozen s s1 → only_at g s1 s2 → frozen s s2.
Proof.
  intros Hv Hnt Hf Ho l w Hw Ht. destruct (decide (l = g)) as [->|Hne].
  - congruence.
  - destruct (Hf l w Hw Ht) as (w' & Hw' & He & Hr). exists w'. by rewrite Ho.
Qed.

(** No call of [solve], on any vertex, changes [err] or [refs] of a vertex
    that is terminal. *)
Lemma solve_frozen fuel : ∀ g s r s', solve opt fuel g s = Ok r s' → frozen s s'.
Proof.
  induction fuel as [|fuel IH]; intros g s r s'; [done|]. simpl.
  intros H. inv_bind H as v s0 Hv. apply get_vertex_Ok in Hv as [Hv ->].
  destruct (err v) as [e|] eqn:He.
  { apply ret_Ok in H as [_ ->]. apply frozen_refl. }
  destruct (decide (0 < length (refs v))%nat) as [Hr|Hr].
  { apply ret_Ok in H as [_ ->]. apply frozen_refl. }
  assert (Hnt : ¬ terminal v).
  { intros [[e He']|Hne]; [congruence|]. destruct (refs v); [done|simpl in Hr; lia]. }
  inv_bind H as retErr s1 Hbody.
  assert (Hfr : frozen s s1).
  { inv_bind Hbody as e s2 Hin.
    assert (Hfin : frozen s s2).
    { destruct (decide (0 < length (inputs v))%nat).
      - eapply solve_inputs_frozen; [|exact Hin]. apply IH.
      - apply ret_Ok in Hin as [_ ->]. apply frozen_refl. }
    destruct e as [e|].
    { by apply ret_Ok in Hbody as [_ ->]. }
    inv_bind Hbody as u s3 Hs. apply notifyStarted_only_at in Hs.
    inv_bind Hbody as r0 s4 Hrun. inv_bind Hbody as u1 s5 Hc.
    apply notifyCompleted_only_at in Hc. apply ret_Ok in Hbody as [_ ->].
    eapply frozen_then_only_at; [exact Hv|exact Hnt|exact Hfin|].
    eapply only_at_trans; [exact Hs|]. eapply only_at_trans; [|exact Hc].
    destruct (Op_ (op v)).
    - by eapply runSourceOp_only_at.
    - by eapply runExecOp_only_at.
    - apply ret_Ok in Hrun as [_ ->]. apply only_at_refl. }
  destruct retErr as [e|].
  - inv_bind H as u s2 Hu. apply only_at_upd in Hu. apply ret_Ok in H as [_ ->].
    by eapply frozen_then_only_at.
  - by apply ret_Ok in H as [_ ->].
Qed.

(** C1. A vertex whose [err] is set or whose [refs] is non-empty is terminal.
    [solve] on it returns at once and leaves the whole state (the store of
    vertices, the events, the clock) as it was: it returns the recorded error
    when [err] is set, and nil, with nothing dispatched, when [err] is nil and
    [refs] is non-empty. And no call of [solve] on any vertex changes [err] or
    [refs] of a terminal vertex, so this holds for every later call. *)
Theorem solve_terminal (fuel : nat) (g : nat) (s : State) (v : opVertex) :
  heap s !! g = Some v →
  (∀ e, err v = Some e → solve opt (S fuel) g s = Ok (Some e) s) ∧
  (err v = None → refs v ≠ [] → solve opt (S fuel) g s = Ok None s) ∧
  (terminal v →
   ∀ fuel' g' r s', solve opt fuel' g' s = Ok r s' →
     ∃ v', heap s' !! g = Some v' ∧ err v' = err v ∧ refs v' = refs v ∧
           solve opt (S fuel) g s' = Ok (err v) s').
Proof.
  intros Hv.
  assert (H1 : ∀ s0 v0 e, heap s0 !! g = Some v0 → err v0 = Some e →
                          solve opt (S fuel) g s0 = Ok (Some e) s0).
  { intros s0 v0 e Hv0 He. simpl. unfold bind at 1.
    rewrite (get_vertex_lookup _ _ _ Hv0), He. done. }
  assert (H2 : ∀ s0 v0, heap s0 !! g = Some v0 → err v0 = None → refs v0 ≠ [] →
                        solve opt (S fuel) g s0 = Ok None s0).
  { intros s0 v0 Hv0 He Hr. simpl. unfold bind at 1.
    rewrite (get_vertex_lookup _ _ _ Hv0), He.
    destruct (decide (0 < length (refs v0))%nat) as [|Hn]; [done|].
    destruct (refs v0); [done|simpl in Hn; lia]. }
  split; [eauto|]. split; [eauto|].
  intros Ht fuel' g' r s' Hs. apply solve_frozen in Hs.
  destruct (Hs g v Hv Ht) as (v' & Hv' & He & Hr).
  exists v'. split; [done|]. split; [done|]. split; [done|].
  destruct (err v) as [e|] eqn:Hev.
  - by eapply H1.
  - eapply H2; [done|done|]. rewrite Hr. destruct Ht as [[? ?]|?]; [congruence|done].
Qed.

Lemma exec_mounts_spec g ms : ∀ outputs mounts s outputs' mounts' s',
  exec_mounts opt g ms outputs mounts s = Ok (inr (outputs', mounts')) s' →
  ∃ news : list (ImmutableRef * nat),
    Forall2 (λ m pa, getInputRefForIndex (heap s) g (m_Input m) = Returned pa.1)
            (filter (λ m, m_Output m ≠ SkipOutput) ms) news ∧
    outputs' = outputs ++ ((λ pa, Some pa.2) <$> news) ∧
    events s' = events s ++ ((λ pa, EvNew pa.1 (inr pa.2)) <$> news) ∧
    heap s' = heap s.
Proof.
  induction ms as [|m ms IH]; intros outputs mounts s outputs' mounts' s'; simpl.
  - intros [[= <- <-] ->]%ret_Ok. exists []. rewrite !app_nil_r. by split.
  - intros H. inv_bind H as ref s1 Hr. apply read_Ok in Hr as [Hr ->].
    rewrite filter_cons. destruct (decide (m_Output m ≠ SkipOutput)) as [Ho|Ho].
    + inv_bind H as h s2 Hh. apply history_Ok in Hh as [-> ->].
      inv_bind H as u s3 He. apply emit_Ok in He as ->.
      destruct (New opt _ ref) as [e|active] eqn:HN.
      { by apply ret_Ok in H as [? _]. }
      apply IH in H as (news & HF & -> & Hev & Hhp). simpl in *.
      exists ((ref, active) :: news). split; [|split; [|split]].
      * constructor; [done|]. done.
      * by rewrite <- app_assoc.
      * rewrite Hev, <- app_assoc. done.
      * done.
    + by apply IH in H.
Qed.

Lemma with_refs_app_nil v : with_refs (refs v ++ []) v = v.
Proof. rewrite app_nil_r. by destruct v. Qed.

Lemma exec_commit_spec g todo : ∀ i outputs s outputs' s' pre,
  outputs = pre ++ todo → length pre = i →
  exec_commit opt g i todo outputs s = Ok (None, outputs') s' →
  ∃ (acts : list nat) (commits : list ImmutableRef),
    todo = Some <$> acts ∧ length commits = length acts ∧
    outputs' = pre ++ replicate (length todo) None ∧
    events s' = events s ++ zip_with (λ a r, EvReleaseAndCommit a (inr r)) acts commits ∧
    ∀ v, heap s !! g = Some v → heap s' !! g = Some (with_refs (refs v ++ commits) v).
Proof.
  induction todo as [|o todo IH]; intros i outputs s outputs' s' pre Hout Hi; simpl.
  - intros [[= <-] ->]%ret_Ok. exists [], []. simpl. rewrite !app_nil_r.
    split; [done|]. split; [done|]. split; [by rewrite Hout, app_nil_r|].
    split; [done|]. intros v Hv. by rewrite with_refs_app_nil.
  - intros H. inv_bind H as a s1 Ha. apply deref_or_panic_Ok in Ha as [-> ->].
    inv_bind H as h s2 Hh. apply history_Ok in Hh as [-> ->].
    inv_bind H as u s3 He. apply emit_Ok in He as ->.
    destruct (ReleaseAndCommit opt _ a) as [e|ref].
    { by apply ret_Ok in H as [? _]. }
    inv_bind H as u1 s4 Hu. apply upd_vertex_Ok in Hu as (v0 & Hv0 & ->).
    apply (IH _ _ _ _ _ (pre ++ [None])) in H
      as (acts & commits & -> & Hlen & -> & Hev & Hhp).
    + exists (a :: acts), (ref :: commits). simpl in *.
      split; [done|]. split; [by rewrite Hlen|].
      split; [by rewrite <- app_assoc|].
      split; [by rewrite Hev, <- app_assoc|].
      intros v Hv. assert (v = v0) as -> by congruence.
      rewrite (Hhp _ (lookup_insert_eq _ _ _)). simpl.
      by rewrite <- app_assoc.
    + subst i outputs. rewrite insert_app_r_alt by reflexivity.
      rewrite Nat.sub_diag. simpl. by rewrite <- app_assoc.
    + rewrite length_app. simpl. lia.
Qed.

Lemma exec_cleanup_nones n : ∀ s, exec_cleanup opt (replicate n None) s = Ok tt s.
Proof. induction n as [|n IH]; intros s; simpl; [done|apply IH]. Qed.

Lemma runExecOp_spec g o s s' :
  runExecOp opt g o s = Ok None s' →
  ∃ news commits mounts v,
    Forall2 (λ m pa, getInputRefForIndex (heap s) g (m_Input m) = Returned pa.1)
            (output_mounts o) news ∧
    length commits = length news ∧
    events s' = events s ++ exec_events news (e_Meta o) mounts commits ∧
    heap s !! g = Some v ∧
    heap s' !! g = Some (with_refs commits v).
Proof.
  unfold runExecOp. intros H. inv_bind H as rm s1 Hm.
  destruct rm as [[e outputs]|[outputs mounts]].
  { inv_bind H as u s2 Hc. by apply ret_Ok in H as [? _]. }
  apply exec_mounts_spec in Hm as (news & HF & -> & Hev & Hhp).
  inv_bind H as h s2 Hh. apply history_Ok in Hh as [-> ->].
  inv_bind H as u s3 He. apply emit_Ok in He as ->.
  destruct (Exec opt _ _ _) as [e|].
  { inv_bind H as u1 s4 Hc. by apply ret_Ok in H as [? _]. }
  inv_bind H as u1 s4 Hu. apply upd_vertex_Ok in Hu as (v & Hv & ->).
  inv_bind H as c s5 Hco. inv_bind H as u2 s6 Hc.
  apply ret_Ok in H as [Hfst ->]. destruct c as [e outputs']. simpl in *. subst e.
  apply (exec_commit_spec _ _ _ _ _ _ _ []) in Hco
    as (acts & commits & Hacts & Hlen & -> & Hev' & Hhp'); [|done|done].
  simpl in *. rewrite exec_cleanup_nones in Hc.
  assert (s6 = s5) as -> by congruence. clear Hc.
  assert (Hacts' : acts = snd <$> news).
  { apply (inj (fmap Some)). rewrite <- Hacts, <- list_fmap_compose. done. }
  subst acts. exists news, commits, mounts, v.
  rewrite Hhp in Hv. split; [done|]. split; [by rewrite Hlen, length_fmap|].
  split; [|split; [done|]].
  - rewrite Hev', Hev. unfold exec_events. destruct (e_Meta o). simpl.
    rewrite <- !app_assoc. do 2 f_equal. simpl. f_equal.
    clear. revert commits. induction news as [|pa news IH]; intros [|r commits];
      simpl; try done. by rewrite IH.
  - rewrite (Hhp' _ (lookup_insert_eq _ _ _)). by destruct v.
Qed.

Lemma notifyCompleted_spec g s u s' :
  notifyCompleted g s = Ok u s' →
  ∃ v x, heap s !! g = Some v ∧ heap s' !! g = Some (with_vtx x v) ∧
         events s' = events s ++ [EvWrite (dgst v) x].
Proof.
  unfold notifyCompleted. intros H. inv_bind H as now s1 H0.
  apply time_Now_Ok in H0 as [-> ->].
  inv_bind H as u1 s2 Hu. apply upd_vertex_Ok in Hu as (v & Hv & ->).
  inv_bind H as v1 s3 Hg. apply get_vertex_Ok in Hg as [Hg ->].
  apply emit_Ok in H as ->. simpl in *. rewrite lookup_insert_eq in Hg.
  injection Hg as <-. eexists v, _. split; [done|]. simpl.
  rewrite lookup_insert_eq. done.
Qed.

(** C2 (as amended). When [solve] evaluates an exec vertex and returns nil
    (the worker call and every commit succeeded), then, with [s1] the state in
    which [runExecOp] starts and [s2] the one in which it returns: a mutable
    ref was requested for each mount that declares an output, in mount order
    ([news]); after the worker call the mutable refs were committed one after
    the other in that same order; [refs] holds the results of the commits in
    that order, so its length is the number of mounts with an output. *)
Theorem exec_refs_after_solve (fuel : nat) (g : nat) (s s' : State)
    (v : opVertex) (o : ExecOp) :
  heap s !! g = Some v →
  ¬ terminal v →
  Op_ (op v) = Op_Exec o →
  solve opt (S fuel) g s = Ok None s' →
  ∃ s1 s2 news commits mounts v',
    runExecOp opt g o s1 = Ok None s2 ∧
    Forall2 (λ m pa, getInputRefForIndex (heap s1) g (m_Input m) = Returned pa.1)
            (output_mounts o) news ∧
    events s2 = events s1 ++ exec_events news (e_Meta o) mounts commits ∧
    length commits = length news ∧
    heap s' !! g = Some v' ∧
    refs v' = commits ∧
    length (refs v') = length (output_mounts o).
Proof.
  intros Hv Hnt Hop. simpl. intros H.
  inv_bind H as v0 s0 Hg. apply get_vertex_Ok in Hg as [Hg ->].
  assert (v0 = v) as -> by congruence.
  destruct (err v) as [e|] eqn:He.
  { exfalso. apply Hnt. left. eauto. }
  destruct (decide (0 < length (refs v))%nat) as [Hr|Hr].
  { exfalso. apply Hnt. right. intros Hn. rewrite Hn in Hr. simpl in Hr. lia. }
  inv_bind H as retErr s1 Hbody. destruct retErr as [e|].
  { inv_bind H as u s2 Hu. by apply ret_Ok in H as [? _]. }
  apply ret_Ok in H as [_ ->].
  inv_bind Hbody as e s2 Hin. destruct e as [e|].
  { by apply ret_Ok in Hbody as [? _]. }
  inv_bind Hbody as u s3 Hs. inv_bind Hbody as r s4 Hrun.
  inv_bind Hbody as u1 s5 Hc. apply ret_Ok in Hbody as [Hnil ->]. subst r.
  rewrite Hop in Hrun. pose proof Hrun as Hrun'.
  apply runExecOp_spec in Hrun as (news & commits & mounts & w & HF & Hlen & Hev & Hw & Hw').
  apply notifyCompleted_spec in Hc as (w' & x & Hw1 & Hw2 & _).
  assert (w' = with_refs commits w) as -> by congruence.
  exists s3, s4, news, commits, mounts, (with_vtx x (with_refs commits w)).
  split; [done|]. split; [done|]. split; [done|]. split; [done|].
  split; [done|]. split; [done|]. simpl.
  rewrite Hlen. symmetry. by eapply Forall2_length.
Qed.

End SolverFacts.

Section SolverExamples.
Import Solver.

Lemma solve_terminal_witness :
  solve example_opt 1 0 solved_state = Ok None solved_state ∧
  solve example_opt 1 2 solved_state = Ok (Some (Errorf "boom")) solved_state.
Proof.
  split.
  - apply (solve_terminal example_opt 0 0 solved_state solved_source).
    + vm_compute. reflexivity.
    + reflexivity.
    + discriminate.
  - apply (solve_terminal example_opt 0 2 solved_state failed_source).
    + vm_compute. reflexivity.
    + reflexivity.
Defined.

Lemma exec_refs_after_solve_witness :
  ∃ s' v', solve example_opt 2 1 solved_state = Ok None s' ∧
           heap s' !! 1%nat = Some v' ∧
           length (refs v') = 2%nat.
Proof.
  destruct (solve example_opt 2 1 solved_state) as [r s'| |] eqn:Hs;
    [|vm_compute in Hs; discriminate..].
  assert (r = None) as -> by (vm_compute in Hs; congruence).
  destruct (exec_refs_after_solve example_opt 1 1 solved_state s'
              (exec_vertex two_outputs)
              (mkExecOp (mkMeta ["make"] [] "/") two_outputs))
    as (s1 & s2 & news & commits & mounts & v' & _ & _ & _ & _ & Hv' & _ & Hlen).
  - vm_compute. reflexivity.
  - intros [[e He]|Hr]; [discriminate|]. by apply Hr.
  - reflexivity.
  - exact Hs.
  - exists s', v'. split; [reflexivity|]. split; [exact Hv'|]. exact Hlen.
Defined.

(** C2 as stated fails in two ways. First: the worker call succeeds, the
    first commit succeeds and the second fails; [solve] returns the error and
    [refs] holds one ref although two mounts declare an output. Second: with
    two mounts whose declared output indices are 1 and 0, the mutable ref of the
    first mount (destination "/", declared index 1) is committed first and its
    result is [refs[0]]: the order is the order of the mounts, not the order
    of the declared output indices. *)
Lemma exec_refs_counterexample :
  (∃ s' e v',
      solve failing_commit_opt 2 1 (example_state two_outputs) = Ok (Some e) s' ∧
      length (worker_mounts (events s')) = 1%nat ∧
      heap s' !! 1%nat = Some v' ∧
      length (refs v') = 1%nat ∧
      length (output_mounts (mkExecOp (mkMeta ["make"] [] "/") two_outputs)) = 2%nat) ∧
  (∃ s' v',
      solve example_opt 2 1 (example_state swapped_outputs) = Ok None s' ∧
      m_Output <$> swapped_outputs = [1; 0] ∧
      (λ m, (m !! "/", m !! "/out")) <$> worker_mounts (events s')
        = [(Some (MountActive 4), Some (MountActive 5))] ∧
      commit_calls (events s')
        = [(4%nat, inr (Some 104%nat)); (5%nat, inr (Some 105%nat))] ∧
      heap s' !! 1%nat = Some v' ∧
      refs v' = [Some 104%nat; Some 105%nat]).
Proof.
  split.
  - eexists _, _, _. split; [vm_compute; reflexivity|].
    repeat split; vm_compute; reflexivity.
  - eexists _, _. split; [vm_compute; reflexivity|].
    repeat split; vm_compute; reflexivity.
Qed.

(** The vertex that [Solve] hands to [solve]: the first input of the
    submitted vertex whenever it has inputs, whatever its operation is, and
    the submitted vertex itself when it has none. *)
Lemma Solve_effective_root (opt : Opt) fuel id g s v e r s' :
  heap s !! g = Some v →
  Solve opt fuel id g s = Ok (e, r) s' →
  r = match inputs v with i :: _ => i | [] => g end.
Proof.
  intros Hv H. unfold Solve in H.
  inv_bind H as v0 s0 Hg. apply get_vertex_Ok in Hg as [Hg ->].
  assert (v0 = v) as -> by congruence.
  inv_bind H as g' s1 Hr.
  assert (g' = match inputs v with i :: _ => i | [] => g end) as Hg'.
  { destruct (inputs v); by apply ret_Ok in Hr as [-> _]. }
  inv_bind H as e1 s2 Hj. destruct e1 as [e1|].
  { apply ret_Ok in H as [H _]. congruence. }
  inv_bind H as e2 s3 Hs. destruct e2 as [e2|].
  { apply ret_Ok in H as [H _]. congruence. }
  inv_bind H as e3 s4 Hrel. apply ret_Ok in H as [H _]. congruence.
Qed.

(** C3, the failing input: the terminal vertex (1) is an exec with one input
    (the source vertex 0). [Solve] hands the input to [solve]: the source is
    pulled, the worker is never called, and the exec vertex is left as it
    was, with no refs. *)
Theorem Solve_drops_terminal_exec :
  ∃ s', Solve example_opt 3 "build" 1 (example_state one_output) = Ok (None, 0%nat) s' ∧
        Op_ (op (exec_vertex one_output))
          = Op_Exec (mkExecOp (mkMeta ["make"] [] "/") one_output) ∧
        heap s' !! 1%nat = Some (exec_vertex one_output) ∧
        existsb is_exec (events s') = false.
Proof.
  eexists. split; [vm_compute; reflexivity|].
  repeat split; vm_compute; reflexivity.
Qed.

End SolverExamples.

(* ===================================================================== *)
(** * Facts about the status walk *)
(* ===================================================================== *)
Section WalkFacts.
Import Solver.
Context (hp : gmap nat opVertex) (rk : nat → nat).
Hypothesis Hdag : dag hp rk.

Lemma elem_of_dgsts d l :
  d ∈ dgsts hp l ↔ ∃ u vu, u ∈ l ∧ hp !! u = Some vu ∧ dgst vu = d.
Proof.
  unfold dgsts. rewrite list_elem_of_omap. split.
  - intros (u & Hu & Hd). destruct (hp !! u) as [vu|] eqn:Hvu; [|done].
    injection Hd as <-. eauto.
  - intros (u & vu & Hu & Hvu & <-). exists u. by rewrite Hvu.
Qed.

Lemma dgsts_app l1 l2 : dgsts hp (l1 ++ l2) = dgsts hp l1 ++ dgsts hp l2.
Proof. apply omap_app. Qed.

Lemma dgsts_singleton u vu : hp !! u = Some vu → dgsts hp [u] = [dgst vu].
Proof. intros H. unfold dgsts. simpl. by rewrite H. Qed.

Lemma reachable_allocated g u : reachable hp g u → is_Some (hp !! u).
Proof. induction 1; done. Qed.

Lemma walk_inv_empty : walk_inv hp (mkWalk ∅ []).
Proof.
  split; [|split; [|split]]; simpl.
  - intros d. split; [set_solver|]. by intros ?%elem_of_nil.
  - constructor.
  - by intros u ?%elem_of_nil.
  - intros i u vu x vx Hi. done.
Qed.

Lemma cache_mono w w' ext d :
  walk_inv hp w → walk_inv hp w' → ch w' = ch w ++ ext → d ∈ cache w → d ∈ cache w'.
Proof.
  intros [Hc _] [Hc' _] Hext Hd. apply Hc'. rewrite Hext, dgsts_app.
  apply elem_of_app. left. by apply Hc.
Qed.

Lemma send_inputs_spec (f : nat → M Walk unit) (bound : nat) :
  (∀ g w, is_Some (hp !! g) → (rk g < bound)%nat → walk_inv hp w →
          ∃ w', f g w = Ok tt w' ∧ send_post hp g w w') →
  ∀ ins w,
    Forall (λ u, is_Some (hp !! u) ∧ (rk u < bound)%nat) ins →
    walk_inv hp w →
    ∃ w', send_inputs f ins w = Ok tt w' ∧
          walk_inv hp w' ∧
          (∃ ext, ch w' = ch w ++ ext ∧
                  ∀ u, u ∈ ext → ∃ i, i ∈ ins ∧ reachable hp i u) ∧
          (∀ i u vu, i ∈ ins → reachable hp i u → hp !! u = Some vu →
                     dgst vu ∈ cache w').
Proof.
  intros Hf. induction ins as [|i ins IH]; intros w Hins Hw; simpl.
  - exists w. split; [done|]. split; [done|]. split.
    + exists []. rewrite app_nil_r. split; [done|]. by intros u ?%elem_of_nil.
    + by intros i u vu ?%elem_of_nil.
  - apply Forall_cons in Hins as [[Hi Hrk] Hins].
    destruct (Hf i w Hi Hrk Hw) as (w1 & Hs1 & Hw1 & (ext1 & Hext1 & Hr1) & Hc1).
    destruct (IH w1 Hins Hw1) as (w2 & Hs2 & Hw2 & (ext2 & Hext2 & Hr2) & Hc2).
    exists w2. split.
    { unfold bind. by rewrite Hs1. }
    split; [done|]. split.
    + exists (ext1 ++ ext2). split.
      * by rewrite Hext2, Hext1, <- app_assoc.
      * intros u [Hu|Hu]%elem_of_app.
        -- exists i. split; [left|]. by apply Hr1.
        -- destruct (Hr2 u Hu) as (i' & Hi' & Hreach). exists i'. split; [by right|done].
    + intros i' u vu [->|Hi']%elem_of_cons Hreach Hvu.
      * eapply cache_mono; [exact Hw1|exact Hw2|exact Hext2|]. by eapply Hc1.
      * by eapply Hc2.
Qed.

Lemma send_spec fuel : ∀ g w,
  is_Some (hp !! g) → (rk g < fuel)%nat → walk_inv hp w →
  ∃ w', send fuel hp g w = Ok tt w' ∧ send_post hp g w w'.
Proof.
  induction fuel as [|fuel IH]; intros g w [v Hv] Hrk Hw; [lia|]. simpl.
  unfold bind at 1. rewrite Hv. simpl.
  destruct (send_inputs_spec (send fuel hp) fuel IH (inputs v) w)
    as (w1 & Hs1 & Hw1 & (ext1 & Hext1 & Hr1) & Hc1); [|done|].
  { eapply Forall_impl; [by eapply Hdag|]. intros u [? ?]. split; [done|lia]. }
  unfold bind at 1. rewrite Hs1. unfold bind, get.
  assert (Hreach_in : ∀ u, u ∈ ext1 → reachable hp g u).
  { intros u Hu. destruct (Hr1 u Hu) as (i & Hi & Hreach). by eapply reach_input. }
  assert (Hcov : ∀ w2, (∀ d, d ∈ cache w1 → d ∈ cache w2) → dgst v ∈ cache w2 →
                       ∀ u vu, reachable hp g u → hp !! u = Some vu → dgst vu ∈ cache w2).
  { intros w2 Hmono Hg u vu Hreach Hvu. inversion Hreach as [? _|? v0 i ? Hv0 Hi Hr]; subst.
    - assert (vu = v) as -> by congruence. done.
    - assert (v0 = v) as -> by congruence. apply Hmono. by eapply Hc1. }
  destruct (decide (dgst v ∈ cache w1)) as [Hin|Hnin].
  - exists w1. split; [done|]. split; [done|]. split; [by eauto|].
    by apply Hcov.
  - eexists. split; [reflexivity|].
    destruct Hw1 as (Hca & Hnd & Hal & Hpo).
    assert (Hinv : walk_inv hp (mkWalk ({[dgst v]} ∪ cache w1) (ch w1 ++ [g]))).
    { split; [|split; [|split]]; simpl.
      - intros d. rewrite dgsts_app, (dgsts_singleton _ _ Hv), elem_of_app,
          list_elem_of_singleton, elem_of_union, elem_of_singleton.
        specialize (Hca d). tauto.
      - rewrite dgsts_app, (dgsts_singleton _ _ Hv). apply NoDup_app.
        split; [done|]. split; [|apply NoDup_singleton].
        intros d Hd ->%list_elem_of_singleton. apply Hnin. by apply Hca.
      - intros u [Hu| ->%list_elem_of_singleton]%elem_of_app; [by apply Hal|by eexists].
      - intros i u vu x vx Hi Hvu Hx Hvx.
        destruct (decide (i < length (ch w1))%nat) as [Hlt|Hge].
        + rewrite lookup_app_l in Hi by done.
          rewrite take_app_le by lia. by eapply Hpo.
        + rewrite lookup_app_r in Hi by lia.
          apply list_lookup_singleton_Some in Hi as [Hi <-].
          assert (i = length (ch w1)) as -> by lia.
          rewrite take_app_length. assert (vu = v) as -> by congruence.
          apply Hca. eapply Hc1; [exact Hx| |exact Hvx].
          apply reach_here. by eexists. }
    split; [done|]. split.
    + exists (ext1 ++ [g]). simpl. split; [by rewrite Hext1, <- app_assoc|].
      intros u [Hu| ->%list_elem_of_singleton]%elem_of_app; [by apply Hreach_in|].
      apply reach_here. by eexists.
    + apply Hcov; simpl.
      * intros d Hd. apply elem_of_union. by right.
      * apply elem_of_union. left. by apply elem_of_singleton.
Qed.

(** C6. On a DAG, the walk that [pipe] starts with sends every vertex
    digest exactly once: the digests of the vertices sent have no duplicates
    and are the digests of the vertices reachable from the root. It sends them
    in post-order: the digest of every input of a vertex sent has been sent
    before that vertex. [pipe] emits one status per vertex sent, in that
    order, holding the [vtx] of the vertex. *)
Theorem walk_post_order (fuel : nat) (o : nat) :
  is_Some (hp !! o) →
  (rk o < fuel)%nat →
  ∃ w msgs,
    walk fuel hp o = Ok tt w ∧
    pipe_walk fuel hp (mkJob o) = Ok msgs w ∧
    Forall2 (λ u m, ∃ vu, hp !! u = Some vu ∧ m = mkSolveStatus [vtx vu]) (ch w) msgs ∧
    NoDup (dgsts hp (ch w)) ∧
    length (dgsts hp (ch w)) = length (ch w) ∧
    (∀ d, d ∈ dgsts hp (ch w) ↔ ∃ u vu, reachable hp o u ∧ hp !! u = Some vu ∧ dgst vu = d) ∧
    postorder hp (ch w).
Proof.
  intros Ho Hrk.
  destruct (send_spec fuel o (mkWalk ∅ []) Ho Hrk walk_inv_empty)
    as (w & Hs & (Hca & Hnd & Hal & Hpo) & (ext & Hext & Hr) & Hcov).
  simpl in Hext. subst ext.
  assert (Hmsgs : ∀ l, (∀ u, u ∈ l → is_Some (hp !! u)) →
            Forall2 (λ u m, ∃ vu, hp !! u = Some vu ∧ m = mkSolveStatus [vtx vu]) l
              (omap (λ l0, (λ v, mkSolveStatus [vtx v]) <$> hp !! l0) l) ∧
            length (dgsts hp l) = length l).
  { induction l as [|u l IH]; intros Hl; simpl; [by split; [constructor|]|].
    destruct (Hl u) as [vu Hvu]; [by left|].
    destruct IH as [IH1 IH2]; [intros u' Hu'; apply Hl; by right|].
    unfold dgsts in *. simpl. rewrite Hvu. simpl. split; [|by rewrite IH2].
    constructor; [by eexists|done]. }
  destruct (Hmsgs (ch w) Hal) as [HF Hlen].
  exists w, (omap (λ l0, (λ v, mkSolveStatus [vtx v]) <$> hp !! l0) (ch w)).
  split; [exact Hs|]. split.
  { unfold pipe_walk, walk. simpl. by rewrite Hs. }
  split; [done|]. split; [done|]. split; [done|]. split; [|done].
  intros d. split.
  - intros (u & vu & Hu & Hvu & Hd)%elem_of_dgsts. exists u, vu. split; [by apply Hr|done].
  - intros (u & vu & Hreach & Hvu & <-). apply Hca. by eapply Hcov.
Qed.

End WalkFacts.

Section WalkExamples.
Import Solver.

Lemma walk_post_order_witness :
  ∃ w, walk 4 diamond 3 = Ok tt w ∧ ch w = [0; 1; 2; 3]%nat ∧
       dgsts diamond (ch w) = ["sha256:a"; "sha256:b"; "sha256:c"; "sha256:d"] ∧
       postorder diamond (ch w).
Proof.
  destruct (walk_post_order diamond (λ g, g) ) with (fuel := 4%nat) (o := 3%nat)
    as (w & msgs & Hw & _ & _ & _ & _ & _ & Hpo).
  - unfold dag. compute_done.
  - by eexists.
  - lia.
  - exists w. split; [exact Hw|].
    assert (ch w = [0; 1; 2; 3]%nat) as Hch
      by (vm_compute in Hw; injection Hw as <-; reflexivity).
    split; [exact Hch|]. split; [rewrite Hch; vm_compute; reflexivity|exact Hpo].
Defined.

End WalkExamples.

(* ===================================================================== *)
(** * Facts about the ref store *)
(* ===================================================================== *)
Section CacheFacts.
Import Cache.
Context (ext : list ExtCall → ExtCall → option error).
Context (snapshotterName : string).
Context (digest_FromString : string → Digest).

Lemma get_rec_Ok cr s r s' : get_rec cr s = Ok r s' → recs s !! cr = Some r ∧ s' = s.
Proof.
  unfold get_rec. intros H. inv_bind H as s0 s1 H0. apply get_Ok in H0 as [-> ->].
  by apply deref_or_panic_Ok in H.
Qed.

Lemma get_rec_lookup cr s r : recs s !! cr = Some r → get_rec cr s = Ok r s.
Proof. intros H. unfold get_rec, bind, get. by rewrite H. Qed.

Lemma get_iref_Ok l s h s' : get_iref l s = Ok h s' → irefs s !! l = Some h ∧ s' = s.
Proof.
  unfold get_iref. intros H. inv_bind H as s0 s1 H0. apply get_Ok in H0 as [-> ->].
  by apply deref_or_panic_Ok in H.
Qed.

Lemma get_iref_lookup l s h : irefs s !! l = Some h → get_iref l s = Ok h s.
Proof. intros H. unfold get_iref, bind, get. by rewrite H. Qed.

Lemma get_mref_Ok l s h s' : get_mref l s = Ok h s' → mrefs s !! l = Some h ∧ s' = s.
Proof.
  unfold get_mref. intros H. inv_bind H as s0 s1 H0. apply get_Ok in H0 as [-> ->].
  by apply deref_or_panic_Ok in H.
Qed.

Lemma get_mref_lookup l s h : mrefs s !! l = Some h → get_mref l s = Ok h s.
Proof. intros H. unfold get_mref, bind, get. by rewrite H. Qed.

Lemma upd_rec_Ok cr f s u s' :
  upd_rec cr f s = Ok u s' →
  ∃ r, recs s !! cr = Some r ∧ s' = set_recs <[cr := f r]> s.
Proof.
  unfold upd_rec. intros H. inv_bind H as r s1 H0. apply get_rec_Ok in H0 as [Hr ->].
  apply modify_Ok in H. eauto.
Qed.

Lemma upd_rec_lookup cr f s r :
  recs s !! cr = Some r → upd_rec cr f s = Ok tt (set_recs <[cr := f r]> s).
Proof. intros H. unfold upd_rec, bind. by rewrite (get_rec_lookup _ _ _ H). Qed.

Lemma ext_call_Ok c s e s' :
  ext_call ext c s = Ok e s' →
  e = ext (trace s) c ∧ s' = set_trace (λ t, t ++ [c]) s.
Proof. by intros [= <- <-]. Qed.

Lemma updateLastUsed_lookup cr s r :
  recs s !! cr = Some r →
  updateLastUsed cr s
  = Ok tt (set_recs <[cr := with_md (stamp (clock s)) r]> (set_clock (clock s + 1) s)).
Proof.
  intros H. unfold updateLastUsed, bind, time_Now.
  by rewrite (upd_rec_lookup _ _ (set_clock _ s) r H).
Qed.

(** The part of [mutableRef.release] that both retain branches run:
    [if sr.updateLastUsed() { updateLastUsed(sr.md); sr.triggerLastUsed = false }]
    after the handle was removed from [refs]. *)
Lemma mutableRef_release_retained fuel sr s h r :
  mrefs s !! sr = Some h →
  recs s !! m_cacheRecord h = Some r →
  (getCachePolicy (md r) = cachePolicyRetain ∨
   ∃ ei eh er, equalImmutable r = Some ei ∧ irefs s !! ei = Some eh ∧
               recs s !! i_cacheRecord eh = Some er ∧
               getCachePolicy (md er) = cachePolicyRetain) →
  ∃ s' r',
    mutableRef_release ext (S fuel) sr s = Ok None s' ∧
    records s' = records s ∧ trace s' = trace s ∧ spawned s' = spawned s ∧
    irefs s' = irefs s ∧
    (∀ l, l ≠ m_cacheRecord h → recs s' !! l = recs s !! l) ∧
    (∀ l, l ≠ sr → mrefs s' !! l = mrefs s !! l) ∧
    mrefs s' !! sr = Some (mkMRef (m_cacheRecord h) false) ∧
    recs s' !! m_cacheRecord h = Some r' ∧
    r' = with_md (if m_triggerLastUsed h then stamp (clock s) else λ m, m)
                 (with_refs (λ rs, rs ∖ {[MRef sr]}) r).
Proof.
  intros Hh Hr Hpol. simpl.
  unfold bind at 1. rewrite (get_mref_lookup _ _ _ Hh).
  unfold bind at 1. rewrite (upd_rec_lookup _ _ _ _ Hr).
  set (r1 := with_refs (λ rs, rs ∖ {[MRef sr]}) r).
  set (s1 := set_recs <[m_cacheRecord h := r1]> s).
  assert (Hr1 : recs s1 !! m_cacheRecord h = Some r1) by apply lookup_insert_eq.
  assert (Hh1 : mrefs s1 !! sr = Some h) by done.
  unfold bind at 1. rewrite (get_rec_lookup _ _ _ Hr1).
  assert (Htouch :
    ∃ s' r',
      (h0 <- get_mref sr ;;
       if m_triggerLastUsed h0
       then updateLastUsed (m_cacheRecord h) ;;
            modify (set_mrefs <[sr := mkMRef (m_cacheRecord h0) false]>)
       else ret tt)%go s1 = Ok tt s' ∧
      records s' = records s ∧ trace s' = trace s ∧ spawned s' = spawned s ∧
      irefs s' = irefs s ∧
      (∀ l, l ≠ m_cacheRecord h → recs s' !! l = recs s !! l) ∧
      (∀ l, l ≠ sr → mrefs s' !! l = mrefs s !! l) ∧
      mrefs s' !! sr = Some (mkMRef (m_cacheRecord h) false) ∧
      recs s' !! m_cacheRecord h = Some r' ∧
      r' = with_md (if m_triggerLastUsed h then stamp (clock s) else λ m, m) r1).
  { unfold bind at 1. rewrite (get_mref_lookup _ _ _ Hh1).
    destruct (m_triggerLastUsed h) eqn:Ht.
    - unfold bind at 1. rewrite (updateLastUsed_lookup _ _ _ Hr1).
      eexists _, _. split; [reflexivity|]. simpl.
      repeat (split; [done|]). split; [|split; [|split; [|split]]].
      + intros l Hl. by rewrite !lookup_insert_ne.
      + intros l Hl. by rewrite lookup_insert_ne.
      + by rewrite lookup_insert_eq.
      + by rewrite lookup_insert_eq.
      + done.
    - eexists s1, _. split; [reflexivity|]. simpl.
      repeat (split; [done|]). split; [|split; [|split; [|split]]].
      + intros l Hl. by rewrite lookup_insert_ne.
      + done.
      + rewrite Hh. destruct h. simpl in *. by subst.
      + by rewrite lookup_insert_eq.
      + by destruct r1 as [? ? ? []]. }
  destruct Htouch as (s' & r' & Ht & Hres).
  destruct (decide (getCachePolicy (md r1) ≠ cachePolicyRetain)) as [Hnr|Hret].
  - destruct Hpol as [Hret|(ei & eh & er & Hei & Heh & Her & Hpol)]; [done|].
    unfold r1 at 1. simpl. rewrite Hei.
    assert (Heh1 : irefs s1 !! ei = Some eh) by done.
    assert (∃ er1, recs s1 !! i_cacheRecord eh = Some er1 ∧
                   getCachePolicy (md er1) = cachePolicyRetain) as (er1 & Her1 & Hpol1).
    { destruct (decide (i_cacheRecord eh = m_cacheRecord h)) as [Heq|Hne].
      - exists r1. rewrite Heq. split; [done|].
        rewrite Heq in Her. assert (er = r) as -> by congruence. done.
      - exists er. split; [|done]. simpl. by rewrite lookup_insert_ne. }
    unfold bind at 1. unfold bind at 1. rewrite (get_iref_lookup _ _ _ Heh1).
    unfold bind at 1. rewrite (get_rec_lookup _ _ _ Her1).
    rewrite decide_True by done.
    unfold bind at 1. rewrite Ht. simpl. exists s', r'. done.
  - unfold bind at 1. rewrite Ht. simpl. exists s', r'. done.
Qed.

(** C9. Releasing a mutable ref whose own cache policy is not retain but
    whose equal-immutable's policy is retain deletes nothing: [release]
    returns nil, [cm.records] is as before (the record stays in the live
    map), no collaborator is called (the lease is not deleted), no other
    record and no immutable handle changes (the parent is not released); the
    record only loses the handle from [refs] and, when the handle had
    [triggerLastUsed], gets a new last-used timestamp. And whenever a release
    of a mutable ref changes [cm.records] or calls a collaborator, neither the
    mutable nor its equal-immutable has the retain policy. *)
Theorem mutable_release_spares_retained (fuel : nat) (sr : nat) (s : State)
    (h : mutableRef) (r : cacheRecord) :
  mrefs s !! sr = Some h →
  recs s !! m_cacheRecord h = Some r →
  (∀ ei eh er,
      getCachePolicy (md r) ≠ cachePolicyRetain →
      equalImmutable r = Some ei →
      irefs s !! ei = Some eh →
      recs s !! i_cacheRecord eh = Some er →
      getCachePolicy (md er) = cachePolicyRetain →
      ∃ s' r',
        mutableRef_release ext (S fuel) sr s = Ok None s' ∧
        records s' = records s ∧
        trace s' = trace s ∧
        spawned s' = spawned s ∧
        irefs s' = irefs s ∧
        (∀ l, l ≠ m_cacheRecord h → recs s' !! l = recs s !! l) ∧
        recs s' !! m_cacheRecord h = Some r' ∧
        refs r' = refs r ∖ {[MRef sr]} ∧
        parent r' = parent r ∧
        equalImmutable r' = equalImmutable r ∧
        dead r' = dead r ∧
        (md r' = md r ∨ md r' = stamp (clock s) (md r))) ∧
  (∀ e s',
      mutableRef_release ext fuel sr s = Ok e s' →
      records s' ≠ records s ∨ trace s' ≠ trace s →
      getCachePolicy (md r) ≠ cachePolicyRetain ∧
      ∀ ei eh er,
        equalImmutable r = Some ei →
        irefs s !! ei = Some eh →
        recs s !! i_cacheRecord eh = Some er →
        getCachePolicy (md er) ≠ cachePolicyRetain).
Proof.
  intros Hh Hr. split.
  - intros ei eh er Hnr Hei Heh Her Hpol.
    destruct (mutableRef_release_retained fuel sr s h r Hh Hr)
      as (s' & r' & Hrel & Hrecs & Htr & Hsp & Hir & Hoth & _ & _ & Hr' & ->).
    { right. by exists ei, eh, er. }
    exists s', (with_md (if m_triggerLastUsed h then stamp (clock s) else λ m, m)
                  (with_refs (λ rs, rs ∖ {[MRef sr]}) r)).
    repeat (split; [done|]). simpl. destruct (m_triggerLastUsed h); [by right|by left].
  - intros e s' Hrel Hchg. destruct fuel as [|fuel]; [done|].
    assert (Hkeep : getCachePolicy (md r) = cachePolicyRetain ∨
              (∃ ei eh er, equalImmutable r = Some ei ∧ irefs s !! ei = Some eh ∧
                 recs s !! i_cacheRecord eh = Some er ∧
                 getCachePolicy (md er) = cachePolicyRetain) → False).
    { intros Hpol.
      destruct (mutableRef_release_retained fuel sr s h r Hh Hr Hpol)
        as (s0 & r' & Hrel' & Hrecs & Htr & _).
      rewrite Hrel in Hrel'. injection Hrel' as _ <-. by destruct Hchg. }
    split.
    + intros Hp. apply Hkeep. by left.
    + intros ei eh er Hei Heh Her Hp. apply Hkeep. right. by exists ei, eh, er.
Qed.

Lemma frame_refl cr s : frame cr s s.
Proof. split; [done|]. intros l. destruct (recs s !! l); by constructor. Qed.

Lemma frame_trans cr s1 s2 s3 : frame cr s1 s2 → frame cr s2 s3 → frame cr s1 s3.
Proof.
  intros [Hi1 H1] [Hi2 H2]. split; [congruence|]. intros l.
  specialize (H1 l). specialize (H2 l).
  destruct H1 as [r r' (Hp & Hid & Hmd)|]; inversion H2 as [? r'' (Hp' & Hid' & Hmd')|];
    subst; constructor.
  split; [congruence|]. split; [congruence|]. intros Hl. rewrite Hmd', Hmd; done.
Qed.

Lemma frame_lookup cr s s' l r :
  frame cr s s' → recs s !! l = Some r →
  ∃ r', recs s' !! l = Some r' ∧ parent r' = parent r ∧
        md_ID (md r') = md_ID (md r) ∧ (l ≠ cr → md r' = md r).
Proof.
  intros [_ H] Hr. specialize (H l). rewrite Hr in H.
  inversion H as [? r' ?|]; subst. eauto.
Qed.

Lemma frame_lookup_inv cr s s' l r' :
  frame cr s s' → recs s' !! l = Some r' →
  ∃ r, recs s !! l = Some r ∧ parent r' = parent r ∧
       md_ID (md r') = md_ID (md r) ∧ (l ≠ cr → md r' = md r).
Proof.
  intros [_ H] Hr. specialize (H l). rewrite Hr in H.
  inversion H as [r ? ?|]; subst. eauto.
Qed.

Lemma frame_upd_rec cr l f s u s' :
  upd_rec l f s = Ok u s' →
  (∀ r, parent (f r) = parent r) →
  (∀ r, md_ID (md (f r)) = md_ID (md r)) →
  (l ≠ cr → ∀ r, md (f r) = md r) →
  frame cr s s'.
Proof.
  intros (r0 & Hr0 & ->)%upd_rec_Ok Hp Hid Hmd. split; [done|].
  intros l'. simpl. destruct (decide (l' = l)) as [->|Hne].
  - rewrite lookup_insert_eq, Hr0. constructor.
    split; [done|]. split; [done|]. intros Hl. by apply Hmd.
  - rewrite lookup_insert_ne by done. destruct (recs s !! l'); by constructor.
Qed.

Lemma frame_same_heap cr s s' : recs s' = recs s → irefs s' = irefs s → frame cr s s'.
Proof.
  intros Hr Hi. split; [done|]. intros l. rewrite Hr.
  destruct (recs s !! l); by constructor.
Qed.

Lemma md_ID_fold q : ∀ si, md_ID (fold_left apply_update q si) = md_ID si.
Proof.
  induction q as [|u q IH]; intros si; simpl; [done|]. rewrite IH. by destruct u.
Qed.

Lemma md_ID_committed si : md_ID (committed si) = md_ID si.
Proof. unfold committed. by rewrite md_ID_fold. Qed.

Lemma committed_queue u si : committed (queue u si) = apply_update (committed si) u.
Proof. unfold committed, queue. cbn [md_queue]. by rewrite fold_left_app. Qed.

Lemma md_Commit_frame cr s e s' : md_Commit ext cr s = Ok e s' → frame cr s s'.
Proof.
  unfold md_Commit. intros H. inv_bind H as r s1 Hr. apply get_rec_Ok in Hr as [Hr ->].
  inv_bind H as e1 s2 He. apply ext_call_Ok in He as [-> ->].
  destruct (ext _ _).
  - apply ret_Ok in H as [_ ->]. by apply frame_same_heap.
  - inv_bind H as u s3 Hp. apply modify_Ok in Hp as ->. apply ret_Ok in H as [_ ->].
    split; [done|]. intros l. simpl.
    destruct (decide (l = cr)) as [->|Hne].
    + rewrite lookup_insert_eq. simpl in Hr. rewrite Hr. constructor.
      simpl. split; [done|]. split; [apply md_ID_committed|done].
    + rewrite lookup_insert_ne by done. destruct (recs s !! l); by constructor.
Qed.

(** [finalize(ctx, true)] keeps the immutable handles, the parents and the
    metadata of the other records. *)
Lemma finalize_frame cr s e s' : finalize ext snapshotterName cr true s = Ok e s' → frame cr s s'.
Proof.
  unfold finalize. intros H. inv_bind H as r s1 Hr. apply get_rec_Ok in Hr as [Hr ->].
  destruct (equalMutable r) as [m|].
  2:{ apply ret_Ok in H as [_ ->]. apply frame_refl. }
  inv_bind H as mh s1 Hm. apply get_mref_Ok in Hm as [Hm ->].
  inv_bind H as mr s1 Hmr. apply get_rec_Ok in Hmr as [Hmr ->]. simpl in H.
  inv_bind H as e1 s1 He. apply ext_call_Ok in He as [-> ->].
  destruct (ext _ _).
  { apply ret_Ok in H as [_ ->]. by apply frame_same_heap. }
  inv_bind H as u1 s2 Hd.
  apply (frame_upd_rec cr) in Hd; [|done|done|done].
  inv_bind H as u2 s3 Hs. apply modify_Ok in Hs as ->.
  inv_bind H as now s4 Hn. injection Hn as <- <-.
  inv_bind H as e2 s5 He. apply ext_call_Ok in He as [-> ->].
  assert (Hf : frame cr s
            (set_trace (λ t, t ++ [LeaseManager_Create (cacheRecord_ID r) (clock s2)])
               (set_clock (clock s2 + 1)
                  (set_spawned (λ ts, ts ++ [GoRemove (m_cacheRecord mh) true]) s2)))).
  { eapply frame_trans; [|exact Hd]. by apply frame_same_heap. }
  destruct (ext _ _).
  { by apply ret_Ok in H as [_ ->]. }
  inv_bind H as e3 s6 He. apply ext_call_Ok in He as [-> ->].
  destruct (ext _ _).
  { apply ret_Ok in H as [_ ->]. eapply frame_trans; [exact Hf|]. by apply frame_same_heap. }
  inv_bind H as u3 s7 Hu. apply (frame_upd_rec cr) in Hu; [|done|done|done].
  inv_bind H as u4 s8 Hq. apply (frame_upd_rec cr) in Hq; [|done|done|done].
  apply md_Commit_frame in H.
  eapply frame_trans; [exact Hf|]. eapply frame_trans; [|exact H].
  eapply frame_trans; [|exact Hq]. eapply frame_trans; [|exact Hu].
  by apply frame_same_heap.
Qed.

(** Once a ChainID is set, [SetBlob] looks the blob up in the content store
    and returns: nothing else is called and the store of records is as it
    was. *)
Lemma SetBlob_noop sr diffID blob s h r :
  irefs s !! sr = Some h →
  recs s !! i_cacheRecord h = Some r →
  getChainID (md r) ≠ "" →
  SetBlob ext snapshotterName digest_FromString sr diffID blob s
  = Ok (ext (trace s) (ContentStore_Info blob))
       (set_trace (λ t, t ++ [ContentStore_Info blob]) s).
Proof.
  intros Hh Hr Hc. unfold SetBlob.
  unfold bind at 1. rewrite (get_iref_lookup _ _ _ Hh).
  unfold bind at 1. unfold ext_call at 1.
  destruct (ext (trace s) (ContentStore_Info blob)) as [e|]; [done|].
  unfold bind at 1.
  rewrite (get_rec_lookup _ (set_trace _ s) r) by done.
  destruct (String.eqb (getChainID (md r)) "") eqn:Heq; [|done].
  by apply String.eqb_eq in Heq.
Qed.

Lemma upd_rec_total l f s :
  is_Some (recs s !! l) →
  ∃ s', upd_rec l f s = Ok tt s' ∧
        mrefs s' = mrefs s ∧
        ∀ l', is_Some (recs s !! l') → is_Some (recs s' !! l').
Proof.
  intros [r Hr]. eexists. split; [by apply upd_rec_lookup|]. split; [done|].
  intros l' Hl'. simpl. destruct (decide (l' = l)) as [->|Hne].
  - rewrite lookup_insert_eq. by eexists.
  - by rewrite lookup_insert_ne.
Qed.

Lemma md_Commit_total cr s :
  is_Some (recs s !! cr) → ∃ e s', md_Commit ext cr s = Ok e s'.
Proof.
  intros [r Hr]. unfold md_Commit. unfold bind at 1. rewrite (get_rec_lookup _ _ _ Hr).
  unfold bind at 1, ext_call. destruct (ext _ _); eexists _, _; reflexivity.
Qed.

(** [finalize(ctx, true)] returns when the equal-mutable of the record, if
    there is one, is allocated. *)
Lemma finalize_total cr s r :
  recs s !! cr = Some r →
  (∀ m, equalMutable r = Some m →
        ∃ mh, mrefs s !! m = Some mh ∧ is_Some (recs s !! m_cacheRecord mh)) →
  ∃ e s', finalize ext snapshotterName cr true s = Ok e s'.
Proof.
  intros Hr Hm. unfold finalize. unfold bind at 1. rewrite (get_rec_lookup _ _ _ Hr).
  destruct (equalMutable r) as [m|]; [|by eexists _, _].
  destruct (Hm m eq_refl) as (mh & Hmh & [mr Hmr]).
  unfold bind at 1. rewrite (get_mref_lookup _ _ _ Hmh).
  unfold bind at 1. rewrite (get_rec_lookup _ _ _ Hmr). simpl.
  unfold bind at 1, ext_call at 1. destruct (ext _ _); [by eexists _, _|].
  set (s1 := set_trace _ s).
  destruct (upd_rec_total (m_cacheRecord mh) (with_dead true) s1)
    as (s2 & Hu & _ & Hal); [by eexists|].
  unfold bind at 1. rewrite Hu.
  unfold bind at 1, modify at 1. unfold bind at 1, time_Now at 1.
  unfold bind at 1, ext_call at 1. destruct (ext _ _); [by eexists _, _|].
  unfold bind at 1, ext_call at 1. destruct (ext _ _); [by eexists _, _|].
  unfold bind at 1.
  match goal with |- context [upd_rec cr (with_equalMutable None) ?st] =>
    destruct (upd_rec_total cr (with_equalMutable None) st) as (s3 & Hu3 & _ & Hal3)
  end.
  { simpl. apply Hal. by eexists. }
  rewrite Hu3.
  destruct (upd_rec_total cr (with_md (queue UClearEqualMutable)) s3)
    as (s4 & Hu4 & _ & Hal4).
  { apply Hal3. simpl. apply Hal. by eexists. }
  unfold bind at 1. rewrite Hu4.
  apply md_Commit_total. apply Hal4, Hal3. simpl. apply Hal. by eexists.
Qed.

Lemma committed_queued si d b c bc :
  let si' := committed (queue (UBlobChainID bc) (queue (UChainID c)
                          (queue (UBlob b) (queue (UDiffID d) si)))) in
  md_diffID si' = d ∧ md_blob si' = b ∧ md_chainID si' = c ∧ md_blobChainID si' = bc.
Proof. cbv zeta. rewrite !committed_queue. done. Qed.

(** The parent test of [SetBlob], run in a state [s2] that [frame]s [s]:
    it panics on no allocated parent, and it reads the chain ids that the
    parent had in [s]. *)
Lemma SetBlob_parent_test cr s s2 r (r1 : cacheRecord) pres s3 :
  frame cr s s2 →
  recs s !! cr = Some r →
  parent r1 = parent r →
  (∀ p ph, parent r = Some p → irefs s !! p = Some ph → i_cacheRecord ph ≠ cr) →
  match parent r1 with
  | None => ret (inr ("", ""))
  | Some p =>
      (pInfo <- Info p ;;
       if String.eqb (ChainID pInfo) "" || String.eqb (BlobChainID pInfo) ""
       then ret (inl (Errorf
              "failed to set blob for reference with non-addressable parent"))
       else ret (inr (ChainID pInfo, BlobChainID pInfo)))%go
  end s2 = Ok pres s3 →
  s3 = s2 ∧
  match pres with
  | inl _ => ∃ pr, parent_record s r pr ∧
                   (md_chainID (md pr) = "" ∨ md_blobChainID (md pr) = "")
  | inr (pc, pbc) =>
      (parent r = None ∧ pc = "" ∧ pbc = "") ∨
      (∃ pr, parent_record s r pr ∧ pc = md_chainID (md pr) ∧
             pbc = md_blobChainID (md pr) ∧ pc ≠ "" ∧ pbc ≠ "")
  end.
Proof.
  intros Hfr Hr Hp1 Hself Hpres. rewrite Hp1 in Hpres.
  destruct (parent r) as [p|] eqn:Hpar.
  - inv_bind Hpres as pInfo s4 Hinfo. unfold Info in Hinfo.
    inv_bind Hinfo as ph s5 Hph. apply get_iref_Ok in Hph as [Hph ->].
    inv_bind Hinfo as pr1 s5 Hpr1. apply get_rec_Ok in Hpr1 as [Hpr1 ->].
    apply ret_Ok in Hinfo as [-> ->]. rewrite (proj1 Hfr) in Hph.
    destruct (frame_lookup_inv _ _ _ _ _ Hfr Hpr1) as (pr & Hpr & _ & _ & Hmd).
    unfold Info_of, getChainID, getBlobChainID in Hpres. simpl in Hpres.
    rewrite Hmd in Hpres by (by eapply Hself).
    assert (Hprec : parent_record s r pr) by (by exists p, ph).
    destruct (String.eqb (md_chainID (md pr)) "") eqn:Hc1; simpl in Hpres.
    { apply ret_Ok in Hpres as [-> ->]. split; [done|]. exists pr. split; [done|].
      left. by apply String.eqb_eq. }
    destruct (String.eqb (md_blobChainID (md pr)) "") eqn:Hc2; simpl in Hpres.
    { apply ret_Ok in Hpres as [-> ->]. split; [done|]. exists pr. split; [done|].
      right. by apply String.eqb_eq. }
    apply ret_Ok in Hpres as [-> ->]. split; [done|]. right.
    apply String.eqb_neq in Hc1, Hc2. by exists pr.
  - apply ret_Ok in Hpres as [-> ->]. split; [done|]. by left.
Qed.

(** What a [SetBlob] that returns nil on a record without a ChainID has done. *)
Lemma SetBlob_success sr diffID blob s s' h r :
  irefs s !! sr = Some h →
  recs s !! i_cacheRecord h = Some r →
  getChainID (md r) = "" →
  (∀ p ph, parent r = Some p → irefs s !! p = Some ph →
           i_cacheRecord ph ≠ i_cacheRecord h) →
  SetBlob ext snapshotterName digest_FromString sr diffID blob s = Ok None s' →
  frame (i_cacheRecord h) s s' ∧
  ∃ r' pc pbc,
    recs s' !! i_cacheRecord h = Some r' ∧
    ((parent r = None ∧ pc = "" ∧ pbc = "") ∨
     (∃ pr, parent_record s r pr ∧ pc = md_chainID (md pr) ∧
            pbc = md_blobChainID (md pr) ∧ pc ≠ "" ∧ pbc ≠ "")) ∧
    md_diffID (md r') = diffID ∧
    md_blob (md r') = blob ∧
    md_chainID (md r')
      = (if negb (String.eqb pc "")
         then identity_ChainID digest_FromString [pc; diffID] else diffID) ∧
    md_blobChainID (md r')
      = (if negb (String.eqb pc "")
         then identity_ChainID digest_FromString
                [pbc; identity_ChainID digest_FromString [blob; diffID]]
         else identity_ChainID digest_FromString [blob; diffID]).
Proof.
  intros Hh Hr Hc Hself. unfold SetBlob. intros H.
  inv_bind H as h0 s0 Hg. apply get_iref_Ok in Hg as [Hg ->].
  assert (h0 = h) as -> by congruence. set (cr := i_cacheRecord h) in *.
  inv_bind H as e1 s1 He. apply ext_call_Ok in He as [-> ->].
  destruct (ext _ _); [by apply ret_Ok in H as [? _]|].
  inv_bind H as r0 s1 Hr0. apply get_rec_Ok in Hr0 as [Hr0 ->]. simpl in Hr0.
  assert (r0 = r) as -> by congruence.
  unfold getChainID in *. rewrite Hc in H. simpl in H.
  inv_bind H as e2 s2 Hfin. pose proof (finalize_frame _ _ _ _ Hfin) as Hfr.
  destruct e2; [by apply ret_Ok in H as [? _]|].
  assert (Hfr0 : frame cr s s2).
  { eapply frame_trans; [|exact Hfr]. by apply frame_same_heap. }
  clear Hfin Hfr.
  inv_bind H as r1 s3 Hr1. apply get_rec_Ok in Hr1 as [Hr1 ->].
  destruct (frame_lookup _ _ _ _ _ Hfr0 Hr) as (r1' & Hr1' & Hp1 & Hid1 & _).
  assert (r1' = r1) as -> by congruence. clear Hr1'.
  inv_bind H as pres s3 Hpres.
  apply (SetBlob_parent_test cr s s2 r r1) in Hpres as [-> Hpres]; [|done..].
  destruct pres as [e|[pc pbc]]; [by apply ret_Ok in H as [? _]|].
  inv_bind H as e3 s3 He. apply ext_call_Ok in He as [-> ->].
  destruct (ext _ _); [by apply ret_Ok in H as [? _]|].
  inv_bind H as u1 s4 Hu1. pose proof (frame_upd_rec cr _ _ _ _ _ Hu1) as Hf1.
  apply upd_rec_Ok in Hu1 as (ra & Hra & ->). simpl in Hra.
  assert (ra = r1) as -> by congruence.
  inv_bind H as u2 s5 Hu2. pose proof (frame_upd_rec cr _ _ _ _ _ Hu2) as Hf2.
  apply upd_rec_Ok in Hu2 as (rb & Hrb & ->). simpl in Hrb.
  rewrite lookup_insert_eq in Hrb. injection Hrb as <-.
  inv_bind H as u3 s6 Hu3. pose proof (frame_upd_rec cr _ _ _ _ _ Hu3) as Hf3.
  apply upd_rec_Ok in Hu3 as (rc & Hrc & ->). simpl in Hrc.
  rewrite lookup_insert_eq in Hrc. injection Hrc as <-.
  inv_bind H as u4 s7 Hu4. pose proof (frame_upd_rec cr _ _ _ _ _ Hu4) as Hf4.
  apply upd_rec_Ok in Hu4 as (rd & Hrd & ->). simpl in Hrd.
  rewrite lookup_insert_eq in Hrd. injection Hrd as <-.
  pose proof (md_Commit_frame _ _ _ _ H) as Hf5.
  unfold md_Commit in H. inv_bind H as re s8 Hre. apply get_rec_Ok in Hre as [Hre ->].
  simpl in Hre. rewrite lookup_insert_eq in Hre. injection Hre as <-.
  inv_bind H as e4 s8 He. apply ext_call_Ok in He as [-> ->].
  destruct (ext _ _); [by apply ret_Ok in H as [? _]|].
  inv_bind H as u5 s9 Hp. apply modify_Ok in Hp as ->. apply ret_Ok in H as [_ ->].
  split.
  { eapply frame_trans; [exact Hfr0|]. eapply frame_trans; [|exact Hf5].
    eapply frame_trans; [|apply Hf4; done]. eapply frame_trans; [|apply Hf3; done].
    eapply frame_trans; [|apply Hf2; done]. eapply frame_trans; [|apply Hf1; done].
    by apply frame_same_heap. }
  eexists _, pc, pbc. split; [simpl; apply lookup_insert_eq|].
  split; [exact Hpres|]. cbn [md with_md].
  destruct (committed_queued (md r1) diffID blob
              (if negb (String.eqb pc "")
               then identity_ChainID digest_FromString [pc; diffID] else diffID)
              (if negb (String.eqb pc "")
               then identity_ChainID digest_FromString
                      [pbc; identity_ChainID digest_FromString [blob; diffID]]
               else identity_ChainID digest_FromString [blob; diffID]))
    as (Hd & Hb & Hci & Hbci).
  done.
Qed.

(** [SetBlob] returns (it does not dereference an unallocated pointer) when
    the equal-mutable and the parent of the record are allocated. *)
Lemma SetBlob_total sr diffID blob s h r :
  irefs s !! sr = Some h →
  recs s !! i_cacheRecord h = Some r →
  (∀ m, equalMutable r = Some m →
        ∃ mh, mrefs s !! m = Some mh ∧ is_Some (recs s !! m_cacheRecord mh)) →
  (∀ p, parent r = Some p →
        ∃ ph, irefs s !! p = Some ph ∧ is_Some (recs s !! i_cacheRecord ph)) →
  ∃ e s', SetBlob ext snapshotterName digest_FromString sr diffID blob s = Ok e s'.
Proof.
  intros Hh Hr Hm Hp. unfold SetBlob.
  unfold bind at 1. rewrite (get_iref_lookup _ _ _ Hh).
  unfold bind at 1, ext_call at 1. destruct (ext _ _); [by eexists _, _|].
  set (s1 := set_trace _ s).
  unfold bind at 1. rewrite (get_rec_lookup _ s1 r) by done.
  destruct (negb _); [by eexists _, _|].
  destruct (finalize_total (i_cacheRecord h) s1 r) as (e & s2 & Hfin); [done|done|].
  pose proof (finalize_frame _ _ _ _ Hfin) as Hfr.
  unfold bind at 1. rewrite Hfin. destruct e; [by eexists _, _|].
  destruct (frame_lookup _ _ _ _ _ Hfr Hr) as (r1 & Hr1 & Hp1 & _).
  unfold bind at 1. rewrite (get_rec_lookup _ _ _ Hr1).
  assert (Hal : ∀ l, is_Some (recs s !! l) → is_Some (recs s2 !! l)).
  { intros l [x Hx]. destruct (frame_lookup _ _ _ _ _ Hfr Hx) as (x' & Hx' & _).
    by eexists. }
  assert (∃ pres, match parent r1 with
     | None => ret (inr ("", ""))
     | Some p =>
         (pInfo <- Info p ;;
          if String.eqb (ChainID pInfo) "" || String.eqb (BlobChainID pInfo) ""
          then ret (inl (Errorf
                 "failed to set blob for reference with non-addressable parent"))
          else ret (inr (ChainID pInfo, BlobChainID pInfo)))%go
     end s2 = Ok pres s2) as [pres Hpres].
  { rewrite Hp1. destruct (parent r) as [p|]; [|by eexists].
    destruct (Hp p eq_refl) as (ph & Hph & Hpr). apply Hal in Hpr as [pr Hpr].
    unfold Info. unfold bind at 1. unfold bind at 1.
    rewrite (get_iref_lookup _ s2 ph) by (by rewrite (proj1 Hfr)).
    unfold bind at 1. rewrite (get_rec_lookup _ _ _ Hpr). unfold ret at 1.
    destruct (_ || _); by eexists. }
  unfold bind at 1. rewrite Hpres. destruct pres as [e|[pc pbc]]; [by eexists _, _|].
  unfold bind at 1, ext_call at 1. destruct (ext _ _); [by eexists _, _|].
  unfold bind at 1.
  match goal with |- context [upd_rec _ ?f ?st] =>
    destruct (upd_rec_total (i_cacheRecord h) f st) as (s3 & Hu3 & _ & Hal3)
  end.
  { simpl. by eexists. }
  rewrite Hu3. unfold bind at 1.
  match goal with |- context [upd_rec _ ?f s3] =>
    destruct (upd_rec_total (i_cacheRecord h) f s3) as (s4 & Hu4 & _ & Hal4)
  end.
  { apply Hal3. simpl. by eexists. }
  rewrite Hu4. unfold bind at 1.
  match goal with |- context [upd_rec _ ?f s4] =>
    destruct (upd_rec_total (i_cacheRecord h) f s4) as (s5 & Hu5 & _ & Hal5)
  end.
  { apply Hal4, Hal3. simpl. by eexists. }
  rewrite Hu5. unfold bind at 1.
  match goal with |- context [upd_rec _ ?f s5] =>
    destruct (upd_rec_total (i_cacheRecord h) f s5) as (s6 & Hu6 & _ & Hal6)
  end.
  { apply Hal5, Hal4, Hal3. simpl. by eexists. }
  rewrite Hu6. apply md_Commit_total. apply Hal6, Hal5, Hal4, Hal3. simpl. by eexists.
Qed.

Lemma parent_record_fun s r pr1 pr2 :
  parent_record s r pr1 → parent_record s r pr2 → pr1 = pr2.
Proof. intros (p & ph & H1 & H2 & H3) (p' & ph' & H1' & H2' & H3'). congruence. Qed.

(** C4 (as amended). When [SetBlob(diffID, blob)] returns nil on an immutable
    record whose ChainID was empty, the record carries [diffID] and [blob];
    without a parent its ChainID is [diffID] and its BlobChainID is the chain
    hash of [blob] and [diffID]; with a parent its ChainID is the chain hash of
    the parent's ChainID and [diffID], and its BlobChainID is the chain hash of
    the parent's BlobChainID and the chain hash of [blob] and [diffID], the
    parent's own ids being non-empty and untouched. The chain hash of [a] and
    [b] is image-spec's: the digest of [a], a space, and [b]. *)
Theorem SetBlob_chain_ids (sr : nat) (diffID blob : Digest) (s s' : State)
    (h : immutableRef) (r : cacheRecord) :
  irefs s !! sr = Some h →
  recs s !! i_cacheRecord h = Some r →
  getChainID (md r) = "" →
  (∀ p ph, parent r = Some p → irefs s !! p = Some ph →
           i_cacheRecord ph ≠ i_cacheRecord h) →
  SetBlob ext snapshotterName digest_FromString sr diffID blob s = Ok None s' →
  ∃ r',
    recs s' !! i_cacheRecord h = Some r' ∧
    parent r' = parent r ∧
    DiffID (Info_of r') = diffID ∧
    Blob (Info_of r') = blob ∧
    (parent r = None →
       ChainID (Info_of r') = diffID ∧
       BlobChainID (Info_of r') = digest_FromString (blob +:+ " " +:+ diffID)) ∧
    (∀ pr, parent_record s r pr →
       ∃ pr', parent_record s' r' pr' ∧ md pr' = md pr ∧
              ChainID (Info_of pr') ≠ "" ∧ BlobChainID (Info_of pr') ≠ "" ∧
              ChainID (Info_of r')
                = digest_FromString (ChainID (Info_of pr') +:+ " " +:+ diffID) ∧
              BlobChainID (Info_of r')
                = digest_FromString
                    (BlobChainID (Info_of pr') +:+ " " +:+
                     digest_FromString (blob +:+ " " +:+ diffID))).
Proof.
  intros Hh Hr Hc Hself HS.
  destruct (SetBlob_success sr diffID blob s s' h r Hh Hr Hc Hself HS)
    as (Hfr & r' & pc & pbc & Hr' & Hpar & Hd & Hb & Hci & Hbci).
  destruct (frame_lookup _ _ _ _ _ Hfr Hr) as (r'' & Hr'' & Hp' & _).
  assert (r'' = r') as -> by congruence.
  exists r'. unfold Info_of, getChainID, getBlobChainID, getDiffID, getBlob. simpl.
  split; [done|]. split; [done|]. split; [done|]. split; [done|]. split.
  - intros Hnone. destruct Hpar as [(_ & -> & ->)|(pr & (p & ph & Hp & _) & _)];
      [|congruence]. done.
  - intros pr Hpr. destruct Hpar as [(Hnone & _)|(pr0 & Hpr0 & -> & -> & Hn1 & Hn2)].
    { destruct Hpr as (p & ph & Hp & _). congruence. }
    assert (pr0 = pr) as -> by (by eapply parent_record_fun).
    destruct Hpr as (p & ph & Hp & Hph & Hprl).
    destruct (frame_lookup _ _ _ _ _ Hfr Hprl) as (pr' & Hpr' & _ & _ & Hmd).
    specialize (Hmd (Hself _ _ Hp Hph)).
    exists pr'. split.
    { exists p, ph. rewrite Hp', (proj1 Hfr). done. }
    rewrite Hmd. split; [done|]. split; [done|]. split; [done|].
    rewrite Hci, Hbci. apply String.eqb_neq in Hn1. rewrite Hn1. done.
Qed.

(** C5. [SetBlob] on a record that has a ChainID is a no-op: it looks the
    blob up in the content store and returns what the lookup returned (nil
    when the blob is there); no other collaborator is called and the records,
    with their ChainID and BlobChainID, are as before. And [SetBlob] on a
    record whose parent lacks a ChainID or a BlobChainID returns an error. *)
Theorem SetBlob_idempotent (sr : nat) (diffID blob : Digest) (s : State)
    (h : immutableRef) (r : cacheRecord) :
  irefs s !! sr = Some h →
  recs s !! i_cacheRecord h = Some r →
  (getChainID (md r) ≠ "" →
     ∃ s', SetBlob ext snapshotterName digest_FromString sr diffID blob s
             = Ok (ext (trace s) (ContentStore_Info blob)) s' ∧
           recs s' = recs s ∧ irefs s' = irefs s ∧ mrefs s' = mrefs s ∧
           records s' = records s ∧
           trace s' = trace s ++ [ContentStore_Info blob] ∧
           ∃ r', recs s' !! i_cacheRecord h = Some r' ∧
                 ChainID (Info_of r') = ChainID (Info_of r) ∧
                 BlobChainID (Info_of r') = BlobChainID (Info_of r)) ∧
  (∀ pr,
     chain_inv_at s r →
     parent_record s r pr →
     ChainID (Info_of pr) = "" ∨ BlobChainID (Info_of pr) = "" →
     (∀ p ph, parent r = Some p → irefs s !! p = Some ph →
              i_cacheRecord ph ≠ i_cacheRecord h) →
     (∀ m, equalMutable r = Some m →
           ∃ mh, mrefs s !! m = Some mh ∧ is_Some (recs s !! m_cacheRecord mh)) →
     ∃ e s', SetBlob ext snapshotterName digest_FromString sr diffID blob s
               = Ok (Some e) s').
Proof.
  intros Hh Hr. split.
  - intros Hc. eexists. split; [by eapply SetBlob_noop|]. simpl.
    repeat (split; [done|]). exists r. done.
  - intros pr Hinv Hpr Hlack Hself Hm.
    assert (Hc : getChainID (md r) = "").
    { destruct (decide (getChainID (md r) = "")) as [|Hne]; [done|].
      destruct (Hinv Hne pr Hpr) as [H1 H2].
      unfold Info_of, getChainID, getBlobChainID in Hlack. simpl in Hlack.
      by destruct Hlack. }
    destruct (SetBlob_total sr diffID blob s h r Hh Hr Hm) as (e & s' & HS).
    { intros p Hp. destruct Hpr as (p' & ph & Hp' & Hph & Hprl).
      exists ph. split; [congruence|]. by eexists. }
    destruct e as [e|]; [by eauto|]. exfalso.
    destruct (SetBlob_success sr diffID blob s s' h r Hh Hr Hc Hself HS)
      as (_ & r' & pc & pbc & _ & Hpar & _).
    destruct Hpar as [(Hnone & _)|(pr0 & Hpr0 & -> & -> & Hn1 & Hn2)].
    + destruct Hpr as (p & ph & Hp & _). congruence.
    + assert (pr0 = pr) as -> by (by eapply parent_record_fun).
      unfold Info_of, getChainID, getBlobChainID in Hlack. simpl in Hlack.
      by destruct Hlack.
Qed.

(** After a [SetBlob] that set the chain ids of a record, the record is as
    [chain_inv_at] says: its parent has both ids. *)
Lemma SetBlob_chain_inv sr diffID blob s s' h r r' :
  irefs s !! sr = Some h →
  recs s !! i_cacheRecord h = Some r →
  getChainID (md r) = "" →
  (∀ p ph, parent r = Some p → irefs s !! p = Some ph →
           i_cacheRecord ph ≠ i_cacheRecord h) →
  SetBlob ext snapshotterName digest_FromString sr diffID blob s = Ok None s' →
  recs s' !! i_cacheRecord h = Some r' →
  chain_inv_at s' r'.
Proof.
  intros Hh Hr Hc Hself HS Hr' _ pr' Hpr'.
  destruct (SetBlob_success sr diffID blob s s' h r Hh Hr Hc Hself HS)
    as (Hfr & r0 & pc & pbc & Hr0 & Hpar & _).
  assert (r0 = r') as -> by congruence.
  destruct (frame_lookup _ _ _ _ _ Hfr Hr) as (r'' & Hr'' & Hp' & _).
  assert (r'' = r') as -> by congruence.
  destruct Hpr' as (p & ph & Hp & Hph & Hprl).
  rewrite Hp' in Hp. rewrite (proj1 Hfr) in Hph.
  destruct (frame_lookup_inv _ _ _ _ _ Hfr Hprl) as (pr & Hpr & _ & _ & Hmd).
  rewrite (Hmd (Hself _ _ Hp Hph)).
  destruct Hpar as [(Hnone & _)|(pr0 & Hpr0 & -> & -> & Hn1 & Hn2)]; [congruence|].
  assert (pr0 = pr) as ->; [|done].
  eapply parent_record_fun; [exact Hpr0|]. by exists p, ph.
Qed.

End CacheFacts.

Section CacheExamples.
Import Cache.

(** C4 as stated fails on a record that already has its chain ids:
    [SetBlob("sha256:new", "sha256:b")] returns nil on the parentless record
    [p], whose ChainID stays "sha256:d0". *)
Lemma SetBlob_chain_ids_counterexample :
  ∃ s' r',
    SetBlob ext_ok "naive" sym_hash 13 "sha256:new" "sha256:b" addressed_store
      = Ok None s' ∧
    recs s' !! 0%nat = Some r' ∧
    parent r' = None ∧
    ChainID (Info_of r') = "sha256:d0" ∧
    ChainID (Info_of r') ≠ "sha256:new".
Proof.
  eexists _, _. split; [vm_compute; reflexivity|].
  split; [vm_compute; reflexivity|]. split; [reflexivity|]. split; [reflexivity|].
  discriminate.
Qed.

Lemma SetBlob_chain_ids_witness :
  ∃ s' r',
    SetBlob ext_ok "naive" sym_hash 10 "sha256:d1" "sha256:b1" addressed_store
      = Ok None s' ∧
    recs s' !! 2%nat = Some r' ∧
    ChainID (Info_of r') = "H(sha256:d0 sha256:d1)" ∧
    BlobChainID (Info_of r') = "H(H(sha256:b0 sha256:d0) H(sha256:b1 sha256:d1))".
Proof.
  destruct (SetBlob ext_ok "naive" sym_hash 10 "sha256:d1" "sha256:b1" addressed_store)
    as [e s'| |] eqn:HS; [|vm_compute in HS; discriminate..].
  assert (e = None) as -> by (vm_compute in HS; congruence).
  destruct (SetBlob_chain_ids ext_ok "naive" sym_hash 10 "sha256:d1" "sha256:b1"
              addressed_store s' (mkIRef 2 true)
              (mkRecord false {[IRef 10]} (Some 12%nat)
                 (example_md "i1" cachePolicyRetain) false "" None (Some 20%nat) None))
    as (r' & Hr' & _ & _ & _ & _ & Hchild).
  - vm_compute. reflexivity.
  - vm_compute. reflexivity.
  - reflexivity.
  - intros p ph Hp Hph. injection Hp as <-. vm_compute in Hph. injection Hph as <-.
    simpl. discriminate.
  - exact HS.
  - exists s', r'. split; [reflexivity|]. split; [exact Hr'|].
    destruct (Hchild (mkRecord false {[IRef 11; IRef 12; IRef 13]} None
                        addressed_md false "" None None None))
      as (pr' & _ & Hmd & _ & _ & Hc & Hbc).
    { exists 12%nat, (mkIRef 0 false). split; [reflexivity|].
      split; vm_compute; reflexivity. }
    rewrite Hc, Hbc. unfold Info_of, getChainID, getBlobChainID. simpl.
    rewrite Hmd. split; reflexivity.
Defined.

Lemma SetBlob_idempotent_witness :
  (∃ s', SetBlob ext_ok "naive" sym_hash 13 "sha256:new" "sha256:b" addressed_store
           = Ok None s' ∧ recs s' = recs addressed_store) ∧
  (∃ e s', SetBlob ext_ok "naive" sym_hash 10 "sha256:d1" "sha256:b1" example_store
             = Ok (Some e) s').
Proof.
  split.
  - destruct (SetBlob_idempotent ext_ok "naive" sym_hash 13 "sha256:new" "sha256:b"
                addressed_store (mkIRef 0 true)
                (mkRecord false {[IRef 11; IRef 12; IRef 13]} None
                   addressed_md false "" None None None)) as [Hnoop _].
    + vm_compute. reflexivity.
    + vm_compute. reflexivity.
    + destruct Hnoop as (s' & HS & Hrecs & _); [discriminate|].
      exists s'. split; [exact HS|exact Hrecs].
  - destruct (SetBlob_idempotent ext_ok "naive" sym_hash 10 "sha256:d1" "sha256:b1"
                example_store (mkIRef 2 true)
                (mkRecord false {[IRef 10]} (Some 12%nat)
                   (example_md "i1" cachePolicyRetain) false "" None (Some 20%nat) None))
      as [_ Hfail].
    + vm_compute. reflexivity.
    + vm_compute. reflexivity.
    + apply (Hfail (mkRecord false {[IRef 11; IRef 12; IRef 13]} None
                      (example_md "p" cachePolicyDefault) false "" None None None)).
      * intros Hne. by destruct Hne.
      * exists 12%nat, (mkIRef 0 false). split; [reflexivity|].
        split; vm_compute; reflexivity.
      * left. reflexivity.
      * intros p ph Hp Hph. injection Hp as <-. vm_compute in Hph.
        injection Hph as <-. simpl. discriminate.
      * intros m Hm. injection Hm as <-. exists (mkMRef 1 true).
        split; [vm_compute; reflexivity|]. vm_compute. by eexists.
Defined.

Lemma mutable_release_spares_retained_witness :
  ∃ s', mutableRef_release ext_ok 1 20 example_store = Ok None s' ∧
        records s' = records example_store ∧
        trace s' = [].
Proof.
  destruct (mutable_release_spares_retained ext_ok 0 20 example_store (mkMRef 1 true)
              (mkRecord true {[MRef 20]} (Some 11%nat)
                 (example_md "m1" cachePolicyDefault) false "" None None (Some 10%nat)))
    as [Hkeep _].
  - vm_compute. reflexivity.
  - vm_compute. reflexivity.
  - destruct (Hkeep 10%nat (mkIRef 2 true)
                (mkRecord false {[IRef 10]} (Some 12%nat)
                   (example_md "i1" cachePolicyRetain) false "" None (Some 20%nat) None))
      as (s' & r' & HR & Hrecs & Htr & _).
    + discriminate.
    + reflexivity.
    + vm_compute. reflexivity.
    + vm_compute. reflexivity.
    + reflexivity.
    + exists s'. split; [exact HR|]. split; [exact Hrecs|exact Htr].
Defined.

End CacheExamples.

(* ===================================================================== *)
(** * Facts about the release cascade *)
(* ===================================================================== *)
Section ReleaseFacts.
Import Cache.
Context (ext : list ExtCall → ExtCall → option error).
Context (rk : nat → nat).

Lemma ranked_iref s h hd :
  ranked s rk → irefs s !! h = Some hd → is_Some (recs s !! i_cacheRecord hd).
Proof. intros (H & _) Hh. by apply (H h hd). Qed.

Lemma ranked_mref s m mh :
  ranked s rk → mrefs s !! m = Some mh → is_Some (recs s !! m_cacheRecord mh).
Proof. intros (_ & H & _) Hm. by apply (H m mh). Qed.

Lemma ranked_parent s l r p :
  ranked s rk → recs s !! l = Some r → parent r = Some p →
  ∃ ph, irefs s !! p = Some ph ∧ (rk (i_cacheRecord ph) < rk l)%nat.
Proof.
  intros (_ & _ & H) Hr Hp. destruct (H l r Hr) as (H1 & _).
  rewrite Hp in H1. simpl in H1. unfold iref_below in H1.
  destruct (irefs s !! p) as [ph|]; [eauto|done].
Qed.

Lemma ranked_equalMutable s l r m :
  ranked s rk → recs s !! l = Some r → equalMutable r = Some m →
  ∃ mh, mrefs s !! m = Some mh ∧ (rk (m_cacheRecord mh) < rk l)%nat.
Proof.
  intros (_ & _ & H) Hr Hm. destruct (H l r Hr) as (_ & H1 & _).
  rewrite Hm in H1. simpl in H1. unfold mref_below in H1.
  destruct (mrefs s !! m) as [mh|]; [eauto|done].
Qed.

Lemma ranked_equalImmutable s l r e :
  ranked s rk → recs s !! l = Some r → equalImmutable r = Some e →
  ∃ eh er, irefs s !! e = Some eh ∧ recs s !! i_cacheRecord eh = Some er ∧
           ∀ p, parent er = Some p →
                ∃ ph, irefs s !! p = Some ph ∧ (rk (i_cacheRecord ph) < rk l)%nat.
Proof.
  intros (_ & _ & H) Hr He. destruct (H l r Hr) as (_ & _ & H1).
  rewrite He in H1. simpl in H1. unfold sibling_below in H1.
  destruct (irefs s !! e) as [eh|] eqn:Heh; [|done].
  destruct (recs s !! i_cacheRecord eh) as [er|] eqn:Her; [|done].
  exists eh, er. split; [done|]. split; [done|]. intros p Hp.
  rewrite Hp in H1. simpl in H1. unfold iref_below in H1.
  destruct (irefs s !! p) as [ph|]; [eauto|done].
Qed.

Lemma shape_refl s : shape s s.
Proof. done. Qed.

Lemma shape_trans s1 s2 s3 : shape s1 s2 → shape s2 s3 → shape s1 s3.
Proof.
  intros (Hi & Hm & Hr) (Hi' & Hm' & Hr'). split; [congruence|].
  split; [intros m; by rewrite Hm', Hm|intros l; by rewrite Hr', Hr].
Qed.

Lemma shape_sym s1 s2 : shape s1 s2 → shape s2 s1.
Proof. intros (Hi & Hm & Hr). by split; [|split]. Qed.

Lemma shape_lookup_rec s s' l r :
  shape s s' → recs s !! l = Some r →
  ∃ r', recs s' !! l = Some r' ∧ pointers r' = pointers r.
Proof.
  intros (_ & _ & H) Hr. specialize (H l). rewrite Hr in H. simpl in H.
  destruct (recs s' !! l) as [r'|]; [|done]. simpl in H.
  exists r'. split; [done|]. congruence.
Qed.

Lemma shape_lookup_mref s s' m mh :
  shape s s' → mrefs s !! m = Some mh →
  ∃ mh', mrefs s' !! m = Some mh' ∧ m_cacheRecord mh' = m_cacheRecord mh.
Proof.
  intros (_ & H & _) Hm. specialize (H m). rewrite Hm in H. simpl in H.
  destruct (mrefs s' !! m) as [mh'|]; [|done]. simpl in H.
  exists mh'. split; [done|]. congruence.
Qed.

Lemma pointers_eq r r' :
  pointers r' = pointers r →
  parent r' = parent r ∧ equalMutable r' = equalMutable r ∧
  equalImmutable r' = equalImmutable r.
Proof. unfold pointers. by intros [= -> -> ->]. Qed.

Lemma ranked_shape s s' : ranked s rk → shape s s' → ranked s' rk.
Proof.
  intros Hrk Hsh. pose proof (shape_sym _ _ Hsh) as Hsh'.
  pose proof Hsh as (Hi & Hm & Hr).
  assert (Hal : ∀ l, is_Some (recs s !! l) → is_Some (recs s' !! l)).
  { intros l [r Hl]. destruct (shape_lookup_rec s s' l r) as (r' & Hr' & _); [done..|].
    by eexists. }
  split; [|split].
  - rewrite Hi. intros h hd Hh. apply Hal. by eapply ranked_iref.
  - intros m mh' Hmh'.
    destruct (shape_lookup_mref s' s m mh' Hsh' Hmh') as (mh & Hmh & Heq).
    rewrite <- Heq. apply Hal. by eapply ranked_mref.
  - intros l r' Hr'.
    destruct (shape_lookup_rec s' s l r' Hsh' Hr') as (r & Hr0 & Hp).
    apply pointers_eq in Hp as (Hp1 & Hp2 & Hp3).
    rewrite <- Hp1, <- Hp2, <- Hp3. split; [|split].
    + destruct (parent r) as [p|] eqn:Hp; simpl; [|done].
      destruct (ranked_parent s l r p Hrk Hr0 Hp) as (ph & Hph & Hlt).
      unfold iref_below. by rewrite Hi, Hph.
    + destruct (equalMutable r) as [m|] eqn:Hem; simpl; [|done].
      destruct (ranked_equalMutable s l r m Hrk Hr0 Hem) as (mh & Hmh & Hlt).
      destruct (shape_lookup_mref s s' m mh Hsh Hmh) as (mh' & Hmh' & Heq).
      unfold mref_below. by rewrite Hmh', Heq.
    + destruct (equalImmutable r) as [e|] eqn:Hei; simpl; [|done].
      destruct (ranked_equalImmutable s l r e Hrk Hr0 Hei) as (eh & er & Heh & Her & Hpar).
      destruct (shape_lookup_rec s s' _ er Hsh Her) as (er' & Her' & Hp).
      apply pointers_eq in Hp as (Hp1' & _).
      unfold sibling_below. rewrite Hi, Heh, Her', Hp1'.
      destruct (parent er) as [p|] eqn:Hp; simpl; [|done].
      destruct (Hpar p eq_refl) as (ph & Hph & Hlt).
      unfold iref_below. by rewrite Hi, Hph.
Qed.

Lemma keeps_below_refl k s : keeps_below rk k s s.
Proof. done. Qed.

Lemma keeps_below_trans k s1 s2 s3 :
  keeps_below rk k s1 s2 → keeps_below rk k s2 s3 → keeps_below rk k s1 s3.
Proof.
  intros [Hs H] [Hs' H']. split; [by eapply shape_trans|].
  intros l Hl. by rewrite H', H.
Qed.

Lemma keeps_below_mono k k' s s' :
  (k ≤ k')%nat → keeps_below rk k s s' → keeps_below rk k' s s'.
Proof. intros Hk [Hs H]. split; [done|]. intros l Hl. apply H. lia. Qed.

(** Changes outside the three stores of records and handles keep
    everything. *)
Lemma keeps_same_stores k s s' :
  recs s' = recs s → irefs s' = irefs s → mrefs s' = mrefs s → keeps_below rk k s s'.
Proof.
  intros Hr Hi Hm. split; [split; [done|split]|]; intros; by rewrite ?Hr, ?Hm.
Qed.

Lemma keeps_upd_rec k l f s r :
  recs s !! l = Some r →
  pointers (f r) = pointers r →
  (md (f r) = md r ∨ (rk l < k)%nat) →
  keeps_below rk k s (set_recs <[l := f r]> s).
Proof.
  intros Hr Hp Hmd. split; [split; [done|split; [done|]]|]; intros l'; simpl.
  - destruct (decide (l' = l)) as [->|Hne].
    + by rewrite lookup_insert_eq, Hr; simpl; rewrite Hp.
    + by rewrite lookup_insert_ne.
  - intros Hk. destruct (decide (l' = l)) as [->|Hne].
    + rewrite lookup_insert_eq, Hr. simpl. destruct Hmd as [->|]; [done|lia].
    + by rewrite lookup_insert_ne.
Qed.

Lemma keeps_set_trigger k m mh b s :
  mrefs s !! m = Some mh →
  keeps_below rk k s (set_mrefs <[m := mkMRef (m_cacheRecord mh) b]> s).
Proof.
  intros Hm. split; [split; [done|split; [|done]]|done]. intros m'. simpl.
  destruct (decide (m' = m)) as [->|Hne].
  - by rewrite lookup_insert_eq, Hm.
  - by rewrite lookup_insert_ne.
Qed.



Lemma remove_ok_step fuel : release_ok ext rk fuel → remove_ok ext rk (S fuel).
Proof.
  intros IH cr b k s r Hrk Hr Hpar Hfuel. simpl.
  unfold bind at 1. rewrite (get_rec_lookup _ _ _ Hr).
  unfold bind at 1, modify at 1.
  set (s1 := set_records _ s).
  assert (Hk1 : keeps_below rk k s s1) by (by apply keeps_same_stores).
  assert (Htail : ∀ s2, keeps_below rk k s s2 →
    ∃ e s',
      (e0 <- (if b
              then e1 <- ext_call ext (LeaseManager_Delete (cacheRecord_ID r)) ;;
                   match e1 with
                   | Some err =>
                       ret (Some (Wrapf err ("failed to remove " +:+ cacheRecord_ID r)))
                   | None => ret None
                   end
              else ret None) ;;
       match e0 with
       | Some err => ret (Some err)
       | None => ext_call ext (Metadata_Clear (cacheRecord_ID r))
       end)%go s2 = Ok e s' ∧ keeps_below rk k s s').
  { intros s2 Hk2. destruct b.
    - unfold bind at 1. unfold bind at 1, ext_call at 1.
      destruct (ext _ _); simpl.
      + eexists _, _. split; [reflexivity|].
        eapply keeps_below_trans; [exact Hk2|]. by apply keeps_same_stores.
      + eexists _, _. split; [reflexivity|].
        eapply keeps_below_trans; [exact Hk2|]. by apply keeps_same_stores.
    - unfold bind at 1. simpl. eexists _, _. split; [reflexivity|].
      eapply keeps_below_trans; [exact Hk2|]. by apply keeps_same_stores. }
  destruct (parent r) as [p|] eqn:Hp.
  - destruct (ranked_parent s cr r p Hrk Hr Hp) as (ph & Hph & _).
    destruct (ranked_iref s p ph Hrk Hph) as [pr Hpr].
    specialize (Hpar p ph eq_refl Hph).
    destruct (IH p s1 ph pr) as (e & s2 & r' & Hrel & Hk2 & _).
    + eapply ranked_shape; [exact Hrk|]. apply Hk1.
    + done.
    + done.
    + lia.
    + unfold bind at 1. rewrite Hrel. destruct e as [err|].
      * eexists _, _. split; [reflexivity|]. eapply keeps_below_trans; [exact Hk1|].
        eapply keeps_below_mono; [|exact Hk2]. lia.
      * apply Htail. eapply keeps_below_trans; [exact Hk1|].
        eapply keeps_below_mono; [|exact Hk2]. lia.
  - unfold bind at 1. simpl. by apply Htail.
Qed.



Lemma updateLastUsed_keeps k l s :
  is_Some (recs s !! l) → (rk l < k)%nat →
  ∃ s', updateLastUsed l s = Ok tt s' ∧ keeps_below rk k s s' ∧ mrefs s' = mrefs s.
Proof.
  intros [r Hr] Hlt. eexists. split; [by apply updateLastUsed_lookup|]. split; [|done].
  eapply keeps_below_trans; [apply (keeps_same_stores k s (set_clock (clock s + 1) s)); done|].
  apply (keeps_upd_rec k l (with_md (stamp (clock s))) (set_clock (clock s + 1) s) r);
    [done|done|by right].
Qed.

Lemma mrelease_ok_step fuel : release_ok ext rk fuel → remove_ok ext rk fuel → mrelease_ok ext rk (S fuel).
Proof.
  intros IHI IHR m s mh Hrk Hmh Hfuel. simpl.
  destruct (ranked_mref s m mh Hrk Hmh) as [r Hr].
  unfold bind at 1. rewrite (get_mref_lookup _ _ _ Hmh).
  remember (m_cacheRecord mh) as M eqn:HM.
  unfold bind at 1. rewrite (upd_rec_lookup _ _ _ _ Hr).
  set (r1 := with_refs (λ rs, rs ∖ {[MRef m]}) r).
  set (s1 := set_recs <[M := r1]> s).
  assert (Hk1 : keeps_below rk (S (rk M)) s s1).
  { apply (keeps_upd_rec _ M (with_refs (λ rs, rs ∖ {[MRef m]})) s r); [done|done|by left]. }
  assert (Hr1 : recs s1 !! M = Some r1) by apply lookup_insert_eq.
  unfold bind at 1. rewrite (get_rec_lookup _ _ _ Hr1).
  assert (Htouch : ∀ s2, keeps_below rk (S (rk M)) s s2 →
    ∃ s',
      (h0 <- get_mref m ;;
       if m_triggerLastUsed h0
       then updateLastUsed M ;;
            modify (set_mrefs <[m := mkMRef (m_cacheRecord h0) false]>)
       else ret tt)%go s2 = Ok tt s' ∧ keeps_below rk (S (rk M)) s s').
  { intros s2 Hk2.
    destruct (shape_lookup_mref s s2 m mh (proj1 Hk2) Hmh) as (mh2 & Hmh2 & Heq).
    destruct (shape_lookup_rec s s2 M r (proj1 Hk2) Hr) as (r2 & Hr2 & _).
    unfold bind at 1. rewrite (get_mref_lookup _ _ _ Hmh2).
    destruct (m_triggerLastUsed mh2).
    - destruct (updateLastUsed_keeps (S (rk M)) M s2) as (s3 & Hu & Hk3 & Hm3);
        [by eexists|lia|].
      unfold bind at 1. rewrite Hu. eexists. split; [reflexivity|].
      eapply keeps_below_trans; [exact Hk2|]. eapply keeps_below_trans; [exact Hk3|].
      apply keeps_set_trigger. by rewrite Hm3.
    - eexists. split; [reflexivity|done]. }
  assert (Htail : ∀ s2, keeps_below rk (S (rk M)) s s2 →
    ∃ e s',
      (e0 <- match parent r1 with
             | Some p => immutableRef_release ext fuel p
             | None => ret None
             end ;;
       match e0 with
       | Some err => ret (Some err)
       | None => cacheRecord_remove ext fuel M true
       end)%go s2 = Ok e s' ∧ keeps_below rk (S (rk M)) s s').
  { intros s2 Hk2.
    pose proof (ranked_shape s s2 Hrk (proj1 Hk2)) as Hrk2.
    destruct (shape_lookup_rec s s2 M r (proj1 Hk2) Hr) as (r2 & Hr2 & Hp2).
    apply pointers_eq in Hp2 as (Hp2 & _).
    assert (Hrem : ∀ s3, keeps_below rk (S (rk M)) s s3 →
      ∃ e s', cacheRecord_remove ext fuel M true s3 = Ok e s' ∧
              keeps_below rk (S (rk M)) s s').
    { intros s3 Hk3.
      pose proof (ranked_shape s s3 Hrk (proj1 Hk3)) as Hrk3.
      destruct (shape_lookup_rec s s3 M r (proj1 Hk3) Hr) as (r3 & Hr3 & Hp3).
      destruct (IHR M true (rk M) s3 r3 Hrk3 Hr3) as (e & s' & Hrem & Hk').
      - intros p ph Hp Hph.
        destruct (ranked_parent s3 M r3 p Hrk3 Hr3 Hp) as (ph' & Hph' & Hlt).
        assert (ph' = ph) as -> by congruence. done.
      - lia.
      - exists e, s'. split; [done|]. eapply keeps_below_trans; [exact Hk3|].
        eapply keeps_below_mono; [|exact Hk']. lia. }
    change (parent r1) with (parent r).
    destruct (parent r) as [p|] eqn:Hp.
    - destruct (ranked_parent s M r p Hrk Hr Hp) as (ph & Hph & Hlt).
      assert (Hph2 : irefs s2 !! p = Some ph) by (by rewrite (proj1 (proj1 Hk2))).
      destruct (ranked_iref s2 p ph Hrk2 Hph2) as [pr Hpr].
      destruct (IHI p s2 ph pr Hrk2 Hph2 Hpr) as (e & s3 & _ & Hrel & Hk3 & _); [lia|].
      unfold bind at 1. rewrite Hrel.
      assert (Hk3' : keeps_below rk (S (rk M)) s s3).
      { eapply keeps_below_trans; [exact Hk2|].
        eapply keeps_below_mono; [|exact Hk3]. lia. }
      destruct e as [err|]; [|by apply Hrem].
      eexists _, _. split; [reflexivity|done].
    - unfold bind at 1. simpl. by apply Hrem. }
  destruct (decide (getCachePolicy (md r1) ≠ cachePolicyRetain)) as [Hnr|Hret].
  - destruct (equalImmutable r1) as [ei|] eqn:Hei.
    + pose proof (ranked_shape s s1 Hrk (proj1 Hk1)) as Hrk1.
      destruct (ranked_equalImmutable s1 M r1 ei Hrk1 Hr1 Hei)
        as (eh & er & Heh & Her & Hpar).
      unfold bind at 1. unfold bind at 1. rewrite (get_iref_lookup _ _ _ Heh).
      unfold bind at 1. rewrite (get_rec_lookup _ _ _ Her).
      destruct (decide (getCachePolicy (md er) = cachePolicyRetain)).
      * destruct (Htouch s1 Hk1) as (s2 & Ht & Hk2).
        unfold bind at 1. rewrite Ht. simpl. eexists _, _. split; [reflexivity|done].
      * destruct (IHR (i_cacheRecord eh) false (rk M) s1 er Hrk1 Her)
          as (e & s2 & Hrem & Hk2).
        { intros p ph Hp Hph. destruct (Hpar p Hp) as (ph' & Hph' & Hlt).
          assert (ph' = ph) as -> by congruence. done. }
        { lia. }
        unfold bind at 1. rewrite Hrem.
        assert (Hk2' : keeps_below rk (S (rk M)) s s2).
        { eapply keeps_below_trans; [exact Hk1|].
          eapply keeps_below_mono; [|exact Hk2]. lia. }
        destruct e as [err|]; simpl.
        -- eexists _, _. split; [reflexivity|done].
        -- by apply Htail.
    + unfold bind at 1. simpl. by apply Htail.
  - destruct (Htouch s1 Hk1) as (s2 & Ht & Hk2).
    unfold bind at 1. rewrite Ht. simpl. eexists _, _. split; [reflexivity|done].
Qed.



Lemma keeps_md k s s' l r :
  keeps_below rk k s s' → (k ≤ rk l)%nat → recs s !! l = Some r →
  ∃ r', recs s' !! l = Some r' ∧ md r' = md r ∧ pointers r' = pointers r.
Proof.
  intros [Hs Hmd] Hk Hr. destruct (shape_lookup_rec s s' l r Hs Hr) as (r' & Hr' & Hp).
  exists r'. split; [done|]. split; [|done].
  specialize (Hmd l Hk). rewrite Hr, Hr' in Hmd. simpl in Hmd. congruence.
Qed.

Lemma release_ok_step fuel : mrelease_ok ext rk fuel → release_ok ext rk (S fuel).
Proof.
  intros IHM h s hd r Hrk Hhd Hr Hfuel. simpl.
  unfold bind at 1. rewrite (get_iref_lookup _ _ _ Hhd).
  remember (i_cacheRecord hd) as X eqn:HX.
  unfold bind at 1. rewrite (upd_rec_lookup _ _ _ _ Hr).
  set (r1 := with_refs (λ rs, rs ∖ {[IRef h]}) r).
  set (s1 := set_recs <[X := r1]> s).
  assert (Hk1 : keeps_below rk (S (rk X)) s s1).
  { apply (keeps_upd_rec _ X (with_refs (λ rs, rs ∖ {[IRef h]})) s r); [done|done|by left]. }
  assert (Hr1 : recs s1 !! X = Some r1) by apply lookup_insert_eq.
  assert (Hnow : updateLastUsedNow h s1 = Ok (last_trigger s h hd r) s1).
  { unfold updateLastUsedNow. unfold bind at 1.
    rewrite (get_iref_lookup h s1 hd) by done. unfold last_trigger.
    destruct (i_triggerLastUsed hd); [|done]. simpl.
    unfold bind at 1. rewrite <- HX, (get_rec_lookup _ _ _ Hr1). done. }
  unfold bind at 1. rewrite Hnow.
  set (target := if last_trigger s h hd r then stamp (clock s) (md r) else md r).
  assert (Hhead : ∃ s3 r3,
    (if last_trigger s h hd r
     then updateLastUsed X ;;
          r0 <- get_rec X ;;
          match equalMutable r0 with
          | Some m =>
              mh <- get_mref m ;;
              modify (set_mrefs <[m := mkMRef (m_cacheRecord mh) true]>)
          | None => ret tt
          end
     else ret tt)%go s1 = Ok tt s3 ∧
    keeps_below rk (S (rk X)) s s3 ∧ recs s3 !! X = Some r3 ∧ md r3 = target).
  { unfold target. destruct (last_trigger s h hd r).
    - unfold bind at 1. rewrite (updateLastUsed_lookup _ _ _ Hr1).
      set (r2 := with_md (stamp (clock s1)) r1).
      set (s2 := set_recs <[X := r2]> (set_clock (clock s1 + 1) s1)).
      assert (Hr2 : recs s2 !! X = Some r2) by apply lookup_insert_eq.
      assert (Hk2 : keeps_below rk (S (rk X)) s s2).
      { eapply keeps_below_trans; [exact Hk1|].
        eapply keeps_below_trans;
          [apply (keeps_same_stores _ s1 (set_clock (clock s1 + 1) s1)); done|].
        apply (keeps_upd_rec _ X (with_md (stamp (clock s1)))
                 (set_clock (clock s1 + 1) s1) r1); [done|done|right; lia]. }
      unfold bind at 1. rewrite (get_rec_lookup _ _ _ Hr2).
      change (equalMutable r2) with (equalMutable r).
      destruct (equalMutable r) as [m|] eqn:Hem.
      + destruct (ranked_equalMutable s X r m Hrk Hr Hem) as (mh & Hmh & _).
        unfold bind at 1. rewrite (get_mref_lookup m s2 mh) by done.
        eexists _, r2. split; [reflexivity|]. split; [|split; done].
        eapply keeps_below_trans; [exact Hk2|]. by apply keeps_set_trigger.
      + eexists s2, r2. split; [reflexivity|]. split; [done|]. split; done.
    - exists s1, r1. split; [reflexivity|]. split; [done|]. split; done. }
  destruct Hhead as (s3 & r3 & Hhd3 & Hk3 & Hr3 & Hmd3).
  unfold bind at 1. rewrite Hhd3.
  unfold bind at 1. rewrite (get_rec_lookup _ _ _ Hr3).
  destruct (decide (size (refs r3) = 0%nat)) as [Hz|Hnz].
  2:{ exists None, s3, r3. done. }
  assert (Hcascade : ∀ s4 r4,
    keeps_below rk (S (rk X)) s s4 → recs s4 !! X = Some r4 → md r4 = target →
    ∃ e s' r',
      (r0 <- get_rec X ;;
       match equalMutable r0 with
       | Some m => mutableRef_release ext fuel m ;; ret (@None error)
       | None => ret None
       end)%go s4 = Ok e s' ∧
      keeps_below rk (S (rk X)) s s' ∧ recs s' !! X = Some r' ∧ md r' = target).
  { intros s4 r4 Hk4 Hr4 Hmd4.
    pose proof (ranked_shape s s4 Hrk (proj1 Hk4)) as Hrk4.
    unfold bind at 1. rewrite (get_rec_lookup _ _ _ Hr4).
    destruct (equalMutable r4) as [m|] eqn:Hem4.
    - destruct (ranked_equalMutable s4 X r4 m Hrk4 Hr4 Hem4) as (mh & Hmh & Hlt).
      destruct (IHM m s4 mh Hrk4 Hmh) as (e & s5 & Hrel & Hk5); [lia|].
      destruct (keeps_md _ _ _ X r4 Hk5) as (r5 & Hr5 & Hmd5 & _); [lia|done|].
      unfold bind at 1. rewrite Hrel. exists None, s5, r5.
      split; [reflexivity|]. split; [|split; [done|congruence]].
      eapply keeps_below_trans; [exact Hk4|].
      eapply keeps_below_mono; [|exact Hk5]. lia.
    - exists None, s4, r4. done. }
  destruct (viewMount r3) as [vm|].
  - unfold bind at 1. unfold bind at 1. unfold ext_call at 1.
    destruct (ext _ _) as [err|].
    + eexists _, _, r3. split; [reflexivity|]. split; [|done].
      eapply keeps_below_trans; [exact Hk3|]. by apply keeps_same_stores.
    + set (s3' := set_trace _ s3).
      assert (Hr3' : recs s3' !! X = Some r3) by done.
      unfold bind at 1. rewrite (upd_rec_lookup _ _ _ _ Hr3'). simpl.
      eapply Hcascade.
      * eapply keeps_below_trans; [exact Hk3|].
        eapply keeps_below_trans; [apply (keeps_same_stores _ s3 s3'); done|].
        apply (keeps_upd_rec _ X (with_view "" None) s3' r3); [done|done|by left].
      * simpl. apply lookup_insert_eq.
      * done.
  - unfold bind at 1. simpl. by eapply Hcascade.
Qed.

(** With fuel for three calls per rank, a release of an immutable handle
    returns. It keeps the shape of the store and the metadata of every record
    of a higher rank, and it stamps the record of the handle when, and only
    when, the handle triggers and is the last of the record that does. *)
Lemma release_cascade fuel : release_ok ext rk fuel ∧ mrelease_ok ext rk fuel ∧ remove_ok ext rk fuel.
Proof.
  induction fuel as [|fuel (IHI & IHM & IHR)].
  - split; [|split].
    + intros h s hd r _ _ _ Hf. lia.
    + intros m s mh _ _ Hf. lia.
    + intros cr b k s r _ _ _ Hf. lia.
  - split; [by apply release_ok_step|]. split.
    + by apply mrelease_ok_step.
    + by apply remove_ok_step.
Qed.



(** C7. [Clone] hands out a handle whose [triggerLastUsed] is false,
    registered in the [refs] of the record. In a ranked store, with fuel for
    the cascade: releasing an immutable handle whose [triggerLastUsed] is false
    returns and leaves the metadata of the record, with its last-used
    timestamp, as it was (and no release changes an immutable handle, so the
    flag of a clone stays false); releasing one whose [triggerLastUsed] is true
    stamps the record with the time of the release when no other handle left
    in [refs] triggers, and leaves the metadata as it was when one does. *)
Theorem release_updates_last_used (fuel : nat) (h : nat) (s : State)
    (hd : immutableRef) (r : cacheRecord) :
  irefs s !! h = Some hd →
  recs s !! i_cacheRecord hd = Some r →
  (∃ l s1 r1,
      Clone h s = Ok l s1 ∧
      irefs s1 !! l = Some (mkIRef (i_cacheRecord hd) false) ∧
      recs s1 !! i_cacheRecord hd = Some r1 ∧
      refs r1 = {[IRef l]} ∪ refs r ∧ md r1 = md r) ∧
  (ranked s rk →
   (3 * rk (i_cacheRecord hd) + 3 ≤ fuel)%nat →
   ∃ e s' r',
     immutableRef_release ext fuel h s = Ok e s' ∧
     irefs s' = irefs s ∧
     recs s' !! i_cacheRecord hd = Some r' ∧
     (i_triggerLastUsed hd = false → md r' = md r) ∧
     (i_triggerLastUsed hd = true →
      set_Forall (λ x, ref_updateLastUsed s x = false) (refs r ∖ {[IRef h]}) →
      md r' = stamp (clock s) (md r) ∧ md_lastUsedAt (md r') = Some (clock s)) ∧
     (i_triggerLastUsed hd = true →
      ¬ set_Forall (λ x, ref_updateLastUsed s x = false) (refs r ∖ {[IRef h]}) →
      md r' = md r)).
Proof.
  intros Hhd Hr. split.
  - unfold Clone. unfold bind at 1. rewrite (get_iref_lookup _ _ _ Hhd).
    unfold cacheRecord_ref. unfold bind at 1, get at 1.
    unfold bind at 1, modify at 1. unfold bind at 1, modify at 1.
    unfold bind at 1.
    rewrite (upd_rec_lookup (i_cacheRecord hd) _ _ r) by done.
    eexists _, _, _. split; [reflexivity|]. simpl.
    rewrite !lookup_insert_eq. done.
  - intros Hrk Hfuel.
    destruct (release_cascade fuel) as (HI & _ & _).
    destruct (HI h s hd r Hrk Hhd Hr Hfuel) as (e & s' & r' & Hrel & Hk & Hr' & Hmd).
    exists e, s', r'. split; [done|]. split; [apply Hk|]. split; [done|].
    unfold last_trigger in Hmd. split; [|split].
    + intros Ht. by rewrite Ht in Hmd.
    + intros Ht Hall. rewrite Ht, bool_decide_true in Hmd by done. simpl in Hmd.
      by rewrite Hmd.
    + intros Ht Hex. rewrite Ht, bool_decide_false in Hmd by done. done.
Qed.

End ReleaseFacts.

Section ReleaseExamples.
Import Cache.

Lemma release_updates_last_used_witness :
  (∃ e s' r', immutableRef_release ext_ok 3 11 example_store = Ok e s' ∧
              recs s' !! 0%nat = Some r' ∧ md_lastUsedAt (md r') = None) ∧
  (∃ e s' r', immutableRef_release ext_ok 3 13 example_store = Ok e s' ∧
              recs s' !! 0%nat = Some r' ∧ md_lastUsedAt (md r') = Some 100).
Proof.
  assert (Hrk : ranked example_store (λ l, l)).
  { unfold ranked. split; [compute_done|]. split; compute_done. }
  split.
  - destruct (release_updates_last_used ext_ok (λ l, l) 3 11 example_store
                (mkIRef 0 false)
                (mkRecord false {[IRef 11; IRef 12; IRef 13]} None
                   (example_md "p" cachePolicyDefault) false "" None None None))
      as [_ Hrel].
    + vm_compute. reflexivity.
    + vm_compute. reflexivity.
    + destruct (Hrel Hrk) as (e & s' & r' & HR & _ & Hr' & Hkeep & _); [simpl; lia|].
      exists e, s', r'. split; [exact HR|]. split; [exact Hr'|].
      rewrite (Hkeep eq_refl). reflexivity.
  - destruct (release_updates_last_used ext_ok (λ l, l) 3 13 example_store
                (mkIRef 0 true)
                (mkRecord false {[IRef 11; IRef 12; IRef 13]} None
                   (example_md "p" cachePolicyDefault) false "" None None None))
      as [_ Hrel].
    + vm_compute. reflexivity.
    + vm_compute. reflexivity.
    + destruct (Hrel Hrk) as (e & s' & r' & HR & _ & Hr' & _ & Hstamp & _); [simpl; lia|].
      exists e, s', r'. split; [exact HR|]. split; [exact Hr'|].
      apply Hstamp; [reflexivity|]. compute_done.
Defined.

End ReleaseExamples.

(* ===================================================================== *)
(** * Runs of the progress bus *)
(* ===================================================================== *)
Section ProgressRuns.
Import Progress.

Lemma Done_cases b w now b' e :
  Done b w now = Returned (b', e) →
  (b' = b ∧ e = None) ∨ ∃ p, Write b w p now = Returned (b', e).
Proof.
  unfold Done. destruct (pws b !! w) as [pw|]; [|done].
  destruct (lastP pw) as [last|]; [|done].
  destruct (PDone (deref last)); [intros [= <- <-]; by left|].
  intros H. right. eauto.
Qed.

Lemma Read_pws b cd b' r : Read b cd = (b', r) →
  pws b' = pws b ∧ next_pw b' = next_pw b ∧ next_addr b' = next_addr b ∧
  ctx_done (pr b') = ctx_done (pr b) ∧
  sh_pw <$> handles (pr b') = sh_pw <$> handles (pr b).
Proof.
  unfold Read. destruct cd; [by intros [= <- <-]|].
  destruct (read_handles (pws b) [] (handles (pr b)) false) as [[hs r0] open] eqn:HR.
  apply read_handles_spec in HR as [Hm _]. simpl in Hm.
  destruct r0 as [p|]; [by intros [= <- <-]|].
  destruct (ctx_done (pr b)) eqn:Hc; [destruct (negb open)|]; intros [= <- <-]; simpl; by rewrite ?Hc.
Qed.

Lemma writers_inv_Write b w p now b' e :
  writers_inv b → Write b w p now = Returned (b', e) → writers_inv b'.
Proof.
  intros Hb HW w' pw' Hw'.
  destruct (decide (w' = w)) as [->|Hne].
  - eapply writer_inv_Write; [exact HW| |exact Hw']. intros pw. apply Hb.
  - unfold Write in HW. destruct (pws b !! w) as [pw|]; [|done].
    destruct (done pw); injection HW as <- <-; [by eapply Hb|].
    simpl in Hw'. rewrite lookup_insert_ne in Hw' by done. by eapply Hb.
Qed.

Lemma writers_inv_call b c b' o :
  writers_inv b → call b c = Returned (b', o) → writers_inv b'.
Proof.
  intros Hb. destruct c as [w0 p now|w0 now|parent name|cd|]; simpl.
  - destruct (Write b w0 p now) as [[b1 e]|] eqn:HW; [|done].
    intros [= <- <-]. by eapply writers_inv_Write.
  - destruct (Done b w0 now) as [[b1 e]|] eqn:HD; [|done].
    intros [= <- <-]. apply Done_cases in HD as [[-> _]|[p HW]]; [done|].
    by eapply writers_inv_Write.
  - destruct (newWriter b parent name) as [[b1 w1]|] eqn:HN; [|done].
    intros [= <- <-]. unfold newWriter in HN.
    destruct (pws b !! parent) as [ppw|]; [|done]. injection HN as <- <-.
    unfold writers_inv. simpl. by apply map_Forall_insert_2.
  - destruct (Read b cd) as [b1 r] eqn:HR.
    apply Read_pws in HR as (Hp & _).
    intros H. assert (b' = b1) as -> by (destruct r; by injection H as <- <-).
    unfold writers_inv. by rewrite Hp.
  - by intros [= <- <-].
Qed.

(** X1. In every bus that a run of calls reaches from [pipe()], the [done]
    flag of a writer is the [Done] flag of its last event, which carries the
    id of the writer; a writer that has stored nothing is not done. *)
Theorem writers_of_a_run (cs : list Call) (b : Bus) (obs : list Obs)
    (w : nat) (pw : progressWriter) :
  calls pipe cs = (b, obs) →
  pws b !! w = Some pw →
  match lastP pw with
  | Some last => done pw = PDone (deref last) ∧ ID (deref last) = id pw
  | None => done pw = false
  end.
Proof.
  assert (H : ∀ cs b0 b obs, writers_inv b0 → calls b0 cs = (b, obs) → writers_inv b).
  { clear. induction cs as [|c cs IH]; intros b0 b obs Hinv; simpl.
    - by intros [= <- <-].
    - destruct (call b0 c) as [[b1 o1]|] eqn:Hc.
      + destruct (calls b1 cs) as [b2 o2] eqn:Hcs. intros [= <- <-].
        eapply IH; [|done]. by eapply writers_inv_call.
      + by intros [= <- <-]. }
  intros Hcs Hw. eapply H in Hcs.
  - specialize (Hcs w pw Hw). unfold writer_inv in Hcs. simpl in Hcs.
    destruct (lastP pw); [|done]. destruct Hcs. by split.
  - unfold writers_inv, pipe. simpl. apply map_Forall_singleton. done.
Qed.

Lemma closed_Write b w pw w0 p now b' e :
  pws b !! w = Some pw → done pw = true →
  Write b w0 p now = Returned (b', e) →
  pws b' !! w = Some pw ∧ (next_pw b ≤ next_pw b')%nat ∧
  ∀ a, Stored w a ∉ stored_by b b' w0.
Proof.
  intros Hw Hd. unfold Write. destruct (pws b !! w0) as [pw0|] eqn:Hw0; [|done].
  destruct (done pw0) eqn:Hd0.
  - intros [= <- <-]. split; [done|]. split; [done|]. intros a.
    unfold stored_by. rewrite Nat.eqb_refl. apply not_elem_of_nil.
  - intros [= <- <-]. assert (w0 ≠ w) by (intros ->; congruence).
    simpl. rewrite lookup_insert_ne by done. split; [done|]. split; [done|].
    intros a. unfold stored_by. cbn [next_addr].
    destruct (Nat.eqb _ _); [apply not_elem_of_nil|].
    intros ?%list_elem_of_singleton. congruence.
Qed.

Lemma closed_call b w pw c b' o :
  pws b !! w = Some pw → done pw = true → (w < next_pw b)%nat →
  call b c = Returned (b', o) →
  pws b' !! w = Some pw ∧ (w < next_pw b')%nat ∧ ∀ a, Stored w a ∉ o.
Proof.
  intros Hw Hd Hlt. destruct c as [w0 p now|w0 now|parent name|cd|]; simpl.
  - destruct (Write b w0 p now) as [[b1 e]|] eqn:HW; [|done].
    intros [= <- <-]. eapply closed_Write in HW as (? & ? & ?); [|done..].
    split; [done|]. split; [lia|done].
  - destruct (Done b w0 now) as [[b1 e]|] eqn:HD; [|done].
    intros [= <- <-]. apply Done_cases in HD as [[-> _]|[p HW]].
    + split; [done|]. split; [done|]. intros a. unfold stored_by.
      rewrite Nat.eqb_refl. apply not_elem_of_nil.
    + eapply closed_Write in HW as (? & ? & ?); [|done..].
      split; [done|]. split; [lia|done].
  - destruct (newWriter b parent name) as [[b1 w1]|] eqn:HN; [|done].
    intros [= <- <-]. unfold newWriter in HN.
    destruct (pws b !! parent) as [ppw|]; [|done]. injection HN as <- <-.
    simpl. rewrite lookup_insert_ne by lia. split; [done|]. split; [lia|].
    intros a. apply not_elem_of_nil.
  - destruct (Read b cd) as [b1 r] eqn:HR.
    apply Read_pws in HR as (Hp & Hn & _).
    intros H.
    assert (b' = b1 ∧ ∀ a, Stored w a ∉ o) as [-> Ho].
    { destruct r; injection H as <- <-; (split; [done|]); intros a;
        [intros ?%list_elem_of_singleton; congruence|apply not_elem_of_nil..]. }
    rewrite Hp, Hn. done.
  - intros [= <- <-]. split; [done|]. split; [done|]. intros a. apply not_elem_of_nil.
Qed.

(** X2. A closed writer stays closed: whatever calls follow on the bus
    ([Write] and [Done] on any writer, [newWriter], [Read], cancel), the
    writer is left exactly as it was, with the same last event, and stores
    nothing. *)
Theorem closed_writer_stays_closed (b : Bus) (w : nat) (pw : progressWriter)
    (cs : list Call) (b' : Bus) (obs : list Obs) :
  pws b !! w = Some pw →
  done pw = true →
  (w < next_pw b)%nat →
  calls b cs = (b', obs) →
  pws b' !! w = Some pw ∧ ∀ a, Stored w a ∉ obs.
Proof.
  revert b b' obs. induction cs as [|c cs IH]; intros b b' obs Hw Hd Hlt; simpl.
  - intros [= <- <-]. split; [done|]. intros a. apply not_elem_of_nil.
  - destruct (call b c) as [[b1 o1]|] eqn:Hc.
    + destruct (calls b1 cs) as [b2 o2] eqn:Hcs. intros [= <- <-].
      eapply closed_call in Hc as (Hw1 & Hlt1 & Ho1); [|done..].
      destruct (IH _ _ _ Hw1 Hd Hlt1 Hcs) as [Hw2 Ho2]. split; [done|].
      intros a [?|?]%elem_of_app; [by eapply Ho1|by eapply Ho2].
    + intros [= <- <-]. split; [done|]. intros a. apply not_elem_of_nil.
Qed.

Lemma next_None sh pw sh' : next sh pw = (sh', None) →
  sh' = sh ∧ ∀ l, lastP pw = Some l → ptr_eqb (Some l) (sh_lastP sh) = true.
Proof.
  unfold next. destruct (lastP pw) as [last|].
  - destruct (ptr_eqb (Some last) (sh_lastP sh)) eqn:He; simpl; [|done].
    intros [= <-]. split; [done|]. by intros l [= <-].
  - intros [= <-]. done.
Qed.

Lemma next_Some sh pw sh' p : next sh pw = (sh', Some p) →
  sh' = mkHandle (sh_pw sh) (Some p) ∧ lastP pw = Some p ∧
  ptr_eqb (Some p) (sh_lastP sh) = false.
Proof.
  unfold next. destruct (lastP pw) as [last|]; [|done].
  destruct (ptr_eqb (Some last) (sh_lastP sh)) eqn:He; simpl; [done|].
  by intros [= <- <-].
Qed.

Lemma read_handles_some ws rest : ∀ seen open hs p open',
  read_handles ws seen rest open = (hs, Some p, open') →
  ∃ pre sh post pw,
    rest = pre ++ sh :: post ∧
    hs = seen ++ pre ++ mkHandle (sh_pw sh) (Some p) :: post ∧
    ws !! sh_pw sh = Some pw ∧ lastP pw = Some p ∧
    ptr_eqb (Some p) (sh_lastP sh) = false.
Proof.
  induction rest as [|sh rest IH]; intros seen open hs p open'; simpl; [done|].
  destruct (ws !! sh_pw sh) as [pw|] eqn:Hpw.
  - destruct (next sh pw) as [sh' [q|]] eqn:Hn.
    + intros [= <- <- <-]. apply next_Some in Hn as (-> & Hl & He).
      exists [], sh, rest, pw. done.
    + apply next_None in Hn as [-> _]. intros H.
      apply IH in H as (pre & sh0 & post & pw0 & -> & -> & H).
      exists (sh :: pre), sh0, post, pw0. split; [done|].
      split; [by rewrite <- app_assoc|done].
  - intros H. apply IH in H as (pre & sh0 & post & pw0 & -> & -> & H).
    exists (sh :: pre), sh0, post, pw0. split; [done|].
    split; [by rewrite <- app_assoc|done].
Qed.

Lemma read_handles_none ws rest : ∀ seen open hs open',
  read_handles ws seen rest open = (hs, None, open') →
  hs = seen ++ rest ∧
  Forall (λ sh, ∀ pw l, ws !! sh_pw sh = Some pw → lastP pw = Some l →
                        ptr_eqb (Some l) (sh_lastP sh) = true) rest ∧
  open' = open || existsb (λ sh, bool_decide (is_Some (ws !! sh_pw sh)) && handle_open sh) rest.
Proof.
  induction rest as [|sh rest IH]; intros seen open hs open'; simpl.
  - intros [= <- <-]. rewrite app_nil_r, orb_false_r. by split; [|split; [constructor|]].
  - destruct (ws !! sh_pw sh) as [pw|] eqn:Hpw.
    + destruct (next sh pw) as [sh' [q|]] eqn:Hn; [done|].
      apply next_None in Hn as [-> Hq]. intros H.
      apply IH in H as (-> & HF & ->). split; [by rewrite <- app_assoc|].
      split.
      { constructor; [|done]. intros pw0 l Hpw0 Hl. apply Hq. congruence. }
      rewrite bool_decide_true by eauto. simpl. unfold handle_open.
      destruct (sh_lastP sh) as [l|]; [|by rewrite orb_true_r].
      destruct (PDone (deref l)); simpl; [done|]. by rewrite orb_true_r.
    + intros H. apply IH in H as (-> & HF & ->). split; [by rewrite <- app_assoc|].
      split.
      { constructor; [|done]. intros pw0 l Hpw0. congruence. }
      rewrite bool_decide_false by (intros [? ?]; done). done.
Qed.

Lemma ptr_eqb_Some p o : ptr_eqb (Some p) o = true ↔ ∃ l, o = Some l ∧ addr l = addr p.
Proof.
  destruct o as [l|]; simpl.
  - split.
    + intros H%Nat.eqb_eq. eauto.
    + intros (l' & [= <-] & Ha). by apply Nat.eqb_eq.
  - split; [done|]. by intros (l & ? & _).
Qed.

Lemma deliv_inv_Write O b w p now b' e :
  deliv_inv O b → Write b w p now = Returned (b', e) → deliv_inv O b'.
Proof.
  intros (HO & Hh & Hb & Hlt & Hinj & Hat) HW.
  pose proof (bus_inv_Write _ _ _ _ _ _ Hb HW) as Hb'.
  unfold Write in HW. destruct (pws b !! w) as [pw|] eqn:Hw; [|done].
  destruct (done pw); injection HW as <- <-; [done|].
  destruct Hb as [_ Hst].
  assert (Hold : ∀ w' pw' l, pws b !! w' = Some pw' → lastP pw' = Some l →
                             (addr l < next_addr b)%nat).
  { intros w' pw' l Hl Hlast. specialize (Hst w' pw' Hl). unfold stored_below in Hst.
    by rewrite Hlast in Hst. }
  split; [done|]. split; [done|]. split; [done|]. cbn [pr pws next_addr broadcast handles].
  split; [intros a Ha; apply Hlt in Ha; lia|]. split.
  - intros w1 w2 pw1 pw2 l1 l2 H1 H2 Hl1 Hl2 Heq.
    destruct (decide (w1 = w)) as [->|Hn1], (decide (w2 = w)) as [->|Hn2]; [done|..].
    + rewrite lookup_insert_eq in H1. rewrite lookup_insert_ne in H2 by done.
      injection H1 as <-. simpl in Hl1. injection Hl1 as <-. simpl in Heq.
      specialize (Hold _ _ _ H2 Hl2). lia.
    + rewrite lookup_insert_eq in H2. rewrite lookup_insert_ne in H1 by done.
      injection H2 as <-. simpl in Hl2. injection Hl2 as <-. simpl in Heq.
      specialize (Hold _ _ _ H1 Hl1). lia.
    + rewrite lookup_insert_ne in H1, H2 by done. eauto.
  - intros sh pw' l Hin Hl Hlast Ha.
    destruct (decide (sh_pw sh = w)) as [Heq|Hne].
    + rewrite Heq, lookup_insert_eq in Hl. injection Hl as <-. simpl in Hlast.
      injection Hlast as <-. simpl in Ha. apply Hlt in Ha. lia.
    + rewrite lookup_insert_ne in Hl by done. eauto.
Qed.

Lemma deliv_inv_call O b c b' o :
  deliv_inv O b → call b c = Returned (b', o) → deliv_inv (O ++ observed_addrs o) b'.
Proof.
  intros Hinv. destruct c as [w0 p now|w0 now|parent name|cd|]; simpl.
  - destruct (Write b w0 p now) as [[b1 e]|] eqn:HW; [|done].
    intros [= <- <-].
    assert (observed_addrs (stored_by b b1 w0) = []) as ->.
    { unfold stored_by. by destruct (Nat.eqb _ _). }
    rewrite app_nil_r. by eapply deliv_inv_Write.
  - destruct (Done b w0 now) as [[b1 e]|] eqn:HD; [|done].
    intros [= <- <-].
    assert (observed_addrs (stored_by b b1 w0) = []) as ->.
    { unfold stored_by. by destruct (Nat.eqb _ _). }
    rewrite app_nil_r. apply Done_cases in HD as [[-> _]|[p HW]]; [done|].
    by eapply deliv_inv_Write.
  - destruct (newWriter b parent name) as [[b1 w1]|] eqn:HN; [|done].
    intros [= <- <-]. simpl. rewrite app_nil_r.
    assert (Hb' : bus_inv b1).
    { destruct Hinv as (_ & _ & Hb & _).
      eapply (bus_inv_call b (CNewWriter parent name)); [done|]. simpl. by rewrite HN. }
    unfold newWriter in HN.
    destruct (pws b !! parent) as [ppw|]; [|done]. injection HN as <- <-.
    destruct Hinv as (HO & Hh & Hb & Hlt & Hinj & Hat).
    split; [done|]. cbn [pr pws next_addr handles].
    assert (Hlook : ∀ w pw l, <[next_pw b := mkWriter
               (if decide (id ppw = "") then name else id ppw +:+ "." +:+ name)
               None false]> (pws b) !! w = Some pw →
             lastP pw = Some l → w ≠ next_pw b ∧ pws b !! w = Some pw).
    { intros w pw l Hl Hlast. destruct (decide (w = next_pw b)) as [->|Hne].
      - rewrite lookup_insert_eq in Hl. by injection Hl as <-.
      - by rewrite lookup_insert_ne in Hl. }
    split; [|split; [done|]; split; [done|]; split].
    + unfold append. destruct (ctx_done (pr b)); [done|]. simpl.
      rewrite fmap_app. simpl. apply NoDup_app. split; [done|]. split.
      * intros x Hx ->%list_elem_of_singleton. destruct Hb as [Hb _].
        apply list_elem_of_fmap in Hx as (sh & Heq & Hin).
        rewrite Forall_forall in Hb. apply Hb in Hin. lia.
      * apply NoDup_singleton.
    + intros w1 w2 pw1 pw2 l1 l2 H1 H2 Hl1 Hl2.
      destruct (Hlook _ _ _ H1 Hl1) as [_ H1']. destruct (Hlook _ _ _ H2 Hl2) as [_ H2'].
      eauto.
    + intros sh pw l Hin Hl Hlast Ha. destruct (Hlook _ _ _ Hl Hlast) as [Hne Hl'].
      assert (sh ∈ handles (pr b)).
      { unfold append in Hin. destruct (ctx_done (pr b)); [done|]. simpl in Hin.
        apply elem_of_app in Hin as [?| ->%list_elem_of_singleton]; done. }
      eauto.
  - destruct Hinv as (HO & Hh & Hb & Hlt & Hinj & Hat).
    unfold Read. destruct cd.
    { intros [= <- <-]. simpl. by rewrite app_nil_r. }
    destruct (read_handles (pws b) [] (handles (pr b)) false) as [[hs r] open] eqn:HR.
    destruct r as [p|].
    + intros [= <- <-]. simpl.
      apply read_handles_some in HR as (pre & sh & post & pw & Hrest & -> & Hpw & Hlast & Hne).
      simpl.
      assert (Hin : sh ∈ handles (pr b)).
      { rewrite Hrest. apply elem_of_app. right. by left. }
      assert (Hfm : sh_pw <$> pre ++ mkHandle (sh_pw sh) (Some p) :: post
                    = sh_pw <$> handles (pr b)).
      { rewrite Hrest, !fmap_app, !fmap_cons. done. }
      assert (Hp : (addr p < next_addr b)%nat).
      { destruct Hb as [_ Hst]. specialize (Hst _ _ Hpw). unfold stored_below in Hst.
        by rewrite Hlast in Hst. }
      assert (HnO : addr p ∉ O).
      { intros HinO. destruct (Hat sh pw p Hin Hpw Hlast HinO) as (l' & Hl' & Ha).
        assert (ptr_eqb (Some p) (sh_lastP sh) = true) by (apply ptr_eqb_Some; eauto).
        congruence. }
      split.
      { apply NoDup_app. split; [done|]. split; [|apply NoDup_singleton].
        intros x Hx ->%list_elem_of_singleton. done. }
      cbn [pr pws next_addr handles next_pw]. split; [by rewrite Hfm|]. split.
      { destruct Hb as [Hb1 Hb2]. split; [|done]. cbn [pr handles next_pw].
        apply (Forall_fmap sh_pw (λ n, (n < next_pw b)%nat)). rewrite Hfm.
        by apply (Forall_fmap sh_pw (λ n, (n < next_pw b)%nat)). }
      split.
      { intros a [Ha| ->%list_elem_of_singleton]%elem_of_app; [by apply Hlt|done]. }
      split; [done|].
      intros sh2 pw2 l Hin2 Hpw2 Hl2 Ha.
      apply elem_of_app in Hin2 as [Hin2|Hin2].
      * (* before the delivering handle *)
        assert (Hin2' : sh2 ∈ handles (pr b)) by (rewrite Hrest; apply elem_of_app; by left).
        apply elem_of_app in Ha as [Ha| Ha%list_elem_of_singleton]; [eauto|].
        exfalso. assert (sh_pw sh2 = sh_pw sh) as Heq by (eapply Hinj; eauto).
        rewrite Hrest, fmap_app, fmap_cons in Hh. apply NoDup_app in Hh as (_ & Hh & _).
        apply (Hh (sh_pw sh2)); [by apply list_elem_of_fmap_2|]. rewrite Heq. by left.
      * apply elem_of_cons in Hin2 as [->|Hin2].
        -- simpl in Hpw2. assert (pw2 = pw) as -> by congruence.
           assert (l = p) as -> by congruence. simpl. eauto.
        -- assert (Hin2' : sh2 ∈ handles (pr b)).
           { rewrite Hrest. apply elem_of_app. right. by right. }
           apply elem_of_app in Ha as [Ha| Ha%list_elem_of_singleton]; [eauto|].
           exfalso. assert (sh_pw sh2 = sh_pw sh) as Heq by (eapply Hinj; eauto).
           rewrite Hrest, fmap_app, fmap_cons in Hh. apply NoDup_app in Hh as (_ & _ & Hh).
           apply NoDup_cons in Hh as [Hh _]. apply Hh. rewrite <- Heq.
           by apply list_elem_of_fmap_2.
    + apply read_handles_none in HR as (-> & _ & _). simpl.
      assert (mkBus (mkReader (ctx_done (pr b)) (handles (pr b)) (broadcasts (pr b)))
                (pws b) (next_pw b) (next_addr b) = b) as ->.
      { by destruct b as [[] ? ? ?]. }
      destruct (ctx_done (pr b)); [destruct (negb open)|]; intros [= <- <-]; simpl;
        by rewrite app_nil_r.
  - intros [= <- <-]. simpl. rewrite app_nil_r.
    destruct Hinv as (HO & Hh & Hb & Hlt & Hinj & Hat).
    split; [done|]. split; [done|]. split; [|done].
    destruct Hb. by split.
Qed.

Lemma deliv_inv_pipe : deliv_inv [] pipe.
Proof.
  split; [constructor|]. split; [constructor|]. split; [apply bus_inv_pipe|].
  split; [by intros a ?%elem_of_nil|]. split.
  - intros w1 w2 pw1 pw2 l1 l2 H1 _ Hl1. unfold pipe in H1. simpl in H1.
    apply lookup_singleton_Some in H1 as [_ <-]. done.
  - intros sh pw l Hin. by apply elem_of_nil in Hin.
Qed.

Lemma deliv_inv_calls cs : ∀ O b b' obs,
  deliv_inv O b → calls b cs = (b', obs) → deliv_inv (O ++ observed_addrs obs) b'.
Proof.
  induction cs as [|c cs IH]; intros O b b' obs Hinv; simpl.
  - intros [= <- <-]. simpl. by rewrite app_nil_r.
  - destruct (call b c) as [[b1 o1]|] eqn:Hc.
    + destruct (calls b1 cs) as [b2 o2] eqn:Hcs. intros [= <- <-].
      unfold observed_addrs. rewrite omap_app, app_assoc.
      eapply IH; [|done]. by eapply deliv_inv_call.
    + intros [= <- <-]. simpl. by rewrite app_nil_r.
Qed.

(** X3. In a run from [pipe()], [Read] hands out no stored event twice. *)
Theorem no_event_delivered_twice (cs : list Call) (b : Bus) (obs : list Obs) :
  calls pipe cs = (b, obs) → NoDup (observed_addrs obs).
Proof.
  intros H. eapply deliv_inv_calls in H; [|apply deliv_inv_pipe].
  simpl in H. apply H.
Qed.

Lemma read_handles_drained ws rest : ∀ seen open,
  Forall (drained ws) rest →
  read_handles ws seen rest open = (seen ++ rest, None, open).
Proof.
  induction rest as [|sh rest IH]; intros seen open HF; simpl.
  - by rewrite app_nil_r.
  - apply Forall_cons in HF as [(pw & l & Hpw & Hl & Hd & Hsame) HF].
    rewrite Hpw.
    assert (next sh pw = (sh, None)) as ->.
    { unfold next. destruct (lastP pw) as [last|]; [|done].
      rewrite Hl. simpl. rewrite (Hsame last eq_refl), Nat.eqb_refl. done. }
    rewrite Hl, Hd. simpl. rewrite IH by done. by rewrite <- app_assoc.
Qed.

Lemma bus_eta b :
  mkBus (mkReader (ctx_done (pr b)) (handles (pr b)) (broadcasts (pr b)))
        (pws b) (next_pw b) (next_addr b) = b.
Proof. by destruct b as [[] ? ? ?]. Qed.

(** X4. One pass of [Read] (with a live caller context) reports the end of
    the stream exactly when the context of the reader is cancelled and every
    handle has handed out the last event of its writer, and that event is a
    [Done] event; it then leaves the bus as it is. So a writer that is never
    closed keeps [Read] waiting. *)
Theorem Read_end_of_stream (b : Bus) :
  Forall (λ sh, is_Some (pws b !! sh_pw sh)) (handles (pr b)) →
  (∀ b', Read b false = (b', ReadEOF) → b' = b) ∧
  (Read b false = (b, ReadEOF) ↔
     ctx_done (pr b) = true ∧ Forall (drained (pws b)) (handles (pr b))).
Proof.
  intros Hall.
  assert (Hfwd : ∀ b', Read b false = (b', ReadEOF) →
            b' = b ∧ ctx_done (pr b) = true ∧ Forall (drained (pws b)) (handles (pr b))).
  { intros b'. unfold Read.
    destruct (read_handles (pws b) [] (handles (pr b)) false) as [[hs r] open] eqn:HR.
    destruct r as [p|]; [done|].
    apply read_handles_none in HR as (-> & Hnews & Hopen). simpl in *.
    rewrite bus_eta.
    destruct (ctx_done (pr b)); [|done]. destruct open; simpl; [done|].
    intros [= <-]. split; [done|]. split; [done|].
    symmetry in Hopen. rewrite <- not_true_iff_false, existsb_exists in Hopen.
    rewrite Forall_forall in Hall, Hnews. apply Forall_forall. intros sh Hin.
    destruct (Hall sh Hin) as [pw Hpw].
    assert (Hno : handle_open sh = false).
    { apply not_true_iff_false. intros Ho. apply Hopen. exists sh.
      split; [by apply list_elem_of_In|]. rewrite bool_decide_true by eauto. done. }
    unfold handle_open in Hno. destruct (sh_lastP sh) as [l|] eqn:Hl; [|done].
    exists pw, l. split; [done|]. split; [done|].
    split; [by apply negb_false_iff|].
    intros l' Hl'. specialize (Hnews sh Hin pw l' Hpw Hl'). rewrite Hl in Hnews.
    simpl in Hnews. by apply Nat.eqb_eq in Hnews. }
  split; [intros b' H; by apply Hfwd in H as [-> _]|].
  split; [intros H; by apply Hfwd in H as (_ & ? & ?)|].
  intros [Hc HF]. unfold Read.
  rewrite (read_handles_drained _ _ [] false HF). simpl. rewrite bus_eta, Hc. done.
Qed.

Lemma stale_Write a b w p now b' e :
  stale a b → Write b w p now = Returned (b', e) → stale a b'.
Proof.
  intros [Hlt Hs]. unfold Write. destruct (pws b !! w) as [pw|] eqn:Hw; [|done].
  destruct (done pw); intros [= <- <-]; [done|].
  split; [simpl; lia|]. cbn [pws]. intros w' pw' l Hl Hlast.
  destruct (decide (w' = w)) as [->|Hne].
  - rewrite lookup_insert_eq in Hl. injection Hl as <-. simpl in Hlast.
    injection Hlast as <-. simpl. lia.
  - rewrite lookup_insert_ne in Hl by done. eauto.
Qed.

Lemma stale_call a b c b' o :
  stale a b → call b c = Returned (b', o) → stale a b' ∧ a ∉ observed_addrs o.
Proof.
  intros Hs. destruct c as [w0 p now|w0 now|parent name|cd|]; simpl.
  - destruct (Write b w0 p now) as [[b1 e]|] eqn:HW; [|done].
    intros [= <- <-]. split; [by eapply stale_Write|].
    unfold stored_by. destruct (Nat.eqb _ _); apply not_elem_of_nil.
  - destruct (Done b w0 now) as [[b1 e]|] eqn:HD; [|done].
    intros [= <- <-]. split.
    + apply Done_cases in HD as [[-> _]|[p HW]]; [done|]. by eapply stale_Write.
    + unfold stored_by. destruct (Nat.eqb _ _); apply not_elem_of_nil.
  - destruct (newWriter b parent name) as [[b1 w1]|] eqn:HN; [|done].
    intros [= <- <-]. split; [|apply not_elem_of_nil]. unfold newWriter in HN.
    destruct (pws b !! parent) as [ppw|]; [|done]. injection HN as <- <-.
    destruct Hs as [Hlt Hs]. split; [done|]. cbn [pws]. intros w pw l Hl Hlast.
    destruct (decide (w = next_pw b)) as [->|Hne].
    + rewrite lookup_insert_eq in Hl. by injection Hl as <-.
    + rewrite lookup_insert_ne in Hl by done. eauto.
  - destruct (Read b cd) as [b1 r] eqn:HR. pose proof HR as HR'.
    apply Read_pws in HR' as (Hp & _ & Hn & _).
    assert (Hs1 : stale a b1).
    { destruct Hs as [Hlt Hs]. split; [by rewrite Hn|]. by rewrite Hp. }
    destruct r as [p| | |]; intros [= <- <-]; (split; [done|]);
      try apply not_elem_of_nil.
    unfold Read in HR. destruct cd; [done|].
    destruct (read_handles (pws b) [] (handles (pr b)) false) as [[hs r] open] eqn:HH.
    destruct r as [q|].
    + injection HR as <- <-. apply read_handles_some in HH
        as (pre & sh & post & pw & _ & _ & Hpw & Hlast & _).
      simpl. intros ->%list_elem_of_singleton. destruct Hs as [_ Hs]. by eapply Hs.
    + destruct (ctx_done (pr b)); [destruct (negb open)|]; done.
  - intros [= <- <-]. split; [|apply not_elem_of_nil]. destruct Hs. by split.
Qed.

Lemma stale_calls a cs : ∀ b b' obs,
  stale a b → calls b cs = (b', obs) → a ∉ observed_addrs obs.
Proof.
  induction cs as [|c cs IH]; intros b b' obs Hs; simpl.
  - intros [= <- <-]. apply not_elem_of_nil.
  - destruct (call b c) as [[b1 o1]|] eqn:Hc.
    + destruct (calls b1 cs) as [b2 o2] eqn:Hcs. intros [= <- <-].
      apply (stale_call a) in Hc as [Hs1 Ho1]; [|done].
      unfold observed_addrs. rewrite omap_app. intros [?|?]%elem_of_app; [done|].
      by eapply IH.
    + intros [= <- <-]. apply not_elem_of_nil.
Qed.

(** X5. The bus is lazy: an event that its writer overwrites before it has
    been read is never handed out by a later [Read]. *)
Theorem overwritten_event_is_never_delivered (b b1 b2 b' : Bus) (w : nat)
    (p1 p2 : Progress) (now1 now2 : Time) (cs : list Call) (obs : list Obs) :
  bus_inv b →
  Write b w p1 now1 = Returned (b1, None) →
  Write b1 w p2 now2 = Returned (b2, None) →
  calls b2 cs = (b', obs) →
  (∃ pw1, pws b1 !! w = Some pw1 ∧
          addr <$> lastP pw1 = Some (next_addr b)) ∧
  Observed (next_addr b) ∉ obs.
Proof.
  intros [_ Hst] H1 H2 Hcs.
  unfold Write in H1. destruct (pws b !! w) as [pw|] eqn:Hw; [|done].
  destruct (done pw) eqn:Hd; [done|]. injection H1 as <-.
  split; [eexists; split; [apply lookup_insert_eq|done]|].
  unfold Write in H2. cbn [pws] in H2. rewrite lookup_insert_eq in H2.
  simpl in H2. destruct (PDone p1) eqn:Hp1; [done|]. rewrite ?Hd in H2.
  injection H2 as <-.
  intros Hin. eapply (stale_calls (next_addr b)) in Hcs.
  - apply Hcs. unfold observed_addrs. apply list_elem_of_omap. eauto.
  - split; [simpl; lia|]. cbn [pws]. intros w' pw' l Hl Hlast.
    rewrite insert_insert_eq in Hl.
    destruct (decide (w' = w)) as [->|Hne].
    + rewrite lookup_insert_eq in Hl. injection Hl as <-. simpl in Hlast.
      injection Hlast as <-. simpl. lia.
    + rewrite lookup_insert_ne in Hl by done.
      specialize (Hst _ _ Hl). unfold stored_below in Hst. rewrite Hlast in Hst.
      simpl in Hst. lia.
Qed.

End ProgressRuns.

Section ProgressRunExamples.
Import Progress.

Lemma writers_of_a_run_witness :
  ∃ pw last, pws (calls pipe example_run).1 !! 1%nat = Some pw ∧
             lastP pw = Some last ∧
             done pw = PDone (deref last) ∧ ID (deref last) = id pw.
Proof.
  destruct (calls pipe example_run) as [b obs] eqn:Hc.
  destruct (pws b !! 1%nat) as [pw|] eqn:Hw;
    [|vm_compute in Hc; injection Hc as <- _; vm_compute in Hw; discriminate].
  pose proof (writers_of_a_run example_run b obs 1 pw Hc Hw) as H.
  destruct (lastP pw) as [last|] eqn:Hl.
  - exists pw, last. simpl. split; [exact Hw|]. split; [exact Hl|exact H].
  - vm_compute in Hc. injection Hc as <- _. vm_compute in Hw.
    injection Hw as <-. discriminate Hl.
Defined.

Lemma closed_writer_stays_closed_witness :
  let b := (calls pipe [CNewWriter 0 "vertex";
                        CWrite 1 (mkProgress "" "done" "" 2 2 0 true) 8]).1 in
  let cs := [CWrite 1 (mkProgress "" "late" "" 3 3 0 false) 9; CDone 1 10;
             CRead false; CNewWriter 1 "sub"; CCancel] in
  ∃ pw b' obs, pws b !! 1%nat = Some pw ∧ done pw = true ∧
        calls b cs = (b', obs) ∧
        pws b' !! 1%nat = Some pw ∧ ∀ a, Stored 1 a ∉ obs.
Proof.
  intros b cs.
  destruct (pws b !! 1%nat) as [pw|] eqn:Hw; [|vm_compute in Hw; discriminate].
  assert (Hd : done pw = true)
    by (vm_compute in Hw; injection Hw as <-; reflexivity).
  destruct (calls b cs) as [b' obs] eqn:Hc.
  destruct (closed_writer_stays_closed b 1 pw cs b' obs) as [H1 H2].
  - exact Hw.
  - exact Hd.
  - vm_compute. lia.
  - exact Hc.
  - exists pw, b', obs. done.
Defined.

Lemma no_event_delivered_twice_witness :
  (calls pipe example_run).2 ≠ [] ∧
  NoDup (observed_addrs (calls pipe example_run).2).
Proof.
  split; [vm_compute; discriminate|].
  apply (no_event_delivered_twice example_run (calls pipe example_run).1).
  by destruct (calls pipe example_run).
Defined.

Lemma Read_end_of_stream_witness :
  let b := (calls pipe example_run).1 in
  Read b false = (b, ReadEOF) ∧
  ctx_done (pr b) = true ∧ Forall (drained (pws b)) (handles (pr b)).
Proof.
  intros b.
  assert (HR : Read b false = (b, ReadEOF)) by (vm_compute; reflexivity).
  split; [exact HR|].
  destruct (Read_end_of_stream b) as [_ [Hfwd _]].
  - compute_done.
  - exact (Hfwd HR).
Defined.

Lemma overwritten_event_is_never_delivered_witness :
  let p1 := mkProgress "" "pulling" "" 1 2 0 false in
  let p2 := mkProgress "" "pulling" "" 2 2 0 false in
  ∃ b1 b2 b' obs,
    Write fresh_bus 1 p1 7 = Returned (b1, None) ∧
    Write b1 1 p2 8 = Returned (b2, None) ∧
    calls b2 [CRead false; CRead false] = (b', obs) ∧
    obs ≠ [] ∧ Observed (next_addr fresh_bus) ∉ obs.
Proof.
  intros p1 p2.
  destruct (Write fresh_bus 1 p1 7) as [[b1 e1]|] eqn:H1;
    [|vm_compute in H1; discriminate].
  assert (e1 = None) as -> by (vm_compute in H1; congruence).
  destruct (Write b1 1 p2 8) as [[b2 e2]|] eqn:H2;
    [|vm_compute in H1; injection H1 as <-; vm_compute in H2; discriminate].
  assert (e2 = None) as ->
    by (vm_compute in H1; injection H1 as <-; vm_compute in H2; congruence).
  destruct (calls b2 [CRead false; CRead false]) as [b' obs] eqn:Hc.
  destruct (overwritten_event_is_never_delivered fresh_bus b1 b2 b' 1 p1 p2 7 8
              [CRead false; CRead false] obs) as [_ Hno].
  - split; compute_done.
  - exact H1.
  - exact H2.
  - exact Hc.
  - exists b1, b2, b', obs. split; [reflexivity|]. split; [exact H2|].
    split; [exact Hc|]. split; [|exact Hno].
    vm_compute in H1; injection H1 as <-; vm_compute in H2; injection H2 as <-.
    vm_compute in Hc. injection Hc as _ <-. discriminate.
Defined.

End ProgressRunExamples.

(* ===================================================================== *)
(** * More facts about the vertex evaluator *)
(* ===================================================================== *)
Section SolverMore.
Import Solver.
Context (opt : Opt).

Lemma solve_err_set fuel g s v e :
  heap s !! g = Some v → err v = Some e → solve opt (S fuel) g s = Ok (Some e) s.
Proof.
  intros Hv He. simpl. unfold bind at 1. rewrite (get_vertex_lookup _ _ _ Hv).
  by rewrite He.
Qed.

(** X6. An error that [solve] returns is recorded in [err] of the vertex,
    and every later [solve] of the vertex returns that same error and leaves
    the state as it is. *)
Theorem solve_error_is_recorded (fuel : nat) (g : nat) (s s' : State) (e : error) :
  solve opt fuel g s = Ok (Some e) s' →
  ∃ v', heap s' !! g = Some v' ∧ err v' = Some e ∧
        ∀ fuel', solve opt (S fuel') g s' = Ok (Some e) s'.
Proof.
  destruct fuel as [|fuel]; [done|]. simpl. intros H.
  inv_bind H as v s0 Hg. apply get_vertex_Ok in Hg as [Hg ->].
  destruct (err v) as [e0|] eqn:He.
  - apply ret_Ok in H as [[= ->] ->]. exists v. split; [done|]. split; [done|].
    intros fuel'. by apply solve_err_set with v.
  - destruct (decide (0 < length (refs v))%nat); [by apply ret_Ok in H as [? _]|].
    inv_bind H as retErr s1 Hbody. destruct retErr as [e1|].
    + inv_bind H as u s2 Hu. apply ret_Ok in H as [[= ->] ->].
      apply upd_vertex_Ok in Hu as (v1 & Hv1 & ->).
      exists (with_err (Some e1) v1). simpl. rewrite lookup_insert_eq.
      split; [done|]. split; [done|]. intros fuel'.
      apply solve_err_set with (with_err (Some e1) v1); [|done].
      simpl. apply lookup_insert_eq.
    + by apply ret_Ok in H as [? _].
Qed.


Lemma solve_refs_set fuel g s v :
  heap s !! g = Some v → err v = None → refs v ≠ [] →
  solve opt (S fuel) g s = Ok None s.
Proof.
  intros Hv He Hr. simpl. unfold bind at 1. rewrite (get_vertex_lookup _ _ _ Hv).
  rewrite He. destruct (decide (0 < length (refs v))%nat) as [|Hn]; [done|].
  destruct (refs v); [done|]. simpl in Hn. lia.
Qed.

Lemma solve_inputs_terminal fuel s ins :
  Forall (λ i, ∃ vi, heap s !! i = Some vi ∧ terminal vi) ins →
  solve_inputs (solve opt (S fuel)) ins s = Ok (first_err (heap s) ins) s.
Proof.
  induction ins as [|i ins IH]; intros HF; [done|].
  apply Forall_cons in HF as [(vi & Hi & Ht) HF]. cbn [solve_inputs first_err].
  rewrite Hi. unfold bind at 1.
  destruct (err vi) as [e|] eqn:He.
  - rewrite (solve_err_set fuel i s vi e Hi He).
    unfold bind at 1. rewrite IH by done. done.
  - destruct Ht as [[e' He']|Hr]; [congruence|].
    rewrite (solve_refs_set fuel i s vi Hi He Hr).
    unfold bind at 1. rewrite IH by done. done.
Qed.




Lemma quiet_refl s : quiet s s.
Proof. split; [done|]. split; [done|]. exists []. by rewrite app_nil_r. Qed.

Lemma quiet_trans s1 s2 s3 : quiet s1 s2 → quiet s2 s3 → quiet s1 s3.
Proof.
  intros (Hc1 & Hj1 & e1 & He1 & Hf1) (Hc2 & Hj2 & e2 & He2 & Hf2).
  split; [congruence|]. split; [congruence|]. exists (e1 ++ e2).
  split; [by rewrite He2, He1, app_assoc|]. by apply Forall_app.
Qed.

Lemma quiet_emit e s u s' : is_write e = false → emit e s = Ok u s' → quiet s s'.
Proof.
  intros He ->%emit_Ok. split; [done|]. split; [done|]. exists [e]. split; [done|].
  by constructor.
Qed.

Lemma quiet_upd g f s u s' : upd_vertex g f s = Ok u s' → quiet s s'.
Proof.
  intros (v & _ & ->)%upd_vertex_Ok. split; [done|]. split; [done|].
  exists []. simpl. by rewrite app_nil_r.
Qed.

Lemma runSourceOp_quiet g o s r s' : runSourceOp opt g o s = Ok r s' → quiet s s'.
Proof.
  unfold runSourceOp. destruct (FromString opt (Identifier o)) as [e|id].
  { intros [_ ->]%ret_Ok. apply quiet_refl. }
  intros H. inv_bind H as h s1 Hh. apply history_Ok in Hh as [-> ->].
  inv_bind H as u s2 He. apply quiet_emit in He; [|done].
  destruct (Pull opt (events s) id) as [e|ref].
  - apply ret_Ok in H as [_ ->]. done.
  - inv_bind H as u2 s3 Hu. apply ret_Ok in H as [_ ->].
    eapply quiet_trans; [done|]. by eapply quiet_upd.
Qed.

Lemma exec_mounts_quiet g ms : ∀ outputs mounts s r s',
  exec_mounts opt g ms outputs mounts s = Ok r s' → quiet s s'.
Proof.
  induction ms as [|m ms IH]; intros outputs mounts s r s'; simpl.
  { intros [_ ->]%ret_Ok. apply quiet_refl. }
  intros H. inv_bind H as ref s1 Hr. apply read_Ok in Hr as [_ ->].
  destruct (decide (m_Output m ≠ SkipOutput)).
  - inv_bind H as h s1 Hh. apply history_Ok in Hh as [-> ->].
    inv_bind H as u s2 He. apply quiet_emit in He; [|done].
    destruct (New opt (events s) ref) as [e|active].
    + apply ret_Ok in H as [_ ->]. done.
    + eapply quiet_trans; [done|]. by eapply IH.
  - by eapply IH.
Qed.

Lemma exec_cleanup_quiet outputs : ∀ s u s',
  exec_cleanup opt outputs s = Ok u s' → quiet s s'.
Proof.
  induction outputs as [|[o|] outputs IH]; intros s u s'; simpl.
  - intros [_ ->]%ret_Ok. apply quiet_refl.
  - intros H. inv_bind H as h s1 Hh. apply history_Ok in Hh as [-> ->].
    inv_bind H as u1 s2 He. apply quiet_emit in He; [|done].
    destruct (Freeze opt (events s) o) as [e|[f|]].
    + eapply quiet_trans; [done|]. by eapply IH.
    + inv_bind H as h s3 Hh. apply history_Ok in Hh as [-> ->].
      inv_bind H as u2 s4 He2. apply quiet_emit in He2; [|done].
      eapply quiet_trans; [done|]. eapply quiet_trans; [done|]. by eapply IH.
    + done.
  - apply IH.
Qed.

Lemma exec_commit_quiet g todo : ∀ i outputs s r s',
  exec_commit opt g i todo outputs s = Ok r s' → quiet s s'.
Proof.
  induction todo as [|o todo IH]; intros i outputs s r s'; simpl.
  { intros [_ ->]%ret_Ok. apply quiet_refl. }
  intros H. inv_bind H as a s1 Ha. destruct o as [o|]; [|done].
  apply ret_Ok in Ha as [-> ->].
  inv_bind H as h s1 Hh. apply history_Ok in Hh as [-> ->].
  inv_bind H as u s2 He. apply quiet_emit in He; [|done].
  destruct (ReleaseAndCommit opt (events s) o) as [e|ref].
  - apply ret_Ok in H as [_ ->]. done.
  - inv_bind H as u2 s3 Hu. apply quiet_upd in Hu.
    eapply quiet_trans; [done|]. eapply quiet_trans; [done|]. by eapply IH.
Qed.

Lemma exec_commit_refs g todo : ∀ i outputs s r s' v,
  exec_commit opt g i todo outputs s = Ok r s' → heap s !! g = Some v →
  ∃ rs, heap s' !! g = Some (with_refs rs v).
Proof.
  induction todo as [|o todo IH]; intros i outputs s r s' v; simpl.
  { intros [_ ->]%ret_Ok Hv. exists (refs v). by destruct v. }
  intros H Hv. inv_bind H as a s1 Ha. destruct o as [o|]; [|done].
  apply ret_Ok in Ha as [-> ->].
  inv_bind H as h s1 Hh. apply history_Ok in Hh as [-> ->].
  inv_bind H as u s2 He. apply emit_Ok in He as ->.
  destruct (ReleaseAndCommit opt (events s) o) as [e|ref].
  - apply ret_Ok in H as [_ ->]. exists (refs v). by destruct v.
  - inv_bind H as u2 s3 Hu. apply upd_vertex_Ok in Hu as (v1 & Hv1 & ->).
    simpl in Hv1. assert (v1 = v) as -> by congruence.
    eapply IH in H; [|simpl; apply lookup_insert_eq].
    destruct H as [rs H]. exists rs. by rewrite H.
Qed.

Lemma runExecOp_quiet g o s r s' : runExecOp opt g o s = Ok r s' → quiet s s'.
Proof.
  unfold runExecOp. intros H. inv_bind H as r0 s1 Hm. apply exec_mounts_quiet in Hm.
  destruct r0 as [[e outputs]|[outputs mounts]].
  - inv_bind H as u s2 Hc. apply exec_cleanup_quiet in Hc. apply ret_Ok in H as [_ ->].
    by eapply quiet_trans.
  - inv_bind H as h s2 Hh. apply history_Ok in Hh as [-> ->].
    inv_bind H as u s2 He. apply quiet_emit in He; [|done].
    destruct (Exec opt _ _ _) as [e|].
    + inv_bind H as u2 s3 Hc. apply exec_cleanup_quiet in Hc. apply ret_Ok in H as [_ ->].
      eapply quiet_trans; [done|]. by eapply quiet_trans.
    + inv_bind H as u2 s3 Hu. apply quiet_upd in Hu.
      inv_bind H as c s4 Hc. apply exec_commit_quiet in Hc.
      inv_bind H as u3 s5 Hcl. apply exec_cleanup_quiet in Hcl.
      apply ret_Ok in H as [_ ->].
      repeat (eapply quiet_trans; [done|]). apply quiet_refl.
Qed.

Lemma runExecOp_refs g o s r s' v :
  runExecOp opt g o s = Ok r s' → heap s !! g = Some v →
  ∃ rs, heap s' !! g = Some (with_refs rs v).
Proof.
  unfold runExecOp. intros H Hv. inv_bind H as r0 s1 Hm.
  apply exec_mounts_heap in Hm.
  destruct r0 as [[e outputs]|[outputs mounts]].
  - inv_bind H as u s2 Hc. apply exec_cleanup_heap in Hc. apply ret_Ok in H as [_ ->].
    exists (refs v). rewrite Hc, Hm, Hv. by destruct v.
  - inv_bind H as h s2 Hh. apply history_Ok in Hh as [-> ->].
    inv_bind H as u s2 He. apply emit_Ok in He as ->.
    destruct (Exec opt _ _ _) as [e|].
    + inv_bind H as u2 s3 Hc. apply exec_cleanup_heap in Hc. apply ret_Ok in H as [_ ->].
      exists (refs v). rewrite Hc. simpl. rewrite Hm, Hv. by destruct v.
    + inv_bind H as u2 s3 Hu. apply upd_vertex_Ok in Hu as (v1 & Hv1 & ->).
      simpl in Hv1. rewrite Hm in Hv1. assert (v1 = v) as -> by congruence.
      inv_bind H as c s4 Hc.
      eapply exec_commit_refs in Hc as [rs Hrs]; [|simpl; apply lookup_insert_eq].
      inv_bind H as u3 s5 Hcl. apply exec_cleanup_heap in Hcl.
      apply ret_Ok in H as [_ ->]. exists rs. by rewrite Hcl, Hrs.
Qed.

Lemma runSourceOp_refs g o s r s' v :
  runSourceOp opt g o s = Ok r s' → heap s !! g = Some v →
  ∃ rs, heap s' !! g = Some (with_refs rs v).
Proof.
  unfold runSourceOp. intros H Hv.
  destruct (FromString opt (Identifier o)) as [e|id].
  { apply ret_Ok in H as [_ ->]. exists (refs v). rewrite Hv. by destruct v. }
  inv_bind H as h s1 Hh. apply history_Ok in Hh as [-> ->].
  inv_bind H as u s2 He. apply emit_Ok in He as ->.
  destruct (Pull opt (events s) id) as [e|ref].
  - apply ret_Ok in H as [_ ->]. exists (refs v). simpl. rewrite Hv. by destruct v.
  - inv_bind H as u2 s3 Hu. apply ret_Ok in H as [_ ->].
    apply upd_vertex_Ok in Hu as (v1 & Hv1 & ->). simpl in Hv1.
    assert (v1 = v) as -> by congruence. exists [ref]. simpl. apply lookup_insert_eq.
Qed.

Lemma notifyStarted_run g s v :
  heap s !! g = Some v →
  notifyStarted g s
  = Ok tt (mkState (<[g := with_vtx (started (clock s) (vtx v)) v]> (heap s))
                   (events s ++ [EvWrite (dgst v) (started (clock s) (vtx v))])
                   (clock s + 1) (jobs s)).
Proof.
  intros Hv. unfold notifyStarted. unfold bind at 1, time_Now at 1.
  unfold bind at 1, upd_vertex at 1. unfold bind at 1.
  rewrite (get_vertex_lookup g (set_clock (clock s + 1) s) v) by done.
  unfold modify at 1. unfold bind at 1.
  erewrite get_vertex_lookup by (simpl; apply lookup_insert_eq). done.
Qed.

Lemma notifyCompleted_run g s v :
  heap s !! g = Some v →
  notifyCompleted g s
  = Ok tt (mkState (<[g := with_vtx (completed (clock s) (vtx v)) v]> (heap s))
                   (events s ++ [EvWrite (dgst v) (completed (clock s) (vtx v))])
                   (clock s + 1) (jobs s)).
Proof.
  intros Hv. unfold notifyCompleted. unfold bind at 1, time_Now at 1.
  unfold bind at 1, upd_vertex at 1. unfold bind at 1.
  rewrite (get_vertex_lookup g (set_clock (clock s + 1) s) v) by done.
  unfold modify at 1. unfold bind at 1.
  erewrite get_vertex_lookup by (simpl; apply lookup_insert_eq). done.
Qed.

(** What [solve] does on a vertex whose inputs are solved already. *)
Lemma solve_runs_op fuel g s v r s' :
  heap s !! g = Some v →
  ¬ terminal v →
  Forall (λ i, ∃ vi, heap s !! i = Some vi ∧ err vi = None ∧ refs vi ≠ []) (inputs v) →
  solve opt (S (S fuel)) g s = Ok r s' →
  ∃ s1 s2 r0 rs,
    notifyStarted g s = Ok tt s1 ∧
    match Op_ (op v) with
    | Op_Source o => runSourceOp opt g o s1
    | Op_Exec o => runExecOp opt g o s1
    | Op_nil => ret (Some (Errorf "invalid op type <nil>")) s1
    end = Ok r0 s2 ∧
    r = r0 ∧
    quiet s1 s2 ∧
    heap s2 !! g = Some (with_refs rs (with_vtx (started (clock s) (vtx v)) v)) ∧
    heap s' !! g = Some (with_err r (with_vtx (completed (clock s + 1)
                            (started (clock s) (vtx v))) (with_refs rs v))) ∧
    events s' = events s2 ++ [EvWrite (dgst v) (completed (clock s + 1)
                                                  (started (clock s) (vtx v)))] ∧
    clock s' = clock s + 2.
Proof.
  intros Hv Hnt HF.
  assert (He : err v = None).
  { destruct (err v) eqn:He; [|done]. exfalso. apply Hnt. left. eauto. }
  assert (Hr : ¬ (0 < length (refs v))%nat).
  { intros Hr. apply Hnt. right. intros Hn. rewrite Hn in Hr. simpl in Hr. lia. }
  assert (HF' : Forall (λ i, ∃ vi, heap s !! i = Some vi ∧ terminal vi) (inputs v)).
  { eapply Forall_impl; [exact HF|]. intros i (vi & ? & ? & ?). exists vi.
    split; [done|]. by right. }
  assert (Hfe : first_err (heap s) (inputs v) = None).
  { clear -HF. induction HF as [|i ins (vi & Hi & Hei & _) _ IH]; [done|].
    simpl. by rewrite Hi, Hei. }
  remember (S fuel) as f eqn:Hf. simpl.
  unfold bind at 1. rewrite (get_vertex_lookup _ _ _ Hv).
  rewrite He. rewrite decide_False by done.
  intros H. inv_bind H as retErr s3 Hbody.
  assert (Hin : (if decide (0 < length (inputs v))%nat
                 then solve_inputs (solve opt f) (inputs v) else ret None) s = Ok None s).
  { destruct (decide _); [|done]. subst f.
    by rewrite (solve_inputs_terminal fuel s (inputs v) HF'), Hfe. }
  unfold bind at 1 in Hbody. rewrite Hin in Hbody.
  unfold bind at 1 in Hbody. rewrite (notifyStarted_run g s v Hv) in Hbody.
  set (s1 := mkState _ _ _ _) in Hbody.
  assert (Hv1 : heap s1 !! g = Some (with_vtx (started (clock s) (vtx v)) v)).
  { subst s1. simpl. apply lookup_insert_eq. }
  inv_bind Hbody as r0 s2 Hop.
  assert (Hq : quiet s1 s2 ∧ ∃ rs, heap s2 !! g
                 = Some (with_refs rs (with_vtx (started (clock s) (vtx v)) v))).
  { destruct (Op_ (op v)) as [o|o|].
    - split; [by eapply runSourceOp_quiet|by eapply runSourceOp_refs].
    - split; [by eapply runExecOp_quiet|by eapply runExecOp_refs].
    - apply ret_Ok in Hop as [_ ->]. split; [apply quiet_refl|].
      exists (refs v). by rewrite Hv1. }
  destruct Hq as [Hq [rs Hv2]].
  unfold bind at 1 in Hbody. rewrite (notifyCompleted_run g s2 _ Hv2) in Hbody.
  apply ret_Ok in Hbody as [-> ->].
  assert (Hc2 : clock s2 = clock s + 1) by (destruct Hq as [-> _]; done).
  exists s1, s2, r0, rs. split; [apply notifyStarted_run; done|].
  split; [by destruct (Op_ (op v))|].
  destruct r0 as [e|].
  - inv_bind H as u s4 Hu. apply ret_Ok in H as [-> ->].
    apply upd_vertex_Ok in Hu as (v4 & Hv4 & ->). simpl in Hv4.
    rewrite lookup_insert_eq in Hv4. injection Hv4 as <-.
    split; [done|]. split; [done|]. split; [done|]. simpl.
    rewrite lookup_insert_eq, Hc2. split; [done|]. split; [done|]. lia.
  - apply ret_Ok in H as [-> ->]. split; [done|]. split; [done|]. split; [done|].
    simpl. rewrite lookup_insert_eq, Hc2. split; [|split; [done|lia]].
    f_equal. destruct v; simpl in *. by rewrite He.
Qed.



(** X9. A successful [solve] of a source vertex pulls the source once and
    leaves exactly one ref in [refs], so that every later [solve] returns nil
    at once, without another pull. *)
Theorem source_is_pulled_once (fuel : nat) (g : nat) (s s' : State)
    (v : opVertex) (o : SourceOp) :
  heap s !! g = Some v →
  ¬ terminal v →
  solved_inputs s v →
  Op_ (op v) = Op_Source o →
  solve opt (S (S fuel)) g s = Ok None s' →
  ∃ v' id ref w1 w2,
    FromString opt (Identifier o) = inr id ∧
    events s' = events s ++ [EvWrite (dgst v) w1; EvPull id (inr ref); EvWrite (dgst v) w2] ∧
    heap s' !! g = Some v' ∧
    refs v' = [ref] ∧
    ∀ fuel', solve opt (S fuel') g s' = Ok None s'.
Proof.
  intros Hv Hnt HF Hop H.
  destruct (solve_runs_op fuel g s v None s' Hv Hnt HF H)
    as (s1 & s2 & r0 & rs & Hs1 & Hrun & <- & _ & Hv2 & Hv' & Hev & _).
  rewrite (notifyStarted_run g s v Hv) in Hs1. injection Hs1 as <-.
  rewrite Hop in Hrun. unfold runSourceOp in Hrun.
  destruct (FromString opt (Identifier o)) as [e|id]; [by apply ret_Ok in Hrun as [? _]|].
  inv_bind Hrun as h s3 Hh. apply history_Ok in Hh as [-> ->].
  inv_bind Hrun as u s4 He. apply emit_Ok in He as ->.
  destruct (Pull opt _ id) as [e|ref] eqn:HP; [by apply ret_Ok in Hrun as [? _]|].
  inv_bind Hrun as u2 s5 Hu. apply ret_Ok in Hrun as [_ ->].
  apply upd_vertex_Ok in Hu as (v1 & Hv1 & ->). simpl in Hv2.
  rewrite lookup_insert_eq in Hv2.
  assert (rs = [ref]) as ->.
  { apply (f_equal (λ x, refs <$> x)) in Hv2. simpl in Hv2. congruence. }
  eexists _, id, ref, _, _. split; [done|]. split.
  { rewrite Hev. simpl. rewrite <- !app_assoc. done. }
  split; [exact Hv'|]. split; [done|].
  intros fuel'. by eapply solve_refs_set.
Qed.

Lemma exec_mounts_skip g ms : ∀ outputs mounts s r s',
  filter (λ m, m_Output m ≠ SkipOutput) ms = [] →
  exec_mounts opt g ms outputs mounts s = Ok r s' →
  s' = s ∧ ∃ mounts', r = inr (outputs, mounts').
Proof.
  induction ms as [|m ms IH]; intros outputs mounts s r s' Hf; simpl.
  { intros [-> ->]%ret_Ok. eauto. }
  rewrite filter_cons in Hf.
  intros H. inv_bind H as ref s1 Hr. apply read_Ok in Hr as [_ ->].
  destruct (decide (m_Output m ≠ SkipOutput)); [done|]. by eapply IH.
Qed.

Lemma runExecOp_skip g o s r s' :
  output_mounts o = [] →
  runExecOp opt g o s = Ok r s' →
  ∃ mounts res,
    events s' = events s ++ [EvExec (e_Meta o) mounts res] ∧
    (r = None → ∀ v, heap s !! g = Some v → heap s' !! g = Some (with_refs [] v)).
Proof.
  intros Hno. unfold runExecOp. intros H. inv_bind H as r0 s1 Hm.
  apply exec_mounts_skip in Hm as [-> [mounts ->]]; [|done].
  inv_bind H as h s2 Hh. apply history_Ok in Hh as [-> ->].
  inv_bind H as u s2 He. apply emit_Ok in He as ->.
  assert (Hmeta : mkMeta (Args (e_Meta o)) (Env (e_Meta o)) (Cwd (e_Meta o)) = e_Meta o)
    by (by destruct (e_Meta o)).
  rewrite Hmeta in H.
  exists mounts, (Exec opt (events s) (e_Meta o) mounts).
  destruct (Exec opt _ _ _) as [e|].
  - simpl in H. apply ret_Ok in H as [-> ->]. split; [done|]. done.
  - inv_bind H as u2 s3 Hu. apply upd_vertex_Ok in Hu as (v1 & Hv1 & ->).
    simpl in H. apply ret_Ok in H as [_ ->]. simpl. split; [done|].
    intros _ v Hv. simpl in Hv1. rewrite lookup_insert_eq. congruence.
Qed.

(** X10. An exec all of whose mounts skip the output is left with empty
    [refs] and no error by a successful [solve]: the vertex is not terminal,
    and a later [solve] calls the worker again. *)
Theorem exec_without_outputs_runs_again (fuel : nat) (g : nat) (s s' : State)
    (v : opVertex) (o : ExecOp) :
  heap s !! g = Some v →
  ¬ terminal v →
  solved_inputs s v →
  Op_ (op v) = Op_Exec o →
  output_mounts o = [] →
  solve opt (S (S fuel)) g s = Ok None s' →
  (∃ v', heap s' !! g = Some v' ∧ refs v' = [] ∧ err v' = None) ∧
  ∀ fuel' r s'',
    solve opt (S (S fuel')) g s' = Ok r s'' →
    ∃ w1 w2 mounts res,
      events s'' = events s' ++ [EvWrite (dgst v) w1; EvExec (e_Meta o) mounts res;
                                 EvWrite (dgst v) w2].
Proof.
  intros Hv Hnt HF Hop Hno H.
  pose proof (solve_frozen opt _ _ _ _ _ H) as Hfr.
  destruct (solve_runs_op fuel g s v None s' Hv Hnt HF H)
    as (s1 & s2 & r0 & rs & Hs1 & Hrun & <- & _ & Hv2 & Hv' & Hev & _).
  rewrite Hop in Hrun. pose proof Hrun as Hrun'.
  apply runExecOp_skip in Hrun' as (mounts & res & _ & Hrefs); [|done].
  assert (Hv1 : heap s1 !! g = Some (with_vtx (started (clock s) (vtx v)) v)).
  { rewrite (notifyStarted_run g s v Hv) in Hs1. injection Hs1 as <-. simpl.
    apply lookup_insert_eq. }
  specialize (Hrefs eq_refl _ Hv1). rewrite Hv2 in Hrefs.
  assert (rs = []) as ->.
  { apply (f_equal (λ x, refs <$> x)) in Hrefs. simpl in Hrefs. congruence. }
  split.
  { eexists. split; [exact Hv'|]. done. }
  intros fuel' r s'' H2.
  set (v' := with_err None _) in Hv'.
  assert (Hnt' : ¬ terminal v').
  { intros [[e He]|Hr]; [done|]. by apply Hr. }
  assert (HF' : solved_inputs s' v').
  { unfold solved_inputs in *. subst v'. simpl.
    eapply Forall_impl; [exact HF|]. intros i (vi & Hi & Hei & Hri).
    destruct (Hfr i vi Hi) as (vi' & Hi' & He' & Hr'); [by right|].
    exists vi'. split; [done|]. split; congruence. }
  destruct (solve_runs_op fuel' g s' v' r s'' Hv' Hnt' HF' H2)
    as (t1 & t2 & q0 & qs & Ht1 & Hrun2 & _ & _ & _ & _ & Hev2 & _).
  rewrite (notifyStarted_run g s' v' Hv') in Ht1. injection Ht1 as <-.
  assert (Hop' : Op_ (op v') = Op_Exec o) by (subst v'; done).
  rewrite Hop' in Hrun2.
  apply runExecOp_skip in Hrun2 as (mounts2 & res2 & Hev3 & _); [|done].
  eexists _, _, mounts2, res2. rewrite Hev2, Hev3. simpl.
  rewrite <- !app_assoc. done.
Qed.


Lemma last_error_app retErr es1 es2 :
  last_error retErr (es1 ++ es2) = last_error (last_error retErr es1) es2.
Proof. apply foldl_app. Qed.

Lemma last_error_acc retErr es :
  last_error retErr es
  = match last_error None es with Some x => Some x | None => retErr end.
Proof.
  revert retErr. induction es as [|e es IH]; intros retErr; [done|].
  unfold last_error in *. simpl. rewrite IH.
  rewrite (IH (match e with EvRelease _ (Some x) => Some x | _ => None end)).
  destruct (foldl _ None es); [done|]. by destruct e as [| | | | |? [?|]|].
Qed.

Lemma set_events_nil s : set_events (λ es, es ++ []) s = s.
Proof. destruct s. unfold set_events. simpl. by rewrite app_nil_r. Qed.

Lemma release_refs_run rs : ∀ retErr s,
  ∃ evs,
    release_refs opt rs retErr s
      = Ok (last_error retErr evs) (set_events (λ es, es ++ evs) s) ∧
    Forall (λ e, is_release e = true) evs ∧
    ∀ r, released r evs ↔ Some r ∈ rs.
Proof.
  induction rs as [|[r|] rs IH]; intros retErr s.
  - exists []. simpl. rewrite set_events_nil. split; [done|]. split; [constructor|].
    intros r. split; [by intros [x ?%elem_of_nil]|by intros ?%elem_of_nil].
  - simpl. unfold bind at 1, history at 1, bind at 1, get at 1, ret at 1.
    unfold bind at 1, emit at 1, modify at 1.
    set (x := Release opt (events s) r).
    destruct (IH (match x with Some _ => x | None => retErr end)
                 (set_events (λ es, es ++ [EvRelease r x]) s)) as (evs & -> & HF & Hm).
    exists (EvRelease r x :: evs). split; [|split].
    + f_equal.
      * unfold last_error. simpl. by destruct x.
      * destruct s. unfold set_events. simpl. by rewrite <- app_assoc.
    + by constructor.
    + intros r'. unfold released. split.
      * intros [y [[= -> ->]|Hy]%elem_of_cons]; [by left|].
        right. apply Hm. by exists y.
      * intros [[= ->]|Hin]%elem_of_cons; [exists x; by left|].
        apply Hm in Hin as [y Hy]. exists y. by right.
  - simpl. destruct (IH retErr s) as (evs & -> & HF & Hm). exists evs.
    split; [done|]. split; [done|]. intros r. rewrite Hm. split; [by right|].
    by intros [[=]|?]%elem_of_cons.
Qed.

Lemma set_events_app evs1 evs2 s :
  set_events (λ es, es ++ evs2) (set_events (λ es, es ++ evs1) s)
  = set_events (λ es, es ++ (evs1 ++ evs2)) s.
Proof. destruct s. unfold set_events. simpl. by rewrite app_assoc. Qed.

Lemma released_app r es1 es2 : released r (es1 ++ es2) ↔ released r es1 ∨ released r es2.
Proof.
  unfold released. split.
  - intros [x [?|?]%elem_of_app]; eauto.
  - intros [[x ?]|[x ?]]; exists x; apply elem_of_app; eauto.
Qed.

Lemma release_inputs_run hp f ins :
  Forall (release_spec hp f) ins →
  ∀ retErr s, heap s = hp →
    ∃ evs,
      release_inputs f ins retErr s
        = Ok (last_error retErr evs) (set_events (λ es, es ++ evs) s) ∧
      Forall (λ e, is_release e = true) evs ∧
      ∀ r, released r evs ↔
           ∃ i u vu, i ∈ ins ∧ reachable hp i u ∧ hp !! u = Some vu ∧ Some r ∈ refs vu.
Proof.
  induction ins as [|i ins IH]; intros HF retErr s Hs.
  - exists []. simpl. rewrite set_events_nil. split; [done|]. split; [constructor|].
    intros r. split; [by intros [x ?%elem_of_nil]|].
    by intros (i & u & vu & ?%elem_of_nil & _).
  - apply Forall_cons in HF as [Hi HF]. simpl.
    destruct (Hi s Hs) as (evs1 & Hrun1 & HF1 & Hm1).
    unfold bind at 1. rewrite Hrun1.
    destruct (IH HF (match last_error None evs1 with
                     | Some _ => last_error None evs1 | None => retErr end)
                 (set_events (λ es, es ++ evs1) s)) as (evs2 & -> & HF2 & Hm2).
    { by destruct s. }
    exists (evs1 ++ evs2). split; [|split].
    + rewrite set_events_app. f_equal. rewrite last_error_app.
      rewrite (last_error_acc retErr evs1). by destruct (last_error None evs1).
    + by apply Forall_app.
    + intros r. rewrite released_app, Hm1, Hm2. split.
      * intros [(u & vu & ?)|(i' & u & vu & ? & ?)].
        -- exists i, u, vu. split; [by left|done].
        -- exists i', u, vu. split; [by right|done].
      * intros (i' & u & vu & [->|?]%elem_of_cons & ?); [left|right]; eauto.
Qed.

(** X11. On a DAG, [release] returns, leaves the vertices as they are (the
    refs stay in [refs]), and calls [Release] on exactly the non-nil refs of
    the vertices reachable from the vertex; it goes on after a failure and
    returns the error of the last [Release] that failed. *)
Theorem release_visits_everything (hp : gmap nat opVertex) (rk : nat → nat)
    (fuel : nat) (g : nat) (s : State) :
  dag hp rk →
  heap s = hp →
  is_Some (hp !! g) →
  (rk g < fuel)%nat →
  ∃ evs,
    release opt fuel g s = Ok (last_error None evs) (set_events (λ es, es ++ evs) s) ∧
    Forall (λ e, is_release e = true) evs ∧
    ∀ r, released r evs ↔
         ∃ u vu, reachable hp g u ∧ hp !! u = Some vu ∧ Some r ∈ refs vu.
Proof.
  intros Hdag. revert g s.
  induction fuel as [|fuel IH]; intros g s Hs [v Hv] Hrk; [lia|].
  cbn [release]. unfold bind at 1.
  rewrite get_vertex_lookup with (v := v) by (by rewrite Hs).
  assert (HF : Forall (release_spec hp (release opt fuel)) (inputs v)).
  { specialize (Hdag g v Hv). simpl in Hdag. eapply Forall_impl; [exact Hdag|].
    intros i [Hi Hlt] s0 Hs0. apply IH; [done..|lia]. }
  destruct (release_inputs_run hp _ _ HF None s Hs) as (evs1 & Hrun1 & HF1 & Hm1).
  unfold bind at 1. rewrite Hrun1. unfold bind at 1.
  rewrite get_vertex_lookup with (v := v) by (destruct s; simpl in *; by rewrite Hs).
  destruct (release_refs_run (refs v) (last_error None evs1)
              (set_events (λ es, es ++ evs1) s)) as (evs2 & -> & HF2 & Hm2).
  exists (evs1 ++ evs2). split; [|split].
  - by rewrite set_events_app, last_error_app.
  - by apply Forall_app.
  - intros r. rewrite released_app, Hm1, Hm2. split.
    + intros [(i & u & vu & Hi & Hr & Hu & Hin)|Hin].
      * exists u, vu. split; [|done]. by eapply reach_input.
      * exists g, v. split; [|done]. apply reach_here. eauto.
    + intros (u & vu & Hr & Hu & Hin). inversion Hr as [? ?|? v0 i ? Hg Hi Hr']; subst.
      * right. congruence.
      * left. assert (v0 = v) as -> by congruence. eauto 10.
Qed.

(** X12. [Solve] under an id that is in the job list returns the error
    "id ... exists" and does nothing: no vertex is solved, no collaborator is
    called. *)
Theorem Solve_refuses_a_used_id (fuel : nat) (id : string) (g : nat) (s : State)
    (v : opVertex) (j : job) :
  heap s !! g = Some v →
  jobs s !! id = Some j →
  Solve opt fuel id g s
  = Ok (Some (Errorf ("id " +:+ id +:+ " exists")),
        match inputs v with i :: _ => i | [] => g end) s.
Proof.
  intros Hv Hj. unfold Solve. unfold bind at 1. rewrite (get_vertex_lookup _ _ _ Hv).
  unfold bind at 1.
  assert ((match inputs v with i :: _ => ret i | [] => ret g end) s
          = Ok (match inputs v with i :: _ => i | [] => g end) s) as ->
    by (by destruct (inputs v)).
  unfold bind at 1, jobs_new. unfold bind at 1, get at 1. by rewrite Hj.
Qed.


End SolverMore.

Section SolverMoreExamples.
Import Solver.

Lemma solve_error_is_recorded_witness :
  ∃ s' v', solve bad_identifier_opt 1 0 (example_state one_output)
             = Ok (Some (Errorf "invalid identifier")) s' ∧
           heap s' !! 0%nat = Some v' ∧
           err v' = Some (Errorf "invalid identifier") ∧
           solve bad_identifier_opt 1 0 s' = Ok (Some (Errorf "invalid identifier")) s'.
Proof.
  destruct (solve bad_identifier_opt 1 0 (example_state one_output))
    as [r s'| |] eqn:Hs; [|vm_compute in Hs; discriminate..].
  assert (r = Some (Errorf "invalid identifier")) as ->
    by (vm_compute in Hs; congruence).
  destruct (solve_error_is_recorded bad_identifier_opt 1 0
              (example_state one_output) s' (Errorf "invalid identifier") Hs)
    as (v' & Hv' & He & Hagain).
  exists s', v'. split; [reflexivity|]. split; [exact Hv'|]. split; [exact He|].
  apply Hagain.
Defined.



Lemma source_is_pulled_once_witness :
  ∃ s' v' id ref w1 w2,
    solve example_opt 2 0 (example_state one_output) = Ok None s' ∧
    events s' = [EvWrite "sha256:a" w1; EvPull id (inr ref); EvWrite "sha256:a" w2] ∧
    heap s' !! 0%nat = Some v' ∧ refs v' = [ref] ∧
    solve example_opt 5 0 s' = Ok None s'.
Proof.
  destruct (solve example_opt 2 0 (example_state one_output)) as [r s'| |] eqn:Hs;
    [|vm_compute in Hs; discriminate..].
  assert (r = None) as -> by (vm_compute in Hs; congruence).
  destruct (source_is_pulled_once example_opt 0 0 (example_state one_output) s'
              source_vertex (mkSourceOp "docker-image://x" ∅))
    as (v' & id & ref & w1 & w2 & _ & Hev & Hv' & Hrefs & Hagain).
  - vm_compute. reflexivity.
  - intros [[e He]|Hr]; [discriminate He|]. apply Hr. reflexivity.
  - constructor.
  - reflexivity.
  - exact Hs.
  - exists s', v', id, ref, w1, w2. split; [reflexivity|]. split; [exact Hev|].
    split; [exact Hv'|]. split; [exact Hrefs|]. apply Hagain.
Defined.

Lemma exec_without_outputs_runs_again_witness :
  ∃ s' s'' r w1 w2 mounts res,
    solve example_opt 2 1 readonly_exec_state = Ok None s' ∧
    solve example_opt 2 1 s' = Ok r s'' ∧
    events s'' = events s' ++ [EvWrite "sha256:b" w1;
                               EvExec (mkMeta ["make"] [] "/") mounts res;
                               EvWrite "sha256:b" w2].
Proof.
  destruct (solve example_opt 2 1 readonly_exec_state) as [r s'| |] eqn:Hs;
    [|vm_compute in Hs; discriminate..].
  assert (r = None) as -> by (vm_compute in Hs; congruence).
  destruct (exec_without_outputs_runs_again example_opt 0 1 readonly_exec_state s'
              (exec_vertex [mkMount 0 "/" SkipOutput true])
              (mkExecOp (mkMeta ["make"] [] "/") [mkMount 0 "/" SkipOutput true]))
    as [_ Hagain].
  - vm_compute. reflexivity.
  - intros [[e He]|Hr]; [discriminate He|]. apply Hr. reflexivity.
  - constructor; [|constructor].
    exists solved_source. split; [vm_compute; reflexivity|]. split; [reflexivity|discriminate].
  - reflexivity.
  - vm_compute. reflexivity.
  - exact Hs.
  - destruct (solve example_opt 2 1 s') as [r2 s''| |] eqn:Hs2;
      [|vm_compute in Hs; injection Hs as <-; vm_compute in Hs2; discriminate..].
    destruct (Hagain 0%nat r2 s'' Hs2) as (w1 & w2 & mounts & res & Hev).
    exists s', s'', r2, w1, w2, mounts, res. split; [reflexivity|].
    split; [exact Hs2|exact Hev].
Defined.

Lemma release_visits_everything_witness :
  ∃ evs,
    release example_opt 3 1 solved_state
      = Ok (last_error None evs) (set_events (λ es, es ++ evs) solved_state) ∧
    Forall (λ e, is_release e = true) evs ∧
    released 1 evs.
Proof.
  destruct (release_visits_everything example_opt (heap solved_state) (λ g, g)
              3 1 solved_state) as (evs & Hrel & Hall & Hiff).
  - unfold dag. compute_done.
  - reflexivity.
  - eexists. vm_compute. reflexivity.
  - lia.
  - exists evs. split; [exact Hrel|]. split; [exact Hall|].
    apply Hiff. exists 0%nat, solved_source. split; [|split].
    + eapply reach_input with (v := exec_vertex two_outputs) (i := 0%nat).
      * vm_compute. reflexivity.
      * simpl. apply list_elem_of_here.
      * apply reach_here. eexists. vm_compute. reflexivity.
    + vm_compute. reflexivity.
    + simpl. apply list_elem_of_here.
Defined.

Lemma Solve_refuses_a_used_id_witness :
  Solve example_opt 5 "build" 1 busy_state
  = Ok (Some (Errorf "id build exists"), 0%nat) busy_state.
Proof.
  apply (Solve_refuses_a_used_id example_opt 5 "build" 1 busy_state
           (exec_vertex one_output) (mkJob 0)).
  - vm_compute. reflexivity.
  - vm_compute. reflexivity.
Defined.

End SolverMoreExamples.

(* ===================================================================== *)
(** * Facts about the loader *)
(* ===================================================================== *)
Section LoaderFacts.
Import Loader.
Context {Op : Type} (Inputs : Op → list string).
Context (Unmarshal : string → error + Op) (FromBytes : string → Digest).

Lemma parse_stops pre dt post e : ∀ m lastOp dgst,
  Forall (λ x, ∃ o, Unmarshal x = inr o) pre →
  Unmarshal dt = inl e →
  parse Unmarshal FromBytes (pre ++ dt :: post) m lastOp dgst
  = inl (Wrapf e "failed to parse op").
Proof.
  induction pre as [|x pre IH]; intros m lastOp dgst HF He; simpl.
  - by rewrite He.
  - apply Forall_cons in HF as [[o Ho] HF]. rewrite Ho. by apply IH.
Qed.

(** X13. [Load] on an empty list of ops panics (the nil op is dereferenced);
    [Load] on a list with an op that does not parse returns the error of the
    first such op, wrapped, and builds nothing. *)
Theorem Load_rejects_bad_input (fuel : nat) :
  Load Inputs Unmarshal FromBytes (S fuel) [] empty = Panic ∧
  ∀ pre dt post e st,
    Forall (λ x, ∃ o, Unmarshal x = inr o) pre →
    Unmarshal dt = inl e →
    Load Inputs Unmarshal FromBytes fuel (pre ++ dt :: post) st
    = Ok (inl (Wrapf e "failed to parse op")) st.
Proof.
  split; [done|]. intros pre dt post e st HF He. unfold Load.
  by rewrite (parse_stops pre dt post e).
Qed.

Lemma load_inputs_error (f : Digest → option Op → M State (error + nat)) m vtx ins :
  (∀ d o st e st', f d o st = Ok (inl e) st' →
     ∃ d', e = Errorf ("failed to find " +:+ d') ∧ m !! d' = None) →
  ∀ st e st', load_inputs f vtx ins m st = Ok (Some e) st' →
    ∃ d', e = Errorf ("failed to find " +:+ d') ∧ m !! d' = None.
Proof.
  intros Hf. induction ins as [|i ins IH]; intros st e st'; simpl; [done|].
  destruct (m !! i) as [o|] eqn:Hi.
  - intros H. inv_bind H as r s1 Hr. destruct r as [e1|sub].
    + apply ret_Ok in H as [[= ->] _]. by eapply Hf.
    + inv_bind H as u s2 Ha. by eapply IH.
  - intros [[= ->] _]%ret_Ok. eauto.
Qed.

(** X14. The only error of [loadReqursive] is "failed to find d", for a
    digest [d] that the map of the ops does not define. *)
Theorem Load_fails_only_on_a_missing_input (fuel : nat) (m : gmap Digest Op)
    (dgst : Digest) (o : option Op) (st st' : State) (e : error) :
  loadReqursive Inputs fuel m dgst o st = Ok (inl e) st' →
  ∃ d, e = Errorf ("failed to find " +:+ d) ∧ m !! d = None.
Proof.
  revert dgst o st st' e. induction fuel as [|fuel IH]; intros dgst o st st' e; [done|].
  simpl. intros H. inv_bind H as s0 s1 Hg. apply get_Ok in Hg as [-> ->].
  destruct (cache st !! dgst); [by apply ret_Ok in H as [? _]|].
  inv_bind H as vtx s1 Ha. inv_bind H as o' s2 Ho. inv_bind H as r s3 Hl.
  destruct r as [e1|].
  - apply ret_Ok in H as [[= ->] _]. eapply load_inputs_error; [|exact Hl]. intros. by eapply IH.
  - inv_bind H as u s4 Hm. by apply ret_Ok in H as [? _].
Qed.

End LoaderFacts.

Section LoaderTotal.
Import Loader.
Context {Op : Type} (Inputs : Op → list string).
Context (m : gmap Digest Op) (d0 : Digest) (o0 : Op) (rk : Digest → nat).

Hypothesis Hm : ∀ d o, m !! d = Some o → (below Inputs m rk) d o.

Lemma ext_refl x (st : @State Op) : ext x st st.
Proof.
  split; [done|]. split; [done|]. split; [done|].
  intros d l H1 H2. congruence.
Qed.

Lemma ext_trans x (st1 st2 st3 : @State Op) : ext x st1 st2 → ext x st2 st3 → ext x st1 st3.
Proof.
  intros (Hc1 & Hn1 & Hh1 & Hf1) (Hc2 & Hn2 & Hh2 & Hf2).
  split; [by etrans|]. split; [lia|]. split.
  - intros l Hl Hx. rewrite Hh2; [by apply Hh1|lia|done].
  - intros d l H3 H1. destruct (cache st2 !! d) as [l2|] eqn:H2.
    + assert (l2 = l) as ->.
      { eapply lookup_weaken in H2; [|exact Hc2]. congruence. }
      by eapply Hf1.
    + specialize (Hf2 d l H3 H2). lia.
Qed.

Lemma ext_weaken x (st st' : @State Op) : ext None st st' → ext x st st'.
Proof.
  intros (Hc & Hn & Hh & Hf). split; [done|]. split; [done|].
  split; [|done]. intros l Hl _. by apply Hh.
Qed.

Lemma loaded_ext x st st' l o :
  ext x st st' → (l < next st)%nat → Some l ≠ x → loaded Inputs st l o → loaded Inputs st' l o.
Proof.
  intros (Hc & Hn & Hh & _) Hl Hx (v & Hv & Ho & HF). exists v.
  split; [by rewrite Hh|]. split; [done|].
  eapply Forall2_impl; [exact HF|]. intros i sub Hi. eapply lookup_weaken; [exact Hi|exact Hc].
Qed.

Lemma load_inputs_ok f bound d o vtx :
  (call_ok Inputs m d0 o0 rk) f bound →
  ∀ ins done subs st,
    Inputs o = done ++ ins →
    Forall (λ i, is_Some (m !! i) ∧ (rk i < bound)%nat ∧ (rk i < rk d)%nat) ins →
    (load_inv Inputs m d0 o0) st →
    heap st !! vtx = Some (mkVertex (Some o) subs) →
    Forall2 (λ (i : Digest) sub, cache st !! i = Some sub) done subs →
    cache st !! d = None →
    (∀ d' l', cache st !! d' = Some l' → l' ≠ vtx) →
    ∃ subs' st',
      load_inputs f vtx ins m st = Ok None st' ∧
      (load_inv Inputs m d0 o0) st' ∧
      heap st' !! vtx = Some (mkVertex (Some o) subs') ∧
      Forall2 (λ (i : Digest) sub, cache st' !! i = Some sub) (Inputs o) subs' ∧
      cache st' !! d = None ∧
      (∀ d' l', cache st' !! d' = Some l' → l' ≠ vtx) ∧
      ext (Some vtx) st st' ∧ balanced st st' ∧
      (∀ d', cache st !! d' = None → is_Some (cache st' !! d') → (rk d' < rk d)%nat).
Proof.
  intros Hf. induction ins as [|i ins IH]; intros done subs st Hin HF Hinv Hv Hdone Hd Hrange.
  - exists subs, st. simpl. rewrite app_nil_r in Hin. rewrite Hin.
    split; [done|]. split; [done|]. split; [done|]. split; [done|]. split; [done|].
    split; [done|]. split; [apply ext_refl|]. split; [done|].
    intros d' H1 [? H2]. congruence.
  - apply Forall_cons in HF as [([oi Hoi] & Hbi & Hdi) HF]. 
    destruct (Hf i oi st Hinv) as (sub & s1 & Hcall & Hinv1 & Hci & Hext1 & Hbal1 & _ & Hrk1);
      [by left|by apply Hm|done|].
    assert (Hvn : (vtx < next st)%nat) by (destruct Hinv as [_ Hh]; by eapply Hh).
    assert (Hv1 : heap s1 !! vtx = Some (mkVertex (Some o) subs)).
    { destruct Hext1 as (_ & _ & Hh & _). by rewrite Hh. }
    set (s2 := mkState (<[vtx := mkVertex (Some o) (subs ++ [sub])]> (heap s1))
                       (next s1) (cache s1)).
    assert (Hstep : load_inputs f vtx (i :: ins) m st = load_inputs f vtx ins m s2).
    { cbn [load_inputs]. rewrite Hoi. unfold bind at 1. rewrite Hcall.
      unfold bind at 1, append_input. unfold bind at 1, get at 1.
      unfold bind at 1. rewrite Hv1. done. }
    rewrite Hstep. clear Hstep.
    assert (Hrange1 : ∀ d' l', cache s1 !! d' = Some l' → l' ≠ vtx).
    { intros d' l' Hl'. destruct (cache st !! d') as [l0|] eqn:H0.
      - destruct Hext1 as (Hc & _). pose proof (lookup_weaken _ _ _ _ H0 Hc) as H1.
        assert (l0 = l') as -> by congruence. by eapply Hrange.
      - destruct Hext1 as (_ & _ & _ & Hfresh). specialize (Hfresh d' l' Hl' H0). lia. }
    assert (Hext2 : ext (Some vtx) s1 s2).
    { subst s2. split; [done|]. split; [done|]. split.
      - intros l Hl Hne. simpl. rewrite lookup_insert_ne; [done|]. congruence.
      - intros d' l' H1 H2. simpl in H1. congruence. }
    assert (Hinv2 : (load_inv Inputs m d0 o0) s2).
    { destruct Hinv1 as [He Hh]. split.
      - intros d' l' Hl'. simpl in Hl'. destruct (He d' l' Hl') as (Hlt & o' & Hdef & Hlo).
        split; [done|]. exists o'. split; [done|].
        eapply (loaded_ext (Some vtx) s1 s2); [done|done| |done].
        intros [= ->]. by eapply Hrange1.
      - intros l v. subst s2. simpl. destruct (decide (l = vtx)) as [->|Hne].
        + intros _. destruct Hext1 as (_ & ? & _). lia.
        + rewrite lookup_insert_ne by done. apply Hh. }
    destruct (IH (done ++ [i]) (subs ++ [sub]) s2) as
      (subs' & s3 & Hrun & Hinv3 & Hv3 & HF3 & Hd3 & Hrange3 & Hext3 & Hbal3 & Hrk3).
    + by rewrite <- app_assoc.
    + done.
    + done.
    + subst s2. simpl. apply lookup_insert_eq.
    + subst s2. simpl. apply Forall2_app; [|by constructor].
      eapply Forall2_impl; [exact Hdone|]. intros j subj Hj.
      destruct Hext1 as (Hc & _). eapply lookup_weaken; [exact Hj|exact Hc].
    + subst s2. simpl. destruct (cache s1 !! d) as [ld|] eqn:Hd1; [|done].
      specialize (Hrk1 d Hd (mk_is_Some _ _ Hd1)). lia.
    + done.
    + exists subs', s3. split; [done|]. split; [done|]. split; [done|]. split; [done|].
      split; [done|]. split; [done|]. split; [|split].
      * eapply ext_trans; [apply ext_weaken; exact Hext1|].
        eapply ext_trans; [exact Hext2|done].
      * unfold balanced in *. subst s2. simpl in *. lia.
      * intros d' H0 H3. destruct (cache s1 !! d') as [l1|] eqn:H1.
        -- specialize (Hrk1 d' H0 (mk_is_Some _ _ H1)). lia.
        -- by apply Hrk3.
Qed.

Lemma loadReqursive_ok fuel : (call_ok Inputs m d0 o0 rk) (loadReqursive Inputs fuel m) fuel.
Proof.
  induction fuel as [|fuel IH]; intros d o st Hinv Hdef Hbel Hrk; [lia|].
  simpl. unfold bind at 1, get at 1.
  destruct (cache st !! d) as [l|] eqn:Hd.
  { exists l, st. split; [done|]. split; [done|]. split; [done|].
    split; [apply ext_refl|]. split; [done|]. split; [congruence|].
    intros d' H1 [? H2]. congruence. }
  unfold bind at 1, alloc at 1. unfold bind at 1. simpl.
  set (s1 := mkState _ _ _).
  assert (Hfresh : heap st !! next st = None).
  { destruct (heap st !! next st) eqn:H; [|done]. destruct Hinv as [_ Hh].
    apply Hh in H. lia. }
  assert (Hext1 : ext (Some (next st)) st s1).
  { subst s1. split; [done|]. split; [simpl; lia|]. split.
    - intros l Hl Hne. simpl. rewrite lookup_insert_ne; [done|]. congruence.
    - intros d' l' H1 H2. simpl in H1. congruence. }
  assert (Hinv1 : (load_inv Inputs m d0 o0) s1).
  { destruct Hinv as [He Hh]. split.
    - intros d' l' Hl'. simpl in Hl'. destruct (He d' l' Hl') as (Hlt & o' & Hdef' & Hlo).
      split; [simpl; lia|]. exists o'. split; [done|].
      eapply (loaded_ext (Some (next st)) st s1); [done|done| |done].
      intros [= ->]. lia.
    - intros l v. subst s1. simpl. destruct (decide (l = next st)) as [->|Hne]; [lia|].
      rewrite lookup_insert_ne by done. intros H%Hh. lia. }
  destruct (load_inputs_ok (loadReqursive Inputs fuel m) fuel d o (next st) IH
              (Inputs o) [] [] s1) as
    (subs & s2 & Hrun & Hinv2 & Hv2 & HF2 & Hd2 & Hrange2 & Hext2 & Hbal2 & Hrk2).
  - done.
  - eapply Forall_impl; [exact Hbel|]. simpl. intros i [? ?]. split; [done|]. lia.
  - done.
  - subst s1. simpl. apply lookup_insert_eq.
  - constructor.
  - done.
  - intros d' l' Hl'. simpl in Hl'. destruct Hinv as [He _].
    destruct (He d' l' Hl') as [? _]. lia.
  - unfold bind at 1. rewrite Hrun. unfold bind at 1, modify at 1. unfold ret.
    set (s3 := mkState _ _ _).
    exists (next st), s3.
    assert (Hlt : (next st < next s2)%nat).
    { destruct Hext2 as (_ & Hn & _). simpl in Hn. lia. }
    assert (Hload : loaded Inputs s3 (next st) o).
    { exists (mkVertex (Some o) subs).
      split; [done|]. split; [done|]. simpl.
      eapply Forall2_impl; [exact HF2|]. intros i sub Hi. simpl in Hi |- *.
      rewrite lookup_insert_ne; [done|]. intros ->. congruence. }
    split; [done|].
    split; [|split; [subst s3; simpl; apply lookup_insert_eq|split; [|split; [|split; [done|]]]]].
    + destruct Hinv2 as [He Hh]. split; [|done].
      intros d' l'. subst s3. simpl. destruct (decide (d' = d)) as [->|Hne].
      * rewrite lookup_insert_eq. intros [= <-]. split; [done|].
        exists o. split; [done|]. exact Hload.
      * rewrite lookup_insert_ne by done. intros Hl'.
        destruct (He d' l' Hl') as (Hl & o' & Hdef' & v & Hv & Ho & HF).
        split; [done|]. exists o'. split; [done|]. exists v. split; [done|].
        split; [done|]. simpl. eapply Forall2_impl; [exact HF|].
        intros i sub Hi. simpl in Hi |- *.
        rewrite lookup_insert_ne; [done|]. intros ->. congruence.
    + (* the whole call extends the state *)
      destruct Hext1 as (Hc1 & Hn1 & Hh1 & Hf1).
      destruct Hext2 as (Hc2 & Hn2 & Hh2 & Hf2).
      split; [|split; [subst s3; simpl; lia|split]].
      * subst s3. simpl. etrans; [exact Hc1|]. etrans; [exact Hc2|].
        by apply insert_subseteq.
      * intros l Hl _. subst s3. simpl.
        rewrite Hh2; [|simpl; lia|intros [= ->]; lia].
        apply Hh1; [done|]. intros [= ->]. lia.
      * intros d' l' H3 H0. subst s3. simpl in H3.
        destruct (decide (d' = d)) as [->|Hne].
        -- rewrite lookup_insert_eq in H3. injection H3 as <-. done.
        -- rewrite lookup_insert_ne in H3 by done.
           specialize (Hf2 d' l' H3 H0). simpl in Hf2. lia.
    + unfold balanced in *. subst s3 s1. simpl in *.
      rewrite map_size_insert_None by done. lia.
    + intros d' H0 [l' H3]. subst s3. simpl in H3.
      destruct (decide (d' = d)) as [->|Hne]; [done|].
      rewrite lookup_insert_ne in H3 by done.
      assert (rk d' < rk d)%nat; [|lia]. apply Hrk2; [done|eauto].
Qed.

(** X15. When the inputs of every op are defined among the ops and the
    graph of the ops is acyclic, [Load] returns a vertex for the last op. It
    has allocated one vertex per digest loaded, and the inputs of each vertex
    are the vertices of the input digests of its op, in order: vertices are
    shared by digest. *)
Theorem Load_builds_one_vertex_per_digest (Unmarshal : string → error + Op)
    (FromBytes : string → Digest) (ops : list string) :
  parse Unmarshal FromBytes ops ∅ None "" = inr (m, Some o0, d0) →
  (below Inputs m rk) d0 o0 →
  ∃ l st',
    Load Inputs Unmarshal FromBytes (S (rk d0)) ops empty = Ok (inr l) st' ∧
    cache st' !! d0 = Some l ∧
    loaded Inputs st' l o0 ∧
    next st' = size (cache st') ∧
    ∀ d l', cache st' !! d = Some l' →
            (l' < next st')%nat ∧ ∃ o, (defines m d0 o0) d o ∧ loaded Inputs st' l' o.
Proof.
  intros Hp H0. unfold Load. rewrite Hp.
  destruct (loadReqursive_ok (S (rk d0)) d0 o0 empty)
    as (l & st' & Hrun & Hinv & Hc & _ & Hbal & Hl & _).
  - split; [intros d l H; simpl in H; by rewrite lookup_empty in H|].
    intros l v H. simpl in H. by rewrite lookup_empty in H.
  - by right.
  - done.
  - lia.
  - exists l, st'. split; [done|]. split; [done|]. split; [by apply Hl|].
    split; [|apply Hinv]. unfold balanced in Hbal. simpl in Hbal.
    rewrite map_size_empty in Hbal. lia.
Qed.

End LoaderTotal.

Section LoaderExamples.
Import Loader.

Lemma Load_rejects_bad_input_witness :
  Load (λ o : list string, o) example_Unmarshal example_FromBytes 1 [] empty = Panic ∧
  Load (λ o : list string, o) example_Unmarshal example_FromBytes 3 ["a"; "zzz"; "b"] empty
  = Ok (inl (Wrapf (Errorf "proto: cannot parse") "failed to parse op")) empty.
Proof.
  split.
  - apply (Load_rejects_bad_input (λ o : list string, o) example_Unmarshal
             example_FromBytes 0).
  - apply (proj2 (Load_rejects_bad_input (λ o : list string, o) example_Unmarshal
                    example_FromBytes 3) ["a"] "zzz" ["b"]).
    + constructor; [|constructor]. eexists. reflexivity.
    + reflexivity.
Defined.

Lemma Load_fails_only_on_a_missing_input_witness :
  ∃ st' d,
    loadReqursive (λ o : list string, o) 2 {[ "d:a" := [] ]} "d:x"
                  (Some ["d:a"; "d:nowhere"]) empty
    = Ok (inl (Errorf ("failed to find " +:+ d))) st' ∧
    ({[ "d:a" := [] ]} : gmap Digest (list string)) !! d = None.
Proof.
  destruct (loadReqursive (λ o : list string, o) 2 {[ "d:a" := [] ]} "d:x"
              (Some ["d:a"; "d:nowhere"]) empty) as [[e|l] st'| |] eqn:HL;
    [|vm_compute in HL; discriminate..].
  destruct (Load_fails_only_on_a_missing_input _ _ _ _ _ _ _ _ HL) as (d & -> & Hd).
  exists st', d. split; [reflexivity|exact Hd].
Defined.

Lemma Load_builds_one_vertex_per_digest_witness :
  ∃ l st',
    Load (λ o : list string, o) example_Unmarshal example_FromBytes 3
         ["a"; "b"; "c"] empty = Ok (inr l) st' ∧
    cache st' !! "d:c" = Some l ∧
    loaded (λ o : list string, o) st' l ["d:a"; "d:b"] ∧
    next st' = 3%nat ∧ size (cache st') = 3%nat.
Proof.
  destruct (Load_builds_one_vertex_per_digest (λ o : list string, o)
              {[ "d:a" := []; "d:b" := ["d:a"] ]} "d:c" ["d:a"; "d:b"] example_rank)
    with (Unmarshal := example_Unmarshal) (FromBytes := example_FromBytes)
         (ops := ["a"; "b"; "c"])
    as (l & st' & HL & Hc & Hl & Hn & _).
  - apply map_Forall_lookup. unfold below. compute_done.
  - vm_compute. reflexivity.
  - unfold below. compute_done.
  - exists l, st'. split; [exact HL|]. split; [exact Hc|]. split; [exact Hl|].
    vm_compute in HL. injection HL as <- <-. split; vm_compute; reflexivity.
Defined.

End LoaderExamples.

(* ===================================================================== *)
(** * More facts about the cache records *)
(* ===================================================================== *)
Section CacheMore.
Import Cache.
Context (ext : list ExtCall → ExtCall → option error).
Context (snapshotterName : string).
Context (rk : nat → nat).

Lemma set_recs_id s cr r : recs s !! cr = Some r → set_recs <[cr := r]> s = s.
Proof. intros H. destruct s. unfold set_recs. simpl in *. by rewrite insert_id. Qed.

(** X16. [Clone] followed by [Release] of the clone leaves the records,
    the live map, the metadata and the clock as they were; no collaborator is
    called. Only the handle allocated stays behind. *)
Theorem Clone_then_Release_restores (fuel : nat) (h : nat) (s : State)
    (hd : immutableRef) (r : cacheRecord) :
  irefs s !! h = Some hd →
  recs s !! i_cacheRecord hd = Some r →
  refs r ≠ ∅ →
  IRef (next_ref s) ∉ refs r →
  ∃ s1 s2,
    Clone h s = Ok (next_ref s) s1 ∧
    immutableRef_release ext (S fuel) (next_ref s) s1 = Ok None s2 ∧
    recs s2 = recs s ∧ mrefs s2 = mrefs s ∧ records s2 = records s ∧
    trace s2 = trace s ∧ clock s2 = clock s ∧ spawned s2 = spawned s ∧
    irefs s2 = <[next_ref s := mkIRef (i_cacheRecord hd) false]> (irefs s).
Proof.
  intros Hh Hr Hne Hfresh.
  set (l := next_ref s). set (cr := i_cacheRecord hd).
  set (s1 := set_recs <[cr := with_refs (λ rs, {[IRef l]} ∪ rs) r]>
               (set_irefs <[l := mkIRef cr false]> (set_next_ref (S l) s))).
  assert (HC : Clone h s = Ok l s1).
  { unfold Clone. unfold bind at 1. rewrite (get_iref_lookup _ _ _ Hh).
    unfold cacheRecord_ref. unfold bind at 1, get at 1.
    unfold bind at 1, modify at 1. unfold bind at 1, modify at 1.
    unfold bind at 1.
    rewrite (upd_rec_lookup (i_cacheRecord hd) _ _ r) by done. done. }
  assert (Hl1 : irefs s1 !! l = Some (mkIRef cr false)).
  { subst s1. simpl. apply lookup_insert_eq. }
  assert (Hr1 : recs s1 !! cr = Some (with_refs (λ rs, {[IRef l]} ∪ rs) r)).
  { subst s1. simpl. apply lookup_insert_eq. }
  assert (Hrefs : ({[IRef l]} ∪ refs r) ∖ {[IRef l]} = refs r).
  { apply set_eq. intros x. rewrite elem_of_difference, elem_of_union, elem_of_singleton.
    split; [intros [[->|?] ?]; done|]. intros Hx. split; [by right|]. by intros ->. }
  set (s2 := set_irefs <[l := mkIRef cr false]> (set_next_ref (S l) s)).
  exists s1, s2. split; [done|]. split; [|done].
  cbn [immutableRef_release]. unfold bind at 1. rewrite (get_iref_lookup _ _ _ Hl1).
  cbn [i_cacheRecord]. unfold bind at 1.
  rewrite (upd_rec_lookup cr _ _ _ Hr1).
  set (s1' := set_recs _ s1).
  assert (Hs1' : s1' = s2).
  { assert (Hrr : with_refs (λ rs, rs ∖ {[IRef l]}) (with_refs (λ rs, {[IRef l]} ∪ rs) r) = r).
    { clear -Hrefs. destruct r; unfold with_refs; simpl in *. by rewrite Hrefs. }
    subst s1'. rewrite Hrr. subst s1 s2. unfold set_recs. simpl.
    rewrite insert_insert_eq, insert_id by done. done. }
  rewrite Hs1'. unfold bind at 1, updateLastUsedNow. unfold bind at 1.
  assert (Hl2 : irefs s2 !! l = Some (mkIRef cr false)).
  { subst s2. simpl. apply lookup_insert_eq. }
  assert (Hr2 : recs s2 !! cr = Some r) by done.
  rewrite (get_iref_lookup _ _ _ Hl2). simpl.
  unfold bind at 1, ret at 1. unfold bind at 1. rewrite (get_rec_lookup _ _ _ Hr2).
  rewrite decide_False; [done|]. intros Hz. apply size_empty_iff in Hz.
  apply Hne. by apply leibniz_equiv.
Qed.

Lemma finalize_no_mutable cr b s r :
  recs s !! cr = Some r → equalMutable r = None →
  finalize ext snapshotterName cr b s = Ok None s.
Proof.
  intros Hr He. unfold finalize. unfold bind at 1. rewrite (get_rec_lookup _ _ _ Hr).
  by rewrite He.
Qed.

(** X17. A [finalize] with commit that returns nil on a record with an
    equal-mutable has committed the snapshot, marked the mutable dead and
    started its removal, created the lease with the snapshot in it and
    detached the mutable from the record; every later [finalize] of the
    record returns nil and does nothing. *)
Theorem finalize_commits_once (cr : nat) (s s' : State) (r mr : cacheRecord)
    (m : nat) (mh : mutableRef) :
  recs s !! cr = Some r →
  equalMutable r = Some m →
  mrefs s !! m = Some mh →
  recs s !! m_cacheRecord mh = Some mr →
  m_cacheRecord mh ≠ cr →
  finalize ext snapshotterName cr true s = Ok None s' →
  recs s' !! cr
    = Some (with_md (λ si, committed (queue UClearEqualMutable si))
                    (with_equalMutable None r)) ∧
  recs s' !! m_cacheRecord mh = Some (with_dead true mr) ∧
  trace s' = trace s ++ [Snapshotter_Commit (cacheRecord_ID r) (cacheRecord_ID mr);
                         LeaseManager_Create (cacheRecord_ID r) (clock s);
                         LeaseManager_AddResource (cacheRecord_ID r) (cacheRecord_ID r)
                           ("snapshots/" +:+ snapshotterName);
                         Metadata_Commit (cacheRecord_ID r)] ∧
  spawned s' = spawned s ++ [GoRemove (m_cacheRecord mh) true] ∧
  ∀ b, finalize ext snapshotterName cr b s' = Ok None s'.
Proof.
  intros Hr Hm Hmh Hmr Hne H. unfold finalize in H.
  inv_bind H as r0 s0 Hg. apply get_rec_Ok in Hg as [Hg ->].
  assert (r0 = r) as -> by congruence. rewrite Hm in H.
  inv_bind H as mh0 s0 Hg2. apply get_mref_Ok in Hg2 as [Hg2 ->].
  assert (mh0 = mh) as -> by congruence.
  inv_bind H as mr0 s0 Hg3. apply get_rec_Ok in Hg3 as [Hg3 ->].
  assert (mr0 = mr) as -> by congruence. simpl in H.
  inv_bind H as e1 s1 He1. apply ext_call_Ok in He1 as [-> ->].
  destruct (ext (trace s) _) as [err|]; [by apply ret_Ok in H as [? _]|].
  inv_bind H as u1 s2 Hu1. apply upd_rec_Ok in Hu1 as (x & Hx & ->). simpl in Hx.
  assert (x = mr) as -> by congruence.
  inv_bind H as u2 s3 Hu2. apply modify_Ok in Hu2 as ->.
  inv_bind H as now s4 Ht. injection Ht as <- <-.
  inv_bind H as e2 s5 He2. apply ext_call_Ok in He2 as [-> ->].
  destruct (ext _ (LeaseManager_Create _ _)) as [err|]; [by apply ret_Ok in H as [? _]|].
  inv_bind H as e3 s6 He3. apply ext_call_Ok in He3 as [-> ->].
  destruct (ext _ (LeaseManager_AddResource _ _ _)) as [err|];
    [by apply ret_Ok in H as [? _]|].
  inv_bind H as u3 s7 Hu3. apply upd_rec_Ok in Hu3 as (x & Hx' & ->). simpl in Hx'.
  rewrite lookup_insert_ne in Hx' by done. assert (x = r) as -> by congruence.
  inv_bind H as u4 s8 Hu4. apply upd_rec_Ok in Hu4 as (x & Hx'' & ->). simpl in Hx''.
  rewrite lookup_insert_eq in Hx''. injection Hx'' as <-.
  unfold md_Commit in H.
  inv_bind H as r9 s9 Hg9. apply get_rec_Ok in Hg9 as [Hg9 ->]. simpl in Hg9.
  rewrite lookup_insert_eq in Hg9. injection Hg9 as <-.
  inv_bind H as e4 s10 He4. apply ext_call_Ok in He4 as [-> ->].
  destruct (ext _ (Metadata_Commit _)) as [err|]; [by apply ret_Ok in H as [? _]|].
  inv_bind H as u5 s11 Hu5. apply modify_Ok in Hu5 as ->. apply ret_Ok in H as [_ ->].
  simpl. rewrite !insert_insert_eq, lookup_insert_eq.
  split; [done|]. split.
  { rewrite lookup_insert_ne by done. apply lookup_insert_eq. }
  split; [by rewrite <- !app_assoc|]. split; [done|].
  intros b. eapply finalize_no_mutable; [simpl; apply lookup_insert_eq|done].
Qed.

(** X18. When the snapshot commit of [finalize] succeeds and the creation
    of the lease fails, [finalize] returns the wrapped error and rolls
    nothing back: the mutable is dead and its removal is started, the record
    is still attached to it, and [isDead] of the record is true. *)
Theorem finalize_does_not_roll_back (cr : nat) (s : State) (r mr : cacheRecord)
    (m : nat) (mh : mutableRef) (err : error) :
  recs s !! cr = Some r →
  dead r = false →
  equalImmutable r = None →
  equalMutable r = Some m →
  mrefs s !! m = Some mh →
  recs s !! m_cacheRecord mh = Some mr →
  m_cacheRecord mh ≠ cr →
  ext (trace s) (Snapshotter_Commit (cacheRecord_ID r) (cacheRecord_ID mr)) = None →
  ext (trace s ++ [Snapshotter_Commit (cacheRecord_ID r) (cacheRecord_ID mr)])
      (LeaseManager_Create (cacheRecord_ID r) (clock s)) = Some err →
  ∃ s',
    finalize ext snapshotterName cr true s
      = Ok (Some (Wrapf err "failed to create lease")) s' ∧
    recs s' !! cr = Some r ∧
    recs s' !! m_cacheRecord mh = Some (with_dead true mr) ∧
    spawned s' = spawned s ++ [GoRemove (m_cacheRecord mh) true] ∧
    isDead cr s' = Ok true s'.
Proof.
  intros Hr Hd Hei Hm Hmh Hmr Hne He1 He2.
  eexists. split.
  { unfold finalize. unfold bind at 1. rewrite (get_rec_lookup _ _ _ Hr), Hm.
    unfold bind at 1. rewrite (get_mref_lookup _ _ _ Hmh).
    unfold bind at 1. rewrite (get_rec_lookup _ _ _ Hmr). simpl.
    unfold bind at 1, ext_call at 1. rewrite He1.
    unfold bind at 1. rewrite (upd_rec_lookup _ _ _ mr) by done.
    unfold bind at 1, modify at 1. unfold bind at 1, time_Now at 1.
    unfold bind at 1, ext_call at 1. simpl. rewrite He2. reflexivity. }
  simpl. rewrite lookup_insert_ne by done. split; [done|].
  rewrite lookup_insert_eq. split; [done|]. split; [done|].
  unfold isDead. unfold bind at 1. erewrite get_rec_lookup
    by (simpl; rewrite lookup_insert_ne by done; exact Hr).
  rewrite Hd, Hei. unfold bind at 1, ret at 1. rewrite Hm.
  unfold bind at 1. erewrite get_mref_lookup by (simpl; exact Hmh).
  unfold bind at 1. erewrite get_rec_lookup by (simpl; apply lookup_insert_eq).
  done.
Qed.

Lemma shrinks_refl s : shrinks s s.
Proof. by intros k. Qed.

Lemma shrinks_trans s1 s2 s3 : shrinks s1 s2 → shrinks s2 s3 → shrinks s1 s3.
Proof. intros H1 H2 k Hk. by apply H2, H1. Qed.

Lemma shrinks_same s s' : records s' = records s → shrinks s s'.
Proof. intros H k. by rewrite H. Qed.

Lemma shrinks_upd_rec l f s u s' : upd_rec l f s = Ok u s' → shrinks s s'.
Proof. intros (r & _ & ->)%upd_rec_Ok. by apply shrinks_same. Qed.

Lemma shrinks_updateLastUsed l s u s' : updateLastUsed l s = Ok u s' → shrinks s s'.
Proof.
  unfold updateLastUsed. intros H. inv_bind H as t s1 Ht. injection Ht as <- <-.
  apply upd_rec_Ok in H as (r & _ & ->). by apply shrinks_same.
Qed.

Lemma shrinks_ext_call c s e s' : ext_call ext c s = Ok e s' → shrinks s s'.
Proof. intros [_ ->]%ext_call_Ok. by apply shrinks_same. Qed.

Lemma updateLastUsedNow_same sr s b s' : updateLastUsedNow sr s = Ok b s' → s' = s.
Proof.
  unfold updateLastUsedNow. intros H. inv_bind H as h s1 Hh.
  apply get_iref_Ok in Hh as [_ ->]. destruct (negb _); [by apply ret_Ok in H as [_ ->]|].
  inv_bind H as r s1 Hr. apply get_rec_Ok in Hr as [_ ->].
  inv_bind H as s0 s1 Hg. apply get_Ok in Hg as [-> ->]. by apply ret_Ok in H as [_ ->].
Qed.

Ltac ret_done H :=
  apply ret_Ok in H as [_ ->]; eauto using shrinks_refl, shrinks_trans.

Lemma release_shrinks fuel :
  (∀ h, shrink_run (immutableRef_release ext fuel h)) ∧
  (∀ m, shrink_run (mutableRef_release ext fuel m)) ∧
  (∀ cr b, shrink_run (cacheRecord_remove ext fuel cr b)).
Proof.
  induction fuel as [|fuel (IHI & IHM & IHR)].
  { split; [|split]; intros; intros s a s' H; done. }
  split; [|split].
  - intros sr s e s' H. cbn [immutableRef_release] in H.
    inv_bind H as h s1 Hh. apply get_iref_Ok in Hh as [_ ->].
    inv_bind H as u s1 Hu. apply shrinks_upd_rec in Hu.
    inv_bind H as now_ s2 Hn. apply updateLastUsedNow_same in Hn as ->.
    inv_bind H as u2 s2 Ht.
    assert (Ht' : shrinks s1 s2).
    { destruct now_; [|ret_done Ht].
      inv_bind Ht as u3 s3 Hl. apply shrinks_updateLastUsed in Hl.
      inv_bind Ht as r s4 Hr. apply get_rec_Ok in Hr as [_ ->].
      destruct (equalMutable r); [|ret_done Ht].
      inv_bind Ht as mh s4 Hm. apply get_mref_Ok in Hm as [_ ->].
      apply modify_Ok in Ht as ->. eauto using shrinks_refl, shrinks_trans, shrinks_same. }
    inv_bind H as r s3 Hr. apply get_rec_Ok in Hr as [_ ->].
    eapply shrinks_trans; [done|]. eapply shrinks_trans; [done|].
    destruct (decide _); [|ret_done H].
    inv_bind H as e1 s3 Hv.
    assert (Hv' : shrinks s2 s3).
    { destruct (viewMount r); [|ret_done Hv].
      inv_bind Hv as e2 s4 Hc. apply shrinks_ext_call in Hc.
      destruct e2; [ret_done Hv|].
      inv_bind Hv as u3 s5 Hu3. apply shrinks_upd_rec in Hu3.
      apply ret_Ok in Hv as [_ ->]. by eapply shrinks_trans. }
    eapply shrinks_trans; [done|].
    destruct e1; [ret_done H|].
    inv_bind H as r1 s4 Hr1. apply get_rec_Ok in Hr1 as [_ ->].
    destruct (equalMutable r1); [|ret_done H].
    inv_bind H as e3 s4 Hm. apply IHM in Hm. ret_done H.
  - intros sr s e s' H. cbn [mutableRef_release] in H.
    inv_bind H as h s1 Hh. apply get_mref_Ok in Hh as [_ ->].
    inv_bind H as u s1 Hu. apply shrinks_upd_rec in Hu.
    inv_bind H as r s2 Hr. apply get_rec_Ok in Hr as [_ ->].
    eapply shrinks_trans; [done|].
    assert (Htouch : ∀ s2 u s3,
      (h0 <- get_mref sr ;;
       if m_triggerLastUsed h0 then
         updateLastUsed (m_cacheRecord h) ;;
         modify (set_mrefs <[sr := mkMRef (m_cacheRecord h0) false]>)
       else ret tt)%go s2 = Ok u s3 → shrinks s2 s3).
    { intros t2 u2 t3 Ht. inv_bind Ht as h0 t4 Hh0. apply get_mref_Ok in Hh0 as [_ ->].
      destruct (m_triggerLastUsed h0); [|ret_done Ht].
      inv_bind Ht as u3 t5 Hl. apply shrinks_updateLastUsed in Hl.
      apply modify_Ok in Ht as ->. eauto using shrinks_refl, shrinks_trans, shrinks_same. }
    destruct (decide _).
    + inv_bind H as e1 s3 He.
      assert (He' : shrinks s1 s3).
      { destruct (equalImmutable r); [|ret_done He].
        inv_bind He as eh s4 Hg. apply get_iref_Ok in Hg as [_ ->].
        inv_bind He as er s4 Hg. apply get_rec_Ok in Hg as [_ ->].
        destruct (decide _).
        - inv_bind He as u4 s5 Ht. apply Htouch in Ht. ret_done He.
        - inv_bind He as e2 s5 Hrm. apply IHR in Hrm.
          destruct e2; ret_done He. }
      eapply shrinks_trans; [done|].
      destruct e1 as [res|[]]; [ret_done H|].
      inv_bind H as e2 s4 Hp.
      assert (Hp' : shrinks s3 s4).
      { destruct (parent r); [by apply IHI in Hp|ret_done Hp]. }
      eapply shrinks_trans; [done|].
      destruct e2; [ret_done H|]. by apply IHR in H.
    + inv_bind H as u4 s3 Ht. apply Htouch in Ht. ret_done H.
  - intros cr b s e s' H. cbn [cacheRecord_remove] in H.
    inv_bind H as r s1 Hr. apply get_rec_Ok in Hr as [_ ->].
    inv_bind H as u s1 Hd. apply modify_Ok in Hd as ->.
    assert (Hdel : shrinks s (set_records (delete (cacheRecord_ID r)) s)).
    { intros k Hk. simpl. destruct (decide (k = cacheRecord_ID r)) as [->|Hne].
      - apply lookup_delete_eq.
      - by rewrite lookup_delete_ne. }
    eapply shrinks_trans; [done|].
    inv_bind H as e1 s2 Hp.
    assert (Hp' : shrinks (set_records (delete (cacheRecord_ID r)) s) s2).
    { destruct (parent r); [by apply IHI in Hp|ret_done Hp]. }
    eapply shrinks_trans; [done|].
    destruct e1; [ret_done H|].
    inv_bind H as e2 s3 Hl.
    assert (Hl' : shrinks s2 s3).
    { destruct b; [|ret_done Hl].
      inv_bind Hl as e3 s4 Hc. apply shrinks_ext_call in Hc.
      destruct e3; ret_done Hl. }
    eapply shrinks_trans; [done|].
    destruct e2; [ret_done H|]. by apply shrinks_ext_call in H.
Qed.

(** X19. In a ranked store, releasing a mutable ref that has no retain
    policy and no equal-immutable returns; when it returns nil the record is
    gone from the live map, and the lease of the record was deleted and its
    metadata cleared as the last two calls. *)
Theorem mutable_release_deletes (fuel : nat) (m : nat) (s : State)
    (mh : mutableRef) (r : cacheRecord) :
  ranked s rk →
  mrefs s !! m = Some mh →
  recs s !! m_cacheRecord mh = Some r →
  getCachePolicy (md r) ≠ cachePolicyRetain →
  equalImmutable r = None →
  (3 * rk (m_cacheRecord mh) + 2 ≤ fuel)%nat →
  ∃ e s',
    mutableRef_release ext fuel m s = Ok e s' ∧
    (e = None →
     records s' !! cacheRecord_ID r = None ∧
     ∃ t, trace s' = t ++ [LeaseManager_Delete (cacheRecord_ID r);
                           Metadata_Clear (cacheRecord_ID r)]).
Proof.
  intros Hrk Hmh Hr Hpol Hei Hfuel.
  destruct (release_cascade ext rk fuel) as (_ & HM & _).
  destruct (HM m s mh Hrk Hmh Hfuel) as (e & s' & Hrun & _).
  exists e, s'. split; [done|]. intros ->.
  destruct fuel as [|fuel]; [done|]. cbn [mutableRef_release] in Hrun.
  set (cr := m_cacheRecord mh) in *.
  inv_bind Hrun as h s1 Hh. apply get_mref_Ok in Hh as [Hh ->].
  assert (h = mh) as -> by congruence. fold cr in Hrun.
  inv_bind Hrun as u s1 Hu. apply upd_rec_Ok in Hu as (r0 & Hr0 & ->).
  assert (r0 = r) as -> by congruence.
  inv_bind Hrun as r1 s2 Hr1. apply get_rec_Ok in Hr1 as [Hr1 ->].
  simpl in Hr1. rewrite lookup_insert_eq in Hr1. injection Hr1 as <-.
  cbn [with_refs md equalImmutable parent] in Hrun.
  rewrite decide_True in Hrun by done. rewrite Hei in Hrun.
  unfold bind at 1, ret at 1 in Hrun.
  inv_bind Hrun as e1 s3 Hp. destruct e1 as [err|]; [by apply ret_Ok in Hrun as [? _]|].
  set (s1 := set_recs _ s) in Hp.
  (* the record keeps its id while the parent is released *)
  assert (Hid : ∃ r3, recs s3 !! cr = Some r3 ∧ md r3 = md r).
  { destruct (parent r) as [p|] eqn:Hpar.
    - assert (Hrk1 : ranked s1 rk).
      { eapply ranked_shape; [exact Hrk|]. subst s1. split; [done|]. split; [done|].
        intros l. simpl. destruct (decide (l = cr)) as [->|Hne].
        + rewrite lookup_insert_eq, Hr. done.
        + by rewrite lookup_insert_ne. }
      destruct (ranked_parent rk s cr r p Hrk Hr Hpar) as (ph & Hph & Hlt).
      destruct (ranked_iref rk s p ph Hrk Hph) as [pr Hpr].
      destruct (release_cascade ext rk fuel) as (HI & _ & _).
      assert (Hpr1 : recs s1 !! i_cacheRecord ph = Some pr).
      { subst s1. simpl. rewrite lookup_insert_ne; [done|]. intros Heq.
        rewrite Heq in Hlt. lia. }
      destruct (HI p s1 ph pr Hrk1 Hph Hpr1) as (e' & s3' & r' & Hrun' & Hk & _); [lia|].
      rewrite Hrun' in Hp. injection Hp as _ <-.
      destruct (keeps_md rk _ s1 s3' cr (with_refs (λ rs, rs ∖ {[MRef m]}) r) Hk)
        as (r3 & Hr3 & Hmd & _); [lia|subst s1; simpl; apply lookup_insert_eq|].
      exists r3. done.
    - apply ret_Ok in Hp as [_ ->]. eexists. split; [subst s1; simpl; apply lookup_insert_eq|done]. }
  destruct Hid as (r3 & Hr3 & Hmd3).
  destruct fuel as [|fuel']; [done|]. cbn [cacheRecord_remove] in Hrun.
  inv_bind Hrun as r4 s4 Hr4. apply get_rec_Ok in Hr4 as [Hr4 ->].
  assert (r4 = r3) as -> by congruence.
  assert (Hid3 : cacheRecord_ID r3 = cacheRecord_ID r)
    by (unfold cacheRecord_ID; by rewrite Hmd3).
  rewrite Hid3 in Hrun.
  inv_bind Hrun as u4 s4 Hd. apply modify_Ok in Hd as ->.
  inv_bind Hrun as e5 s5 Hp5.
  assert (Habs : records s5 !! cacheRecord_ID r = None).
  { destruct (release_shrinks fuel') as (HI & _ & _).
    assert (Hsh : shrinks (set_records (delete (cacheRecord_ID r)) s3) s5).
    { destruct (parent r3); [by eapply HI|]. apply ret_Ok in Hp5 as [_ ->].
      apply shrinks_refl. }
    apply Hsh. simpl. apply lookup_delete_eq. }
  destruct e5 as [err|]; [by apply ret_Ok in Hrun as [? _]|].
  unfold bind at 1 in Hrun. unfold bind at 1, ext_call at 1 in Hrun.
  destruct (ext (trace s5) (LeaseManager_Delete (cacheRecord_ID r))) as [err|];
    [by apply ret_Ok in Hrun as [? _]|].
  unfold ret at 1 in Hrun. apply ext_call_Ok in Hrun as [_ ->]. simpl.
  split; [done|]. exists (trace s5). by rewrite <- app_assoc.
Qed.

End CacheMore.

Section CacheMoreExamples.
Import Cache.

Lemma Clone_then_Release_restores_witness :
  ∃ s1 s2,
    Clone 13 example_store = Ok 30%nat s1 ∧
    immutableRef_release ext_ok 1 30 s1 = Ok None s2 ∧
    recs s2 = recs example_store ∧ records s2 = records example_store ∧
    trace s2 = trace example_store.
Proof.
  destruct (Clone_then_Release_restores ext_ok 0 13 example_store (mkIRef 0 true)
              (mkRecord false {[IRef 11; IRef 12; IRef 13]} None
                 (example_md "p" cachePolicyDefault) false "" None None None))
    as (s1 & s2 & HC & HR & Hrecs & _ & Hrec & Htr & _).
  - vm_compute. reflexivity.
  - vm_compute. reflexivity.
  - compute_done.
  - compute_done.
  - exists s1, s2. done.
Defined.

Lemma finalize_commits_once_witness :
  ∃ s' r',
    finalize ext_ok "overlayfs" 2 true example_store = Ok None s' ∧
    recs s' !! 2%nat = Some r' ∧ equalMutable r' = None ∧
    spawned s' = [GoRemove 1 true] ∧
    finalize ext_ok "overlayfs" 2 true s' = Ok None s'.
Proof.
  destruct (finalize ext_ok "overlayfs" 2 true example_store) as [e s'| |] eqn:HF;
    [|vm_compute in HF; discriminate..].
  assert (e = None) as -> by (vm_compute in HF; congruence).
  destruct (finalize_commits_once ext_ok "overlayfs" 2 example_store s'
              (mkRecord false {[IRef 10]} (Some 12%nat)
                 (example_md "i1" cachePolicyRetain) false "" None (Some 20%nat) None)
              (mkRecord true {[MRef 20]} (Some 11%nat)
                 (example_md "m1" cachePolicyDefault) false "" None None (Some 10%nat))
              20 (mkMRef 1 true))
    as (Hr & _ & _ & Hsp & Hagain).
  - vm_compute. reflexivity.
  - reflexivity.
  - vm_compute. reflexivity.
  - vm_compute. reflexivity.
  - simpl. lia.
  - exact HF.
  - eexists s', _. split; [reflexivity|]. split; [exact Hr|].
    split; [reflexivity|]. split; [exact Hsp|apply Hagain].
Defined.

Lemma finalize_does_not_roll_back_witness :
  ∃ s' r' mr',
    finalize lease_fails "overlayfs" 2 true example_store
      = Ok (Some (Wrapf (Errorf "lease: unavailable") "failed to create lease")) s' ∧
    recs s' !! 2%nat = Some r' ∧ equalMutable r' = Some 20%nat ∧
    recs s' !! 1%nat = Some mr' ∧ dead mr' = true ∧
    isDead 2 s' = Ok true s'.
Proof.
  destruct (finalize_does_not_roll_back lease_fails "overlayfs" 2 example_store
              (mkRecord false {[IRef 10]} (Some 12%nat)
                 (example_md "i1" cachePolicyRetain) false "" None (Some 20%nat) None)
              (mkRecord true {[MRef 20]} (Some 11%nat)
                 (example_md "m1" cachePolicyDefault) false "" None None (Some 10%nat))
              20 (mkMRef 1 true) (Errorf "lease: unavailable"))
    as (s' & HF & Hr & Hmr & _ & Hdead).
  - vm_compute. reflexivity.
  - reflexivity.
  - reflexivity.
  - reflexivity.
  - vm_compute. reflexivity.
  - vm_compute. reflexivity.
  - simpl. lia.
  - reflexivity.
  - reflexivity.
  - eexists s', _, _. split; [exact HF|]. split; [exact Hr|].
    split; [reflexivity|]. split; [exact Hmr|]. split; [reflexivity|exact Hdead].
Defined.

Lemma mutable_release_deletes_witness :
  ∃ s' t,
    mutableRef_release ext_ok 5 20 active_store = Ok None s' ∧
    records s' !! "m1" = None ∧
    trace s' = t ++ [LeaseManager_Delete "m1"; Metadata_Clear "m1"].
Proof.
  destruct (mutable_release_deletes ext_ok (λ l, l) 5 20 active_store (mkMRef 1 true)
              (mkRecord true {[MRef 20]} (Some 11%nat)
                 (example_md "m1" cachePolicyDefault) false "" None None None))
    as (e & s' & HR & Hdel).
  - unfold ranked. split; [compute_done|]. split; compute_done.
  - vm_compute. reflexivity.
  - vm_compute. reflexivity.
  - discriminate.
  - reflexivity.
  - simpl. lia.
  - assert (e = None) as -> by (vm_compute in HR; congruence).
    destruct (Hdel eq_refl) as (Hrec & t & Ht).
    exists s', t. split; [exact HR|]. split; [exact Hrec|exact Ht].
Defined.

End CacheMoreExamples.

(* ===================================================================== *)
(** * Facts about read-only mounts *)
(* ===================================================================== *)
Section MountFacts.
Import Mounts.

Lemma overlay_scan_out opt : ∀ out upper,
  (overlay_scan opt out upper).1 = out ++ filter (λ o, kept o = true) opt.
Proof.
  induction opt as [|o opt IH]; intros out upper; simpl; [by rewrite app_nil_r|].
  rewrite filter_cons.
  destruct (HasPrefix o "upperdir=") eqn:H1.
  { rewrite decide_False by (unfold kept; by rewrite H1). by rewrite IH. }
  destruct (HasPrefix o "workdir=") eqn:H2; simpl.
  { rewrite decide_False by (unfold kept; by rewrite H1, H2). by rewrite IH. }
  rewrite decide_True by (unfold kept; by rewrite H1, H2).
  by rewrite IH, <- app_assoc.
Qed.

Lemma overlay_scan_kept opt : ∀ out upper,
  Forall (λ o, kept o = true) opt →
  overlay_scan opt out upper = (out ++ opt, upper).
Proof.
  induction opt as [|o opt IH]; intros out upper HF; simpl; [by rewrite app_nil_r|].
  apply Forall_cons in HF as [Ho HF]. unfold kept in Ho.
  apply andb_true_iff in Ho as [H1 H2].
  apply negb_true_iff in H1, H2. rewrite H1, H2. simpl.
  by rewrite IH, <- app_assoc.
Qed.

Lemma prefix_app_lower x p :
  p = "upperdir=" ∨ p = "workdir=" → HasPrefix ("lowerdir=" +:+ x) p = false.
Proof. by intros [-> | ->]. Qed.

Lemma prefix_lower x : HasPrefix ("lowerdir=" +:+ x) "lowerdir=" = true.
Proof. unfold HasPrefix. simpl. by destruct x. Qed.

Lemma overlay_lower_kept upper o : kept o = true → kept (overlay_lower upper o) = true.
Proof.
  intros Ho. unfold overlay_lower. destruct (HasPrefix o "lowerdir="); [|done].
  unfold kept. rewrite !prefix_app_lower by eauto. done.
Qed.

Lemma readonlyOverlay_kept opt : Forall (λ o, kept o = true) (readonlyOverlay opt).
Proof.
  unfold readonlyOverlay.
  destruct (overlay_scan opt [] "") as [out upper] eqn:Hs.
  assert (Hout : out = filter (λ o, kept o = true) opt).
  { pose proof (overlay_scan_out opt [] "") as H. by rewrite Hs in H. }
  assert (HF : Forall (λ o, kept o = true) out).
  { rewrite Hout. apply Forall_forall. intros o Ho.
    by apply list_elem_of_filter in Ho as [? _]. }
  destruct (negb _); [|done]. apply Forall_fmap. eapply Forall_impl; [exact HF|].
  intros o Ho. simpl. by apply overlay_lower_kept.
Qed.

Lemma readonlyOverlay_no_writable opt :
  Forall (λ o, HasPrefix o "upperdir=" = false ∧ HasPrefix o "workdir=" = false)
         (readonlyOverlay opt).
Proof.
  eapply Forall_impl; [apply readonlyOverlay_kept|]. intros o Ho. simpl in Ho.
  unfold kept in Ho. apply andb_true_iff in Ho as [H1 H2].
  by apply negb_true_iff in H1, H2.
Qed.

(** X20. [readonlyOverlay] returns no [upperdir=] and no [workdir=]
    option; it keeps one option for each of the other options, and the
    options that are not [lowerdir=] options as they are and in order. *)
Theorem readonlyOverlay_drops_the_writable_layer (opt : list string) :
  Forall (λ o, HasPrefix o "upperdir=" = false ∧ HasPrefix o "workdir=" = false)
         (readonlyOverlay opt) ∧
  length (readonlyOverlay opt) = length (filter (λ o, kept o = true) opt) ∧
  filter (λ o, HasPrefix o "lowerdir=" = false) (readonlyOverlay opt)
  = filter (λ o, kept o = true ∧ HasPrefix o "lowerdir=" = false) opt.
Proof.
  split; [apply readonlyOverlay_no_writable|split].
  - unfold readonlyOverlay.
    pose proof (overlay_scan_out opt [] "") as H.
    destruct (overlay_scan opt [] "") as [out upper]. simpl in H. subst out.
    destruct (negb _); [|done]. by rewrite length_fmap.
  - unfold readonlyOverlay.
    pose proof (overlay_scan_out opt [] "") as H.
    destruct (overlay_scan opt [] "") as [out upper]. simpl in H. subst out.
    assert (Hf : ∀ l : list string,
               filter (λ o, HasPrefix o "lowerdir=" = false) (filter (λ o, kept o = true) l)
               = filter (λ o, kept o = true ∧ HasPrefix o "lowerdir=" = false) l).
    { intros l. rewrite list_filter_filter. apply list_filter_iff. intros o. tauto. }
    destruct (negb _); [|apply Hf]. rewrite <- Hf.
    generalize (filter (λ o, kept o = true) opt). intros l.
    induction l as [|o l IH]; [done|]. rewrite fmap_cons, !filter_cons, IH.
    destruct (decide (HasPrefix o "lowerdir=" = false)) as [Hl|Hl].
    + assert (overlay_lower upper o = o) as -> by (unfold overlay_lower; by rewrite Hl).
      by rewrite decide_True.
    + apply not_false_is_true in Hl.
      rewrite decide_False; [done|]. unfold overlay_lower. rewrite Hl.
      by rewrite prefix_lower.
Qed.

(** X21. [readonlyOverlay] is idempotent. *)
Theorem readonlyOverlay_idempotent (opt : list string) :
  readonlyOverlay (readonlyOverlay opt) = readonlyOverlay opt.
Proof.
  pose proof (readonlyOverlay_kept opt) as HF.
  generalize dependent (readonlyOverlay opt). intros l HF.
  unfold readonlyOverlay. rewrite (overlay_scan_kept l [] "" HF). done.
Qed.

(** X22. [readOnlyMounter.Mount] hands the error of the wrapped [Mount] on;
    otherwise it returns the same release function and as many mounts, of
    the same type and source: an overlay mount without [upperdir=] and
    [workdir=], any other mount without the option [rw] and with [ro] as the
    last option, the remaining options being those of the wrapped mount. *)
Theorem readonly_mounts_are_not_writable {R : Type} :
  (∀ e : error, readOnlyMounter_Mount (R:=R) (inl e) = inl e) ∧
  ∀ (mounts : list Mount) (rel : R),
    ∃ mounts',
      readOnlyMounter_Mount (inr (mounts, rel)) = inr (mounts', rel) ∧
      Forall2 (λ m m',
        Type_ m' = Type_ m ∧ Source m' = Source m ∧
        if String.eqb (Type_ m) "overlay"
        then Forall (λ o, HasPrefix o "upperdir=" = false ∧
                          HasPrefix o "workdir=" = false) (Options m')
        else ("rw" ∉ Options m') ∧ last (Options m') = Some "ro" ∧
             ∀ o, o ≠ "rw" → o ≠ "ro" → (o ∈ Options m' ↔ o ∈ Options m))
        mounts mounts'.
Proof.
  split; [done|]. intros mounts rel. eexists. split; [reflexivity|].
  apply Forall2_fmap_r, Forall_Forall2_diag, Forall_forall. intros m _.
  unfold readonly_mount. simpl.
  destruct (String.eqb (Type_ m) "overlay") eqn:Ht; rewrite ?Ht; simpl.
  - split; [done|]. split; [done|]. apply readonlyOverlay_no_writable.
  - split; [done|]. split; [done|]. split; [|split].
    + intros [Hin|Hin%list_elem_of_singleton]%elem_of_app; [|done].
      by apply list_elem_of_filter in Hin as [? _].
    + apply last_snoc.
    + intros o H1 H2. rewrite elem_of_app, list_elem_of_filter, list_elem_of_singleton.
      split; [intros [[_ ?]|?]; done|]. intros ?. by left.
Qed.

End MountFacts.

(* ===================================================================== *)
(** * Facts about the source manager and the marshalling of ops *)
(* ===================================================================== *)
Section SourceFacts.
Import Sources.

Lemma last_registered_snoc (k : string) (src : Source) (l : list Source) :
  last_registered k (l ++ [src])
  = if String.eqb (src_ID src) k then Some src else last_registered k l.
Proof.
  induction l as [|x l IHl]; simpl.
  - by destruct (String.eqb (src_ID src) k).
  - rewrite IHl. destruct (String.eqb (src_ID src) k); [done|].
    by destruct (last_registered k l).
Qed.

(** X23. After any sequence of [Register] calls on a new manager, [Pull]
    calls the source registered last under the id of the identifier, and
    returns the error "no handler fro ..." when no source was registered
    under it. *)
Theorem Pull_dispatches_to_the_last_registered (srcs : list Source) (id : Identifier) :
  Pull (foldl Register NewManager srcs) id
  = match last_registered (id_ID id) srcs with
    | Some src => src_Pull src id
    | None => inl (Errorf ("no handler fro " +:+ id_ID id))
    end.
Proof.
  unfold Pull.
  assert (Hlook : foldl Register NewManager srcs !! id_ID id
                  = last_registered (id_ID id) srcs).
  { induction srcs as [|src srcs IH] using rev_ind; [done|].
    rewrite foldl_app, last_registered_snoc. cbn [foldl]. unfold Register at 1.
    destruct (String.eqb (src_ID src) (id_ID id)) eqn:He.
    - apply String.eqb_eq in He as ->. apply lookup_insert_eq.
    - apply String.eqb_neq in He. etrans; [by apply lookup_insert_ne|apply IH]. }
  by rewrite Hlook.
Qed.

End SourceFacts.

Section LlbFacts.
Import Llb.
Context (FromBytes : string → Digest).

(** X24. [appendResult] keeps the list free of two ops with the same digest
    and the cache equal to the digests of the list: an op whose digest is in
    the cache is not appended; appending the same op again changes
    nothing. *)
Theorem appendResult_serializes_each_digest_once (marshal : error + string)
    (lst : list string) (cache : gset Digest) :
  marshal_inv FromBytes lst cache →
  match appendResult FromBytes marshal lst cache with
  | (inl e, cache') => marshal = inl e ∧ cache' = cache
  | (inr (dgst, out), cache') =>
      marshal_inv FromBytes out cache' ∧
      dgst ∈ cache' ∧
      (∃ dt, marshal = inr dt ∧ dgst = FromBytes dt ∧
             out = if decide (dgst ∈ cache) then lst else lst ++ [dt]) ∧
      appendResult FromBytes marshal out cache' = (inr (dgst, out), cache')
  end.
Proof.
  intros [Hc Hnd]. unfold appendResult. destruct marshal as [e|dt]; [done|].
  destruct (decide (FromBytes dt ∈ cache)) as [Hin|Hnin].
  - split; [done|]. split; [done|]. split; [exists dt; by rewrite decide_True|].
    by rewrite decide_True.
  - split; [|split; [|split]].
    + split.
      * intros d. rewrite fmap_app, elem_of_app, elem_of_union, elem_of_singleton.
        simpl. rewrite list_elem_of_singleton, <- Hc. tauto.
      * rewrite fmap_app. apply NoDup_app. split; [done|]. split.
        -- intros d Hd ->%list_elem_of_singleton. apply Hnin. by apply Hc.
        -- apply NoDup_singleton.
    + apply elem_of_union. left. by apply elem_of_singleton.
    + exists dt. by rewrite decide_False.
    + rewrite decide_True; [done|]. apply elem_of_union. left. by apply elem_of_singleton.
Qed.

End LlbFacts.

Section LlbExamples.
Import Llb.

Lemma appendResult_serializes_each_digest_once_witness :
  let FromBytes := λ dt : string, "d:" +:+ dt in
  ∃ cache',
    appendResult FromBytes (inr "op") [] ∅ = (inr ("d:op", ["op"]), cache') ∧
    "d:op" ∈ cache' ∧
    appendResult FromBytes (inr "op") ["op"] cache' = (inr ("d:op", ["op"]), cache').
Proof.
  intros FromBytes.
  pose proof (appendResult_serializes_each_digest_once FromBytes (inr "op") [] ∅) as H.
  destruct (appendResult FromBytes (inr "op") [] ∅) as [[e|[dgst out]] cache'] eqn:HA;
    [vm_compute in HA; discriminate|].
  destruct H as (_ & Hin & _ & Hagain).
  - split; [|constructor]. intros d. rewrite elem_of_empty. simpl.
    rewrite elem_of_nil. done.
  - assert (dgst = "d:op" ∧ out = ["op"]) as [-> ->]
      by (vm_compute in HA; split; congruence).
    exists cache'. done.
Defined.

End LlbExamples.
